(** * PayGuard-AI icon generator: rasterizer and PNG encoder

    Shallow embedding of [scripts/gen-icons.py] ([create_png_icon] and the
    loop that calls it) and the properties its specification states about
    it, followed by further properties read off the code.

    Python numbers are modelled as they are: [int] is [Z]; [float] is IEEE-754
    binary64 with round-to-nearest-even, every operation being the exact
    rational result rounded once.  Exceptions are values of [exn]. *)

From Stdlib Require Import ZArith QArith Qround Qabs List Lia Lqa Bool.
From Stdlib.Strings Require Import Byte.
From Stdlib Require Import SpecFloat.
From Stdlib.Strings Require String.
From Stdlib.Numbers Require DecimalString DecimalZ DecimalPos.
Import ListNotations.

Set Implicit Arguments.
Open Scope Z_scope.

(** ** Exceptions and the error monad *)

Inductive exn : Type :=
  | OverflowError
  | ZeroDivisionError
  | ValueError
  | StructError.

Definition result (A : Type) : Type := (exn + A)%type.

Definition ok {A : Type} (a : A) : result A := inr a.
Definition raise {A : Type} (e : exn) : result A := inl e.

Definition bind {A B : Type} (m : result A) (k : A -> result B) : result B :=
  match m with
  | inl e => inl e
  | inr a => k a
  end.

Declare Scope py_scope.
Delimit Scope py_scope with py.
Notation "x <- m ;; k" := (bind m (fun x => k))
  (at level 61, m at next level, right associativity) : py_scope.
Open Scope py_scope.

(** [for a in l: out.append(f a)], stopping at the first exception. *)
Fixpoint mapM {A B : Type} (f : A -> result B) (l : list A) : result (list B) :=
  match l with
  | [] => ok []
  | a :: l' =>
      b <- f a ;;
      bs <- mapM f l' ;;
      ok (b :: bs)
  end.

(** [for a in l: s = body(a, s)], stopping at the first exception. *)
Fixpoint for_loop {A S : Type} (l : list A) (body : A -> S -> result S) (s : S)
  : result S :=
  match l with
  | [] => ok s
  | a :: l' =>
      s' <- body a s ;;
      for_loop l' body s'
  end.

(** [range(n)]: 0, 1, ..., n-1; empty when [n <= 0]. *)
Definition range (n : Z) : list Z := map Z.of_nat (seq 0 (Z.to_nat n)).

(** ** IEEE-754 binary64 *)

Module Binary64.

(** A finite double is an integer multiple of the smallest subnormal
    [2^-1074]; [Fin u] is the double [u * 2^-1074].  The two zeros are
    identified: the program only compares and divides by non-zero values,
    and Python raises on a zero divisor of either sign. *)
Inductive float : Type :=
  | Fin (u : Z)
  | Inf (neg : bool)
  | NaN.

(** The number of units in 1.0. *)
Definition one_units : Z := 2 ^ 1074.

(** Round to the nearest integer, ties to even. *)
Definition rne (x : Q) : Z :=
  let k := Qfloor x in
  match (x - inject_Z k ?= 1 # 2)%Q with
  | Lt => k
  | Gt => k + 1
  | Eq => if Z.even k then k else k + 1
  end.

(** Exponent of the unit in the last place of a non-negative [x] counted in
    units: 53 significant bits, never below one unit (subnormals). *)
Definition ulp_exp (x : Q) : Z := Z.max (Z.log2 (Qfloor x) - 52) 0.

Definition rnd_pos (x : Q) : Z :=
  let e := ulp_exp x in
  rne (x / inject_Z (2 ^ e))%Q * 2 ^ e.

(** Nearest double (in units) of the rational [x] (in units), with unbounded
    exponent range above. *)
Definition rnd (x : Q) : Z :=
  if Qle_bool 0 x then rnd_pos x else - rnd_pos (- x)%Q.

(** Results of magnitude [2^1024] or more overflow to an infinity. *)
Definition overflow_units : Z := 2 ^ 2098.

Definition mk (u : Z) : float :=
  if Z.abs u <? overflow_units then Fin u else Inf (u <? 0).

Definition round (x : Q) : float := mk (rnd x).

(** A decimal literal [n/d], parsed to the nearest double. *)
Definition lit (n : Z) (d : positive) : float :=
  round (Qmake (n * one_units) d).

Definition fneg (a : float) : float :=
  match a with
  | Fin u => Fin (- u)
  | Inf s => Inf (negb s)
  | NaN => NaN
  end.

Definition fabs (a : float) : float :=
  match a with
  | Fin u => Fin (Z.abs u)
  | Inf _ => Inf false
  | NaN => NaN
  end.

Definition fadd (a b : float) : float :=
  match a, b with
  | NaN, _ | _, NaN => NaN
  | Inf s, Inf t => if Bool.eqb s t then Inf s else NaN
  | Inf s, Fin _ => Inf s
  | Fin _, Inf t => Inf t
  | Fin u, Fin v => round (inject_Z (u + v))
  end.

Definition fsub (a b : float) : float :=
  match a, b with
  | NaN, _ | _, NaN => NaN
  | Inf s, Inf t => if Bool.eqb s t then NaN else Inf s
  | Inf s, Fin _ => Inf s
  | Fin _, Inf t => Inf (negb t)
  | Fin u, Fin v => round (inject_Z (u - v))
  end.

Definition fmul (a b : float) : float :=
  match a, b with
  | NaN, _ | _, NaN => NaN
  | Inf s, Inf t => Inf (xorb s t)
  | Inf s, Fin v => if v =? 0 then NaN else Inf (xorb s (v <? 0))
  | Fin u, Inf t => if u =? 0 then NaN else Inf (xorb (u <? 0) t)
  | Fin u, Fin v => round (inject_Z (u * v) / inject_Z one_units)%Q
  end.

(** Python's [a / b] on floats: a zero divisor raises. *)
Definition fdiv (a b : float) : result float :=
  match a, b with
  | _, Fin 0 => raise ZeroDivisionError
  | NaN, _ | _, NaN => ok NaN
  | Inf _, Inf _ => ok NaN
  | Inf s, Fin v => ok (Inf (xorb s (v <? 0)))
  | Fin _, Inf _ => ok (Fin 0)
  | Fin u, Fin v => ok (round (inject_Z (u * one_units) / inject_Z v)%Q)
  end.

Definition flt (a b : float) : bool :=
  match a, b with
  | NaN, _ | _, NaN => false
  | Inf s, Inf t => s && negb t
  | Inf s, Fin _ => s
  | Fin _, Inf t => negb t
  | Fin u, Fin v => u <? v
  end.

Definition fgt (a b : float) : bool := flt b a.

Definition fle (a b : float) : bool :=
  match a, b with
  | NaN, _ | _, NaN => false
  | Inf s, Inf t => s || negb t
  | Inf s, Fin _ => s
  | Fin _, Inf t => negb t
  | Fin u, Fin v => u <=? v
  end.

(** [float(n)] for a Python int, as done implicitly by [n - f]. *)
Definition of_int (n : Z) : result float :=
  match round (inject_Z (n * one_units)) with
  | Inf _ => raise OverflowError
  | f => ok f
  end.

(** [a / b] on Python ints: the correctly rounded quotient. *)
Definition int_truediv (a b : Z) : result float :=
  if b =? 0 then raise ZeroDivisionError
  else match round (inject_Z (a * one_units) / inject_Z b)%Q with
       | Inf _ => raise OverflowError
       | f => ok f
       end.

(** The same double in the standard library's bit-level format. *)
Definition to_spec (a : float) : SpecFloat.spec_float :=
  match a with
  | Fin u => SpecFloat.binary_normalize 53 1024 u (-1074) false
  | Inf s => SpecFloat.S754_infinity s
  | NaN => SpecFloat.S754_nan
  end.

End Binary64.

Import Binary64.

(** The constants of the format are never unfolded by simplification. *)
Arguments one_units : simpl never.
Arguments overflow_units : simpl never.
Arguments rnd : simpl never.
Arguments round : simpl never.
Arguments lit : simpl never.
Arguments of_int : simpl never.
Arguments int_truediv : simpl never.

Tactic Notation "mstep" := cbn [bind ok raise].
Tactic Notation "mstep" "in" hyp(H) := cbn [bind ok raise] in H.

(** ** The rasterizer: lines 6-43 of [create_png_icon] *)

Module Icon.

Definition shield_top : float := fneg (lit 85 100).
Definition shield_bottom : float := lit 85 100.
Definition shield_width_top : float := lit 75 100.

(** [(x - cx) / (width / 2)]: [x] and [width] are ints, [cx] a float. *)
Definition normalized (x : Z) (cx : float) (width : Z) : result float :=
  fx <- of_int x ;;
  half <- int_truediv width 2 ;;
  fdiv (fsub fx cx) half.

(** [progress = (ny - shield_top) / (shield_bottom - shield_top)] *)
Definition progress_of (ny : float) : result float :=
  fdiv (fsub ny shield_top) (fsub shield_bottom shield_top).

(** Lines 25-29: the half-width of the shield at [progress]. *)
Definition max_x_of (progress : float) : result float :=
  if flt progress (lit 6 10) then ok shield_width_top
  else
    taper <- fdiv (fsub progress (lit 6 10)) (lit 4 10) ;;
    one <- of_int 1 ;;
    ok (fmul shield_width_top (fsub one (fmul taper (lit 85 100)))).

(** [border_ratio = abs(nx) / max_x if max_x > 0 else 0]; the ints [0] are
    compared and stored as the double of the same value. *)
Definition border_ratio_of (nx max_x : float) : result float :=
  if fgt max_x (Fin 0) then fdiv (fabs nx) max_x else ok (Fin 0).

(** [is_border = border_ratio > 0.85 or progress < 0.05 or progress > 0.95] *)
Definition is_border_of (border_ratio progress : float) : bool :=
  fgt border_ratio (lit 85 100) || flt progress (lit 5 100)
  || fgt progress (lit 95 100).

(** The body of the inner loop: the four ints appended to [row] for the
    pixel at column [x] of row [y]. *)
Definition pixel (width height : Z) (cx cy : float) (x y : Z)
  : result (list Z) :=
  nx <- normalized x cx width ;;
  ny <- normalized y cy height ;;
  if flt ny shield_top || fgt ny shield_bottom then ok [0; 0; 0; 0]
  else
    progress <- progress_of ny ;;
    max_x <- max_x_of progress ;;
    if fgt (fabs nx) max_x then ok [0; 0; 0; 0]
    else
      border_ratio <- border_ratio_of nx max_x ;;
      let '(r, g, b) :=
        if is_border_of border_ratio progress
        then (30, 136, 229) else (30, 58, 95) in
      ok [r; g; b; 255].

(** [bytes(row)]: every int must be in [range(256)]. *)
Definition byte_of_int (v : Z) : result byte :=
  match (if 0 <=? v then Byte.of_N (Z.to_N v) else None) with
  | Some b => ok b
  | None => raise ValueError
  end.

Definition bytes (row : list Z) : result (list byte) := mapM byte_of_int row.

(** The value of [pixels] when the outer loop ends. *)
Definition rasterize (size : Z) : result (list (list byte)) :=
  let width := size in
  let height := size in
  cx <- int_truediv width 2 ;;
  cy <- int_truediv height 2 ;;
  for_loop (range height)
    (fun y pixels =>
       row <- for_loop (range width)
                (fun x row =>
                   px <- pixel width height cx cy x y ;;
                   ok (row ++ px))
                [] ;;
       b <- bytes row ;;
       ok (pixels ++ [b]))
    [].

(** The image as the specification sees it: the pixel at column [x] of row
    [y], channels as numbers. *)
Definition channel (b : byte) : Z := Z.of_N (Byte.to_N b).

Definition pixel_at (img : list (list byte)) (x y : Z)
  : option (Z * Z * Z * Z) :=
  if (0 <=? x) && (0 <=? y) then
    match nth_error img (Z.to_nat y) with
    | Some row =>
        match skipn (4 * Z.to_nat x) row with
        | r :: g :: b :: a :: _ =>
            Some (channel r, channel g, channel b, channel a)
        | _ => None
        end
    | None => None
    end
  else None.

End Icon.

(** ** The PNG encoder: lines 45-61 of [create_png_icon] *)

Module Png.

(** The byte whose value is [z] modulo 256. *)
Definition byte_of (z : Z) : byte :=
  match Byte.of_N (Z.to_N (Z.land z 255)) with
  | Some b => b
  | None => Byte.x00
  end.

Definition byte_val (b : byte) : Z := Z.of_N (Byte.to_N b).

(** [struct.pack('>I', n)]: four bytes, most significant first;
    [struct.error] unless [0 <= n < 2^32]. *)
Definition pack_I (n : Z) : result (list byte) :=
  if (0 <=? n) && (n <? 2 ^ 32)
  then ok [byte_of (Z.shiftr n 24); byte_of (Z.shiftr n 16);
           byte_of (Z.shiftr n 8); byte_of n]
  else raise StructError.

(** [struct.pack('B', n)]: one byte; [struct.error] unless [0 <= n < 256]. *)
Definition pack_B (n : Z) : result (list byte) :=
  if (0 <=? n) && (n <? 256) then ok [byte_of n] else raise StructError.

(** [zlib.crc32]: the CRC-32 of zlib and gzip, reflected polynomial
    [0xEDB88320], register preset to all ones and complemented at the end. *)
Definition crc_poly : Z := 0xEDB88320.

Definition crc_shift (c : Z) : Z :=
  if Z.testbit c 0 then Z.lxor (Z.shiftr c 1) crc_poly else Z.shiftr c 1.

Definition crc_update (c : Z) (b : byte) : Z :=
  Nat.iter 8 crc_shift (Z.lxor c (byte_val b)).

Definition crc32 (data : list byte) : Z :=
  Z.lxor (fold_left crc_update data 0xFFFFFFFF) 0xFFFFFFFF.

(** [make_chunk(chunk_type, data)] *)
Definition make_chunk (chunk_type data : list byte) : result (list byte) :=
  let chunk := chunk_type ++ data in
  len <- pack_I (Z.of_nat (length data)) ;;
  crc <- pack_I (Z.land (crc32 chunk) 0xFFFFFFFF) ;;
  ok (len ++ chunk ++ crc).

Definition sig : list byte :=
  [Byte.x89; Byte.x50; Byte.x4e; Byte.x47; Byte.x0d; Byte.x0a; Byte.x1a; Byte.x0a].

Definition IHDR : list byte := [Byte.x49; Byte.x48; Byte.x44; Byte.x52].
Definition IDAT : list byte := [Byte.x49; Byte.x44; Byte.x41; Byte.x54].
Definition IEND : list byte := [Byte.x49; Byte.x45; Byte.x4e; Byte.x44].

(** [struct.pack('>IIBBBBB', width, height, 8, 6, 0, 0, 0)] *)
Definition pack_ihdr (width height : Z) : result (list byte) :=
  w <- pack_I width ;;
  h <- pack_I height ;;
  depth <- pack_B 8 ;;
  color <- pack_B 6 ;;
  compression <- pack_B 0 ;;
  filter <- pack_B 0 ;;
  interlace <- pack_B 0 ;;
  ok (w ++ h ++ depth ++ color ++ compression ++ filter ++ interlace).

(** [raw = b''; for row_pixels in pixels: raw += b'\x00' + row_pixels] *)
Definition scanlines (pixels : list (list byte)) : list byte :=
  fold_left (fun raw row_pixels => raw ++ (Byte.x00 :: row_pixels)) pixels [].

Section Encoder.

(** [zlib.compress(raw, 9)], an external library. *)
Variable compress : list byte -> list byte.

(** The bytes written to the file, from the pixels the loops produced. *)
Definition encode (width height : Z) (pixels : list (list byte))
    : result (list byte) :=
  ihdr <- pack_ihdr width height ;;
  let raw := scanlines pixels in
  let compressed := compress raw in
  let png := sig in
  c <- make_chunk IHDR ihdr ;;
  let png := png ++ c in
  c <- make_chunk IDAT compressed ;;
  let png := png ++ c in
  c <- make_chunk IEND [] ;;
  let png := png ++ c in
  ok png.

(** The whole function: what [f.write(png)] receives. *)
Definition create_png_icon (size : Z) : result (list byte) :=
  pixels <- Icon.rasterize size ;;
  encode size size pixels.

End Encoder.

End Png.

(** ** The shield, described apart from the code *)

Module ShieldSpec.

Definition transparent : Z * Z * Z * Z := (0, 0, 0, 0).
Definition navy : Z * Z * Z * Z := (30, 58, 95, 255).
Definition accent_blue : Z * Z * Z * Z := (30, 136, 229, 255).

(** *** In doubles, the taper computed first *)

(** [(x - size/2) / (size/2)] *)
Definition coordinate (x size : Z) : result float :=
  half <- int_truediv size 2 ;;
  fx <- of_int x ;;
  fdiv (fsub fx half) half.

(** [max_x = 0.75] when [progress < 0.6]; else the taper
    [(progress - 0.6) / 0.4] is computed first, and
    [max_x = 0.75 * (1 - 0.85 * taper)]. *)
Definition half_width (progress : float) : result float :=
  if flt progress (lit 6 10) then ok (lit 75 100)
  else
    taper <- fdiv (fsub progress (lit 6 10)) (lit 4 10) ;;
    ok (fmul (lit 75 100) (fsub (lit 1 1) (fmul (lit 85 100) taper))).

(** [|nx| / max_x], taken as 0 when [max_x <= 0]. *)
Definition ratio (nx max_x : float) : result float :=
  if fle max_x (lit 0 1) then ok (lit 0 1) else fdiv (fabs nx) max_x.

Definition spec_pixel (size x y : Z) : result (Z * Z * Z * Z) :=
  nx <- coordinate x size ;;
  ny <- coordinate y size ;;
  if flt ny (lit (-85) 100) || fgt ny (lit 85 100) then ok transparent
  else
    progress <- fdiv (fadd ny (lit 85 100)) (lit 17 10) ;;
    max_x <- half_width progress ;;
    if fgt (fabs nx) max_x then ok transparent
    else
      r <- ratio nx max_x ;;
      if fgt r (lit 85 100) || flt progress (lit 5 100)
         || fgt progress (lit 95 100)
      then ok accent_blue
      else ok navy.

(** *** The formulas as the claim words them

    Read over the rationals, with no rounding anywhere. *)

Definition Qltb (a b : Q) : bool := negb (Qle_bool b a).

(** [(x - size/2) / (size/2)] *)
Definition exact_coordinate (x size : Z) : Q :=
  ((inject_Z x - inject_Z size / 2) / (inject_Z size / 2))%Q.

(** [0.75] when [progress < 0.6], else
    [0.75 * (1 - 0.85 * (progress - 0.6) / 0.4)]. *)
Definition exact_half_width (progress : Q) : Q :=
  if Qltb progress (6 # 10) then 75 # 100
  else ((75 # 100) * (1 - (85 # 100) * (progress - (6 # 10)) / (4 # 10)))%Q.

(** [|nx| / max_x], taken as 0 when [max_x <= 0]. *)
Definition exact_ratio (nx max_x : Q) : Q :=
  if Qle_bool max_x 0 then 0%Q else (Qabs nx / max_x)%Q.

Definition exact_pixel (size x y : Z) : Z * Z * Z * Z :=
  let nx := exact_coordinate x size in
  let ny := exact_coordinate y size in
  if Qltb ny (- (85 # 100)) || Qltb (85 # 100) ny then transparent
  else
    let progress := ((ny + (85 # 100)) / (17 # 10))%Q in
    let max_x := exact_half_width progress in
    if Qltb max_x (Qabs nx) then transparent
    else if Qltb (85 # 100) (exact_ratio nx max_x) || Qltb progress (5 # 100)
            || Qltb (95 # 100) progress
    then accent_blue
    else navy.

(** The same formulas in doubles, each operation rounded, in the order they
    are written: [0.85 * (progress - 0.6) / 0.4] multiplies before it
    divides. *)
Definition written_half_width (progress : float) : result float :=
  if flt progress (lit 6 10) then ok (lit 75 100)
  else
    q <- fdiv (fmul (lit 85 100) (fsub progress (lit 6 10))) (lit 4 10) ;;
    ok (fmul (lit 75 100) (fsub (lit 1 1) q)).

Definition written_pixel (size x y : Z) : result (Z * Z * Z * Z) :=
  nx <- coordinate x size ;;
  ny <- coordinate y size ;;
  if flt ny (lit (-85) 100) || fgt ny (lit 85 100) then ok transparent
  else
    progress <- fdiv (fadd ny (lit 85 100)) (lit 17 10) ;;
    max_x <- written_half_width progress ;;
    if fgt (fabs nx) max_x then ok transparent
    else
      r <- ratio nx max_x ;;
      if fgt r (lit 85 100) || flt progress (lit 5 100)
         || fgt progress (lit 95 100)
      then ok accent_blue
      else ok navy.

End ShieldSpec.

(** ** The PNG format, as the specification words it *)

Module PngSpec.
Import Png.

(** The number a byte string denotes, most significant byte first. *)
Definition be_value (bs : list byte) : Z :=
  fold_left (fun acc b => acc * 256 + byte_val b) bs 0.

(** The 4-byte big-endian unsigned representation of [n]. *)
Definition be32 (n : Z) : list byte :=
  [byte_of (n / 2 ^ 24 mod 256); byte_of (n / 2 ^ 16 mod 256);
   byte_of (n / 2 ^ 8 mod 256); byte_of (n mod 256)].

(** A chunk: length of the data, type tag, data, CRC of tag and data. *)
Definition chunk (tag data : list byte) : list byte :=
  be32 (Z.of_nat (length data)) ++ tag ++ data ++ be32 (crc32 (tag ++ data)).

(** The 13 bytes of the header: width, height, then 8, 6, 0, 0, 0. *)
Definition ihdr_data (width height : Z) : list byte :=
  be32 width ++ be32 height
  ++ [Byte.x08; Byte.x06; Byte.x00; Byte.x00; Byte.x00].

Definition signature : list byte :=
  [Byte.x89; Byte.x50; Byte.x4e; Byte.x47; Byte.x0d; Byte.x0a; Byte.x1a; Byte.x0a].

(** An image of the given width and height: rows of four bytes per pixel. *)
Definition image (width height : Z) (img : list (list byte)) : Prop :=
  length img = Z.to_nat height
  /\ Forall (fun row => length row = (4 * Z.to_nat width)%nat) img.

(** Reading a PNG file back: the signature, then chunks until the end of the
    file, each with a length that fits and a CRC that matches. *)
Fixpoint read_chunks (fuel : nat) (bs : list byte)
    : option (list (list byte * list byte)) :=
  match fuel with
  | O => None
  | S fuel' =>
      match bs with
      | [] => Some []
      | _ =>
          let len := Z.to_nat (be_value (firstn 4 bs)) in
          let tag := firstn 4 (skipn 4 bs) in
          let data := firstn len (skipn 8 bs) in
          let crc := firstn 4 (skipn (8 + len) bs) in
          if (length bs <? 12 + len)%nat then None
          else if be_value crc =? crc32 (tag ++ data)
               then option_map (cons (tag, data))
                      (read_chunks fuel' (skipn (12 + len) bs))
               else None
      end
  end.

Definition read_png (file : list byte) : option (list (list byte * list byte)) :=
  if list_eq_dec Byte.byte_eq_dec (firstn 8 file) signature
  then read_chunks (S (length file)) (skipn 8 file)
  else None.

(** Undoing the scanline assembly: [height] rows of [stride] bytes, each
    behind one filter byte. *)
Fixpoint unfilter (height stride : nat) (raw : list byte) : list (list byte) :=
  match height with
  | O => []
  | S h => firstn stride (skipn 1 raw) :: unfilter h stride (skipn (1 + stride) raw)
  end.

(** The data of the first chunk of the file with the given type tag. *)
Definition chunk_data (tag : list byte) (file : list byte) : option (list byte) :=
  match read_png file with
  | Some chunks =>
      option_map snd
        (find (fun c => if list_eq_dec Byte.byte_eq_dec (fst c) tag
                        then true else false) chunks)
  | None => None
  end.

(** zlib's documented bound on the size of [compress]'s result. *)
Definition compressBound (n : Z) : Z :=
  n + Z.shiftr n 12 + Z.shiftr n 14 + Z.shiftr n 25 + 13.

(** The file the encoder is to produce, [compress] being the compressor. *)
Definition layout (compress : list byte -> list byte) (size : Z)
             (img : list (list byte)) : list byte :=
  signature
  ++ chunk IHDR (ihdr_data size size)
  ++ chunk IDAT (compress (scanlines img))
  ++ chunk IEND [].

(** The first 29 bytes of [icon-72.png], the CRC of its header and its last
    12 bytes. *)
Definition header_72 : list byte :=
  [Byte.x89; Byte.x50; Byte.x4e; Byte.x47; Byte.x0d; Byte.x0a; Byte.x1a; Byte.x0a;
   Byte.x00; Byte.x00; Byte.x00; Byte.x0d; Byte.x49; Byte.x48; Byte.x44; Byte.x52;
   Byte.x00; Byte.x00; Byte.x00; Byte.x48; Byte.x00; Byte.x00; Byte.x00; Byte.x48;
   Byte.x08; Byte.x06; Byte.x00; Byte.x00; Byte.x00].

Definition header_72_crc : list byte := [Byte.x55; Byte.xed; Byte.xb3; Byte.x47].

Definition iend_chunk : list byte :=
  [Byte.x00; Byte.x00; Byte.x00; Byte.x00; Byte.x49; Byte.x45; Byte.x4e; Byte.x44;
   Byte.xae; Byte.x42; Byte.x60; Byte.x82].

End PngSpec.

(** ** A zlib stream without compression

    The encoder's theorems hold for any compressor that inflates back to its
    input within zlib's size bound.  The simplest zlib-compatible one stores
    the data in deflate's stored blocks; it shows the two laws can be met. *)

Module Stored.
Import Png PngSpec.

Definition adler_step (s : Z * Z) (x : byte) : Z * Z :=
  let a := (fst s + byte_val x) mod 65521 in
  (a, (snd s + a) mod 65521).

Definition adler32 (data : list byte) : Z :=
  let s := fold_left adler_step data (1, 0) in
  snd s * 65536 + fst s.

(** One stored block: final flag, LEN and its complement (little-endian),
    then the data. *)
Definition stored_block (final : bool) (data : list byte) : list byte :=
  let n := Z.of_nat (length data) in
  [if final then Byte.x01 else Byte.x00;
   byte_of n; byte_of (n / 256); byte_of (65535 - n); byte_of ((65535 - n) / 256)]
  ++ data.

(** The longest stored block. *)
Definition block_max : nat := Z.to_nat 65535.

Fixpoint deflate_stored (fuel : nat) (data : list byte) : list byte :=
  match fuel with
  | O => stored_block true data
  | S fuel' =>
      if Z.of_nat (length data) <=? 65535 then stored_block true data
      else stored_block false (firstn block_max data)
           ++ deflate_stored fuel' (skipn block_max data)
  end.

Definition zlib_store (data : list byte) : list byte :=
  [Byte.x78; Byte.x01] ++ deflate_stored (length data) data ++ be32 (adler32 data).

Fixpoint inflate_stored (fuel : nat) (bs : list byte)
    : option (list byte * list byte) :=
  match fuel with
  | O => None
  | S fuel' =>
      match bs with
      | hd :: l0 :: l1 :: n0 :: n1 :: rest =>
          let len := byte_val l0 + 256 * byte_val l1 in
          let nlen := byte_val n0 + 256 * byte_val n1 in
          if (len + nlen =? 65535) && (Z.to_nat len <=? length rest)%nat then
            let data := firstn (Z.to_nat len) rest in
            let rest' := skipn (Z.to_nat len) rest in
            if byte_val hd =? 1 then Some (data, rest')
            else if byte_val hd =? 0 then
                   match inflate_stored fuel' rest' with
                   | Some (more, r) => Some (data ++ more, r)
                   | None => None
                   end
                 else None
          else None
      | _ => None
      end
  end.

Definition zlib_load (bs : list byte) : option (list byte) :=
  match bs with
  | cmf :: flg :: body =>
      if (byte_val cmf =? 0x78)
         && ((byte_val cmf * 256 + byte_val flg) mod 31 =? 0)
      then match inflate_stored (length body) body with
           | Some (out, trailer) =>
               if (length trailer =? 4)%nat && (be_value trailer =? adler32 out)
               then Some out else None
           | None => None
           end
      else None
  | _ => None
  end.

End Stored.

(** ** The float model against the standard library's IEEE-754 operations *)

Module Crosscheck.
Import SpecFloat.

Definition spec_eqb (a b : spec_float) : bool :=
  match a, b with
  | S754_zero s, S754_zero t => Bool.eqb s t
  | S754_infinity s, S754_infinity t => Bool.eqb s t
  | S754_nan, S754_nan => true
  | S754_finite s m e, S754_finite t n f => Bool.eqb s t && (m =? n)%positive && (e =? f)
  | _, _ => false
  end.

(** Pairs of operands met while rasterizing the 72-pixel icon: literals,
    1.0 and the normalized coordinates 27/36, -28/36 and 24/36. *)
Definition samples : list (float * float) :=
  [(round (Qmake (27 * one_units) 36), lit 85 100);
   (round (Qmake (-28 * one_units) 36), lit 75 100);
   (round (Qmake (24 * one_units) 36), lit 85 100);
   (lit 85 100, fneg (lit 85 100));
   (lit 95 100, lit 6 10);
   (lit 5 100, lit 4 10);
   (Fin one_units, lit 6 10);
   (lit 75 100, lit 4 10)].

Definition agree (a b : float) : bool :=
  spec_eqb (to_spec (fadd a b)) (SFadd 53 1024 (to_spec a) (to_spec b))
  && spec_eqb (to_spec (fsub a b)) (SFsub 53 1024 (to_spec a) (to_spec b))
  && spec_eqb (to_spec (fmul a b)) (SFmul 53 1024 (to_spec a) (to_spec b))
  && match fdiv a b with
     | inr q => spec_eqb (to_spec q) (SFdiv 53 1024 (to_spec a) (to_spec b))
     | inl _ => false
     end
  && Bool.eqb (flt a b) (SFltb (to_spec a) (to_spec b))
  && Bool.eqb (fle a b) (SFleb (to_spec a) (to_spec b))
  && spec_eqb (to_spec (fabs a)) (SFabs (to_spec a))
  && spec_eqb (to_spec (fneg a)) (SFopp (to_spec a)).

End Crosscheck.

(** ** Constants used by the statements *)

Module Constants.
Import Icon Png Stored.

(** The largest int that converts to a float, and the largest whose half
    does. *)
Definition max_int : Z := 2 ^ 1024 - 2 ^ 970 - 1.
Definition max_dividend : Z := 2 ^ 1025 - 2 ^ 971 - 1.
Definition max_units : Z := (2 ^ 53 - 1) * 2 ^ 2045.

(** One row of the image: the inner loop followed by [bytes(row)]. *)
Definition scanline (size : Z) (cx cy : float) (y : Z) : result (list byte) :=
  pxs <- mapM (fun x => pixel size size cx cy x y) (range size) ;;
  bytes (concat pxs).

Definition is_color (px : list Z) : Prop :=
  px = [0; 0; 0; 0] \/ px = [30; 58; 95; 255] \/ px = [30; 136; 229; 255].

(** The literals of the program, in units. *)
Definition c085 : Z := rnd (Qmake (85 * one_units) 100).
Definition c075 : Z := rnd (Qmake (75 * one_units) 100).
Definition c06 : Z := rnd (Qmake (6 * one_units) 10).
Definition c04 : Z := rnd (Qmake (4 * one_units) 10).

Definition x00 : byte := Byte.x00.

(** [rasterize(2)]: only the lower right pixel lies inside the shield. *)
Definition img2 : list (list byte) :=
  [[x00; x00; x00; x00; x00; x00; x00; x00];
   [x00; x00; x00; x00; Byte.x1e; Byte.x3a; Byte.x5f; Byte.xff]].

Definition c015 : Z := one_units - c085.
Definition min_half_width : Z :=
  rnd (inject_Z (c075 * c015) / inject_Z one_units).

(** [rasterize(3)]: columns 1 and 2 of rows 1 and 2 are navy. *)
Definition img3 : list (list byte) :=
  [[x00; x00; x00; x00; x00; x00; x00; x00; x00; x00; x00; x00];
   [x00; x00; x00; x00;
    Byte.x1e; Byte.x3a; Byte.x5f; Byte.xff; Byte.x1e; Byte.x3a; Byte.x5f; Byte.xff];
   [x00; x00; x00; x00;
    Byte.x1e; Byte.x3a; Byte.x5f; Byte.xff; Byte.x1e; Byte.x3a; Byte.x5f; Byte.xff]].

(** The file of the 2 by 2 icon when the scanlines are stored. *)
Definition png2 : list byte :=
  Eval vm_compute in
    match encode zlib_store 2 2 img2 with
    | inr file => file
    | inl _ => []
    end.

End Constants.

(** ** The loop body in units *)

Module Shape.
Import Icon Constants.

Definition c005 : Z := rnd (Qmake (5 * one_units) 100).
Definition c095 : Z := rnd (Qmake (95 * one_units) 100).

(** [(x - cx) / (width / 2)] in units, when [x], [cx] and the half of the
    width are exact: the quotient [(2 x - size) / size], rounded. *)
Definition coord (size x : Z) : Z :=
  rnd (inject_Z ((2 * x - size) * one_units) / inject_Z size).

(** Line 24 in units. *)
Definition progress_units (q : Z) : Z :=
  rnd (inject_Z (rnd (inject_Z (q - - c085)) * one_units) / inject_Z (2 * c085)).

(** Lines 28-29 in units. *)
Definition taper_width (p : Z) : Z :=
  let taper := rnd (inject_Z (rnd (inject_Z (p - c06)) * one_units) / inject_Z c04) in
  let m := rnd (inject_Z (taper * c085) / inject_Z one_units) in
  let s := rnd (inject_Z (one_units - m)) in
  rnd (inject_Z (c075 * s) / inject_Z one_units).

(** Lines 25-29 in units. *)
Definition max_x_units (p : Z) : Z :=
  if p <? c06 then c075 else taper_width p.

(** [abs(nx) / max_x] in units. *)
Definition ratio_units (a w : Z) : Z :=
  rnd (inject_Z (a * one_units) / inject_Z w).

(** Lines 20-42 in units: the four ints of the pixel whose normalized
    coordinates are [nx] of absolute value [a] and [ny = q]. *)
Definition shade (a q : Z) : list Z :=
  if (q <? - c085) || (c085 <? q) then [0; 0; 0; 0]
  else
    let p := progress_units q in
    let w := max_x_units p in
    if w <? a then [0; 0; 0; 0]
    else if (c085 <? ratio_units a w) || (p <? c005) || (c095 <? p)
         then [30; 136; 229; 255]
         else [30; 58; 95; 255].

(** The double nearest to one third, and the double [1 - 2^-52]. *)
Definition third : Z := rnd (inject_Z one_units / inject_Z 3).
Definition below_one : Z := (2 ^ 52 - 1) * 2 ^ 1022.

(** The coordinate of index 12 of 14: the last row of the smallest icon whose
    last row lies below the shield. *)
Definition coord_12_14 : Z := rnd (inject_Z (12 * one_units) / inject_Z 14).

(** The doubles nearest to [3/4 + 2^-51] and to [17/20 + 2^-49 / 20]: the
    smallest quotients beyond 0.75 and beyond 0.85 on a grid of at most
    [2^49] pixels. *)
Definition above_075 : Z :=
  rnd (inject_Z ((3 * 2 ^ 49 + 1) * one_units) / inject_Z (4 * 2 ^ 49)).
Definition above_085 : Z :=
  rnd (inject_Z ((17 * 2 ^ 49 + 1) * one_units) / inject_Z (20 * 2 ^ 49)).

(** [rasterize(4)]: columns 1 to 3 of rows 1 and 2 and column 2 of row 3
    are navy. *)
Definition img4 : list (list byte) :=
  [[x00; x00; x00; x00; x00; x00; x00; x00; x00; x00; x00; x00; x00; x00; x00; x00];
   [x00; x00; x00; x00; Byte.x1e; Byte.x3a; Byte.x5f; Byte.xff;
    Byte.x1e; Byte.x3a; Byte.x5f; Byte.xff; Byte.x1e; Byte.x3a; Byte.x5f; Byte.xff];
   [x00; x00; x00; x00; Byte.x1e; Byte.x3a; Byte.x5f; Byte.xff;
    Byte.x1e; Byte.x3a; Byte.x5f; Byte.xff; Byte.x1e; Byte.x3a; Byte.x5f; Byte.xff];
   [x00; x00; x00; x00; x00; x00; x00; x00;
    Byte.x1e; Byte.x3a; Byte.x5f; Byte.xff; x00; x00; x00; x00]].

End Shape.

(** ** Reading a whole file back *)

Module PngReader.
Import Png PngSpec.

Definition bytes_eqb (a b : list byte) : bool :=
  if list_eq_dec Byte.byte_eq_dec a b then true else false.

(** A reader for the files the encoder writes: the three chunks in order,
    an RGBA header of 8 bits per channel, and an IDAT that inflates to
    [height] scanlines of [1 + 4 * width] bytes.  It returns width, height
    and the rows of pixels. *)
Definition decode (decompress : list byte -> option (list byte)) (file : list byte)
    : option (Z * Z * list (list byte)) :=
  match read_png file with
  | Some [(t1, ihdr); (t2, idat); (t3, iend)] =>
      if bytes_eqb t1 IHDR && bytes_eqb t2 IDAT && bytes_eqb t3 IEND
         && bytes_eqb iend []
         && bytes_eqb (skipn 8 ihdr) [Byte.x08; Byte.x06; Byte.x00; Byte.x00; Byte.x00]
      then
        let width := be_value (firstn 4 ihdr) in
        let height := be_value (firstn 4 (skipn 4 ihdr)) in
        match decompress idat with
        | Some raw =>
            if Z.of_nat (length raw) =? height * (1 + width * 4)
            then Some (width, height,
                       unfilter (Z.to_nat height) (4 * Z.to_nat width) raw)
            else None
        | None => None
        end
      else None
  | _ => None
  end.

End PngReader.

(** ** The script: lines 63-70 *)

Module Script.
Import Stdlib.Strings.String Stdlib.Numbers.DecimalString.
Import Png.

(** What stops the script: an exception of the computation, or the
    [OSError] of an operation on a file or on the standard output. *)
Inductive failure : Type :=
  | Raised (e : exn)
  | OSError.

(** The part of the world the script touches: the files by path, the first
    binding of a path being its content, and the text sent to the standard
    output. *)
Record world : Type := World {
  files : list (string * list byte);
  stdout : string }.

(** What the operations of the script meet, which may depend on all that
    happened before.  [opens w path]: whether [open(path, 'wb')] succeeds.
    [write_stops w path data]: [None] when [f.write(data)] and the closing of
    the file succeed, [Some n] when one of them raises [OSError], at most the
    first [n] bytes having reached the file.  [print_stops w line]: [None]
    when [print(line)] succeeds, [Some k] when it raises [OSError], at most
    the first [k] characters having been sent. *)
Record environment : Type := Environment {
  opens : world -> string -> bool;
  write_stops : world -> string -> list byte -> option nat;
  print_stops : world -> string -> option nat }.

Definition write_file (path : string) (data : list byte) (w : world) : world :=
  World ((path, data) :: files w) (stdout w).

(** A statement of the script: it changes the world and may raise. *)
Definition action : Type := world -> option failure * world.

Definition skip : action := fun w => (None, w).

(** One statement after another: the second runs if the first did not
    raise. *)
Definition seq (a b : action) : action :=
  fun w =>
    match a w with
    | (Some e, w') => (Some e, w')
    | (None, w') => b w'
    end.

Notation "a ;;; b" := (seq a b) (at level 62, right associativity).

Definition newline : string := String (Ascii.ascii_of_nat 10) EmptyString.

Fixpoint read_file (path : string) (fs : list (string * list byte))
    : option (list byte) :=
  match fs with
  | [] => None
  | (p, data) :: fs' => if String.eqb p path then Some data else read_file path fs'
  end.

(** [str(n)], as an f-string formats an int. *)
Definition str (n : Z) : string := NilZero.string_of_int (Z.to_int n).

Definition base : string := "src/PayGuardAI.Web/wwwroot/icons".

(** [f'{base}/icon-{size}.png'] *)
Definition icon_path (size : Z) : string :=
  (base ++ "/icon-" ++ str size ++ ".png")%string.

(** [f'Created icon-{size}.png'] *)
Definition created (size : Z) : string :=
  ("Created icon-" ++ str size ++ ".png")%string.

Definition sizes : list Z := [72; 96; 128; 144; 152; 192; 384; 512].

(** The text of lines printed one after another. *)
Fixpoint lines_text (lines : list string) : string :=
  match lines with
  | [] => EmptyString
  | line :: rest => ((line ++ newline) ++ lines_text rest)%string
  end.

Section Run.

Variable compress : list byte -> list byte.
Variable env : environment.

(** [print(line)]: the line and a newline go to the standard output. *)
Definition print (line : string) : action :=
  fun w =>
    let text := (line ++ newline)%string in
    match print_stops env w line with
    | None => (None, World (files w) (stdout w ++ text))
    | Some k => (Some OSError, World (files w) (stdout w ++ substring 0 k text))
    end.

(** [open(filename, 'wb')]: the file is created or truncated. *)
Definition open_wb (filename : string) : action :=
  fun w =>
    if opens env w filename then (None, write_file filename [] w)
    else (Some OSError, w).

(** [f.write(data)] and the end of the [with] block, which closes the
    file. *)
Definition write_close (filename : string) (data : list byte) : action :=
  fun w =>
    match write_stops env w filename data with
    | None => (None, write_file filename data w)
    | Some n => (Some OSError, write_file filename (firstn n data) w)
    end.

(** [create_png_icon(size, filename)], lines 5-64: the file is opened only
    once all its bytes are computed. *)
Definition create_png_icon_file (size : Z) (filename : string) : action :=
  fun w =>
    match create_png_icon compress size with
    | inl e => (Some (Raised e), w)
    | inr png => (open_wb filename ;;; write_close filename png) w
    end.

(** The loop of lines 67-69 over a list of sizes. *)
Fixpoint generate (l : list Z) : action :=
  match l with
  | [] => skip
  | size :: l' =>
      create_png_icon_file size (icon_path size) ;;;
      print (created size) ;;;
      generate l'
  end.

(** Lines 66-70. *)
Definition main : action :=
  generate sizes ;;; print "Done!".

(** Every operation on the given paths and every print of the given lines
    succeeds, whenever it happens. *)
Definition reliable (paths lines : list string) : Prop :=
  (forall w path, In path paths -> opens env w path = true)
  /\ (forall w path data, In path paths -> write_stops env w path data = None)
  /\ (forall w line, In line lines -> print_stops env w line = None).

(** The bytes of the icon of a size, empty if there are none. *)
Definition icon (size : Z) : list byte :=
  match create_png_icon compress size with
  | inr png => png
  | inl _ => []
  end.

(** The bindings a completed loop adds, the last first: each file was
    truncated, then written. *)
Definition written (l : list Z) : list (string * list byte) :=
  rev (flat_map (fun size => [(icon_path size, []);
                              (icon_path size, icon size)]) l).

(** The world after the loop has completed for the sizes [l]. *)
Definition after (l : list Z) (w : world) : world :=
  World (written l ++ files w) (stdout w ++ lines_text (map created l)).

(** The world [w'] in which the iteration for [size], started in [w],
    stops: [open] raised, or writing and closing raised, or [print] did. *)
Definition stopped_at (size : Z) (w w' : world) : Prop :=
  w' = w
  \/ (exists n,
        w' = write_file (icon_path size) (firstn n (icon size))
               (write_file (icon_path size) [] w))
  \/ (exists k,
        w' = World (written [size] ++ files w)
               (stdout w ++ substring 0 k (created size ++ newline))).

End Run.

(** The line whose [print] comes next when the sizes [rest] are left. *)
Definition next_line (rest : list Z) (last : string) : string :=
  match rest with
  | [] => last
  | size :: _ => created size
  end.

(** The sizes the encoder can handle whatever zlib does: positive, and with
    zlib's bound on the compressed scanlines below [2^32]. *)
Definition fits (size : Z) : Prop :=
  0 < size /\ PngSpec.compressBound (size * (1 + size * 4)) < 2 ^ 32.

(** An environment in which nothing fails, and one in which a single path
    cannot be opened. *)
Definition calm : environment :=
  Environment (fun _ _ => true) (fun _ _ _ => None) (fun _ _ => None).

Definition locked (path : string) : environment :=
  Environment (fun _ p => negb (String.eqb p path))
              (fun _ _ _ => None) (fun _ _ => None).

End Script.

(** * Theorems *)

(** ** Rounding: the facts the program relies on *)

Module Rounding.

Lemma inject_Z_sub (a b : Z) :
  inject_Z (a - b) = (inject_Z a - inject_Z b)%Q.
Proof. unfold Z.sub. now rewrite inject_Z_plus, inject_Z_opp. Qed.

Lemma rne_spec (x : Q) :
  (inject_Z (rne x) - (1 # 2) <= x <= inject_Z (rne x) + (1 # 2))%Q
  /\ ((x == inject_Z (rne x) + (1 # 2))%Q -> Z.even (rne x) = true)
  /\ ((x == inject_Z (rne x) - (1 # 2))%Q -> Z.even (rne x) = true).
Proof.
  unfold rne.
  pose proof (Qfloor_le x) as Hlo.
  pose proof (Qlt_floor x) as Hhi.
  rewrite inject_Z_plus in Hhi.
  change (inject_Z 1) with 1%Q in Hhi.
  set (k := Qfloor x) in *. clearbody k.
  destruct (Qcompare_spec (x - inject_Z k) (1 # 2)) as [He | Hl | Hg].
  - destruct (Z.even k) eqn:Hk.
    + repeat split; intros; try lra; auto.
    + rewrite inject_Z_plus. change (inject_Z 1) with 1%Q.
      repeat split; intros; try lra.
      rewrite Z.even_add, Hk. reflexivity.
  - repeat split; intros; lra.
  - rewrite inject_Z_plus. change (inject_Z 1) with 1%Q.
    repeat split; intros; lra.
Qed.

Lemma rne_mono (x y : Q) : (x <= y)%Q -> rne x <= rne y.
Proof.
  intros Hxy.
  destruct (rne_spec x) as [[Hx1 Hx2] [_ Hxe]].
  destruct (rne_spec y) as [[Hy1 Hy2] [Hye _]].
  destruct (Z_le_gt_dec (rne x) (rne y)) as [|Hgt]; [assumption|exfalso].
  assert (Hstep : rne y + 1 <= rne x) by lia.
  rewrite Zle_Qle, inject_Z_plus in Hstep.
  change (inject_Z 1) with 1%Q in Hstep.
  assert (E1 : (x == inject_Z (rne x) - (1 # 2))%Q) by lra.
  assert (E2 : (y == inject_Z (rne y) + (1 # 2))%Q) by lra.
  assert (E3 : (inject_Z (rne x) == inject_Z (rne y + 1))%Q).
  { rewrite inject_Z_plus. change (inject_Z 1) with 1%Q. lra. }
  apply (proj1 (inject_Z_injective _ _)) in E3.
  specialize (Hxe E1). specialize (Hye E2).
  rewrite E3, Z.even_add, Hye in Hxe. discriminate.
Qed.

Lemma rne_Z (n : Z) : rne (inject_Z n) = n.
Proof.
  destruct (rne_spec (inject_Z n)) as [[H1 H2] _].
  assert (A : (inject_Z (rne (inject_Z n) - 1) < inject_Z n)%Q).
  { rewrite inject_Z_sub. change (inject_Z 1) with 1%Q. lra. }
  assert (C : (inject_Z n < inject_Z (rne (inject_Z n) + 1))%Q).
  { rewrite inject_Z_plus. change (inject_Z 1) with 1%Q. lra. }
  rewrite <- Zlt_Qlt in A, C. lia.
Qed.

#[global] Instance rne_comp : Proper (Qeq ==> eq) rne.
Proof.
  intros x y E. unfold rne.
  rewrite (Qfloor_comp _ _ E).
  assert (E' : (x - inject_Z (Qfloor y) == y - inject_Z (Qfloor y))%Q)
    by (rewrite E; reflexivity).
  rewrite (Qcompare_comp _ _ E' _ _ (Qeq_refl _)).
  reflexivity.
Qed.

Lemma rne_le_Z (x : Q) (n : Z) : (x <= inject_Z n)%Q -> rne x <= n.
Proof. intros H. rewrite <- (rne_Z n). apply rne_mono, H. Qed.

Lemma rne_ge_Z (x : Q) (n : Z) : (inject_Z n <= x)%Q -> n <= rne x.
Proof. intros H. rewrite <- (rne_Z n) at 1. apply rne_mono, H. Qed.

Lemma pow2_pos (e : Z) : 0 <= e -> 0 < 2 ^ e.
Proof. intros. apply Z.pow_pos_nonneg; lia. Qed.

Lemma pow2_posQ (e : Z) : 0 <= e -> (0 < inject_Z (2 ^ e))%Q.
Proof.
  intros. change 0%Q with (inject_Z 0). rewrite <- Zlt_Qlt.
  now apply pow2_pos.
Qed.

Lemma ulp_exp_nonneg (x : Q) : 0 <= ulp_exp x.
Proof. unfold ulp_exp. lia. Qed.

Lemma ulp_exp_mono (x y : Q) : (x <= y)%Q -> ulp_exp x <= ulp_exp y.
Proof.
  intros H. unfold ulp_exp.
  pose proof (Z.log2_le_mono _ _ (Qfloor_resp_le _ _ H)). lia.
Qed.

#[global] Instance ulp_exp_comp : Proper (Qeq ==> eq) ulp_exp.
Proof. intros x y E. unfold ulp_exp. now rewrite (Qfloor_comp _ _ E). Qed.

#[global] Instance rnd_pos_comp : Proper (Qeq ==> eq) rnd_pos.
Proof.
  intros x y E. unfold rnd_pos.
  rewrite (ulp_exp_comp E).
  assert (E' : (x / inject_Z (2 ^ ulp_exp y) == y / inject_Z (2 ^ ulp_exp y))%Q)
    by (rewrite E; reflexivity).
  now rewrite (rne_comp E').
Qed.

#[global] Instance rnd_comp : Proper (Qeq ==> eq) rnd.
Proof.
  intros x y E. unfold rnd.
  rewrite (Qleb_comp _ _ (Qeq_refl 0%Q) _ _ E).
  assert (E' : (- x == - y)%Q) by (rewrite E; reflexivity).
  now rewrite (rnd_pos_comp E), (rnd_pos_comp E').
Qed.

Lemma rnd_pos_nonneg (x : Q) : (0 <= x)%Q -> 0 <= rnd_pos x.
Proof.
  intros H. unfold rnd_pos.
  pose proof (pow2_pos (ulp_exp_nonneg x)) as Hp.
  apply Z.mul_nonneg_nonneg; [|lia].
  apply rne_ge_Z. change (inject_Z 0) with 0%Q.
  apply Qle_shift_div_l; [now apply pow2_posQ, ulp_exp_nonneg | lra].
Qed.

Lemma div_pow2_le (x y : Q) (e : Z) :
  0 <= e -> (x <= y)%Q -> (x / inject_Z (2 ^ e) <= y / inject_Z (2 ^ e))%Q.
Proof.
  intros He H. unfold Qdiv. apply Qmult_le_compat_r; [assumption|].
  apply Qinv_le_0_compat, Qlt_le_weak, pow2_posQ, He.
Qed.

(** Below [2^(52+e)] the rounding at an exponent [ex < e] stays below it ... *)
Lemma rnd_pos_below (x : Q) (e : Z) :
  ulp_exp x < e -> rne (x / inject_Z (2 ^ ulp_exp x)) * 2 ^ ulp_exp x <= 2 ^ (52 + e).
Proof.
  intros Hlt.
  pose proof (ulp_exp_nonneg x) as Hex.
  set (ex := ulp_exp x) in *.
  assert (Hfl : Qfloor x + 1 <= 2 ^ (52 + e)).
  { destruct (Z_le_gt_dec (Qfloor x) 0) as [Hn|Hp].
    - pose proof (pow2_pos (e := 52 + e)). lia.
    - assert (Hlog : Z.log2 (Qfloor x) < 52 + e) by (unfold ex, ulp_exp in Hlt; lia).
      apply Z.log2_lt_pow2 in Hlog; lia. }
  assert (Hsplit : 2 ^ (52 + e) = 2 ^ (52 + e - ex) * 2 ^ ex).
  { rewrite <- Z.pow_add_r by lia. f_equal. lia. }
  rewrite Hsplit.
  apply Z.mul_le_mono_nonneg_r; [pose proof (pow2_pos Hex); lia|].
  apply rne_le_Z, Qle_shift_div_r; [now apply pow2_posQ|].
  rewrite <- inject_Z_mult, <- Hsplit.
  apply Qle_trans with (inject_Z (Qfloor x + 1)).
  - apply Qlt_le_weak, Qlt_floor.
  - now rewrite <- Zle_Qle.
Qed.

(** ... and from exponent [e > 0] on the rounding is at least [2^(52+e)]. *)
Lemma rnd_pos_above (y : Q) :
  0 < ulp_exp y ->
  2 ^ (52 + ulp_exp y) <= rne (y / inject_Z (2 ^ ulp_exp y)) * 2 ^ ulp_exp y.
Proof.
  intros Hpos.
  set (ey := ulp_exp y) in *.
  assert (Hlog : Z.log2 (Qfloor y) = 52 + ey) by (unfold ey, ulp_exp in *; lia).
  assert (Hfy : 0 < Qfloor y).
  { destruct (Z_le_gt_dec (Qfloor y) 0) as [Hn|]; [|lia].
    rewrite (Z.log2_nonpos _ Hn) in Hlog. lia. }
  pose proof (Z.log2_spec _ Hfy) as [Hlo _]. rewrite Hlog in Hlo.
  rewrite Z.pow_add_r by lia.
  apply Z.mul_le_mono_nonneg_r; [pose proof (pow2_pos (e := ey)); lia|].
  apply rne_ge_Z, Qle_shift_div_l; [apply pow2_posQ; lia|].
  rewrite <- inject_Z_mult, <- Z.pow_add_r by lia.
  apply Qle_trans with (inject_Z (Qfloor y)).
  - now rewrite <- Zle_Qle.
  - apply Qfloor_le.
Qed.

Lemma rnd_pos_mono (x y : Q) : (x <= y)%Q -> rnd_pos x <= rnd_pos y.
Proof.
  intros Hxy. unfold rnd_pos.
  pose proof (ulp_exp_mono Hxy) as He.
  pose proof (ulp_exp_nonneg x) as Hex.
  destruct (Z.eq_dec (ulp_exp x) (ulp_exp y)) as [E|NE].
  - rewrite E.
    apply Z.mul_le_mono_nonneg_r;
      [pose proof (pow2_pos (ulp_exp_nonneg y)); lia|].
    apply rne_mono, div_pow2_le; [apply ulp_exp_nonneg | assumption].
  - assert (Hlt : ulp_exp x < ulp_exp y) by lia.
    pose proof (rnd_pos_below x Hlt).
    pose proof (@rnd_pos_above y ltac:(lia)).
    lia.
Qed.

Lemma rnd_pos_0 : rnd_pos 0 = 0.
Proof. reflexivity. Qed.

Lemma rnd_pos_nonpos (x : Q) : (x <= 0)%Q -> rnd_pos x <= 0.
Proof. intros H. rewrite <- rnd_pos_0. now apply rnd_pos_mono. Qed.

(** Rounding to nearest is monotone. *)
Lemma rnd_mono (x y : Q) : (x <= y)%Q -> rnd x <= rnd y.
Proof.
  intros Hxy. unfold rnd.
  destruct (Qle_bool 0 x) eqn:Hx; destruct (Qle_bool 0 y) eqn:Hy.
  - now apply rnd_pos_mono.
  - apply Qle_bool_iff in Hx.
    assert (Hy' : ~ (0 <= y)%Q) by (rewrite <- Qle_bool_iff, Hy; discriminate).
    exfalso. apply Hy'. lra.
  - assert (Hx' : ~ (0 <= x)%Q) by (rewrite <- Qle_bool_iff, Hx; discriminate).
    apply Qle_bool_iff in Hy.
    pose proof (@rnd_pos_nonneg (- x)%Q ltac:(lra)).
    pose proof (@rnd_pos_nonneg y Hy). lia.
  - pose proof (@rnd_pos_mono (- y)%Q (- x)%Q ltac:(lra)). lia.
Qed.

(** Rounding to nearest is odd. *)
Lemma rnd_opp (x : Q) : rnd (- x) = - rnd x.
Proof.
  unfold rnd.
  destruct (Qle_bool 0 x) eqn:Hx; destruct (Qle_bool 0 (- x)) eqn:Hnx.
  - apply Qle_bool_iff in Hx, Hnx.
    assert (E : (x == 0)%Q) by lra.
    assert (E' : (- x == 0)%Q) by lra.
    now rewrite (rnd_pos_comp E), (rnd_pos_comp E').
  - now rewrite (rnd_pos_comp (Qopp_involutive x)).
  - lia.
  - assert (~ (0 <= x)%Q) by (rewrite <- Qle_bool_iff, Hx; discriminate).
    assert (~ (0 <= - x)%Q) by (rewrite <- Qle_bool_iff, Hnx; discriminate).
    exfalso. lra.
Qed.

(** Integers of at most 53 significant bits are representable. *)
Lemma rnd_pos_exact (m e : Z) :
  0 <= m < 2 ^ 53 -> 0 <= e -> rnd_pos (inject_Z (m * 2 ^ e)) = m * 2 ^ e.
Proof.
  intros Hm He.
  destruct (Z.eq_dec m 0) as [->|Hm0]; [reflexivity|].
  unfold rnd_pos, ulp_exp. rewrite Qfloor_Z.
  rewrite Z.log2_mul_pow2 by lia.
  assert (Hlog : Z.log2 m < 53) by (apply Z.log2_lt_pow2; lia).
  pose proof (Z.log2_nonneg m).
  set (e' := Z.max (e + Z.log2 m - 52) 0).
  assert (He' : 0 <= e' <= e) by (unfold e'; lia).
  assert (Hsplit : m * 2 ^ e = m * 2 ^ (e - e') * 2 ^ e').
  { rewrite <- Z.mul_assoc, <- Z.pow_add_r by lia. do 2 f_equal. lia. }
  rewrite Hsplit at 1.
  rewrite inject_Z_mult.
  assert (Hq : (inject_Z (m * 2 ^ (e - e')) * inject_Z (2 ^ e') / inject_Z (2 ^ e')
                == inject_Z (m * 2 ^ (e - e')))%Q).
  { apply Qdiv_mult_l. pose proof (@pow2_posQ e' ltac:(lia)). lra. }
  rewrite (rne_comp Hq), rne_Z. lia.
Qed.

Lemma rnd_exact (m e : Z) :
  Z.abs m < 2 ^ 53 -> 0 <= e -> rnd (inject_Z (m * 2 ^ e)) = m * 2 ^ e.
Proof.
  intros Hm He.
  destruct (Z_le_gt_dec 0 m) as [Hp|Hn].
  - unfold rnd.
    assert (Hle : Qle_bool 0 (inject_Z (m * 2 ^ e)) = true).
    { apply Qle_bool_iff. change 0%Q with (inject_Z 0). rewrite <- Zle_Qle.
      pose proof (pow2_pos He). nia. }
    rewrite Hle. apply rnd_pos_exact; lia.
  - replace (m * 2 ^ e) with (- (- m * 2 ^ e)) by lia.
    rewrite inject_Z_opp, rnd_opp. f_equal.
    unfold rnd.
    assert (Hle : Qle_bool 0 (inject_Z (- m * 2 ^ e)) = true).
    { apply Qle_bool_iff. change 0%Q with (inject_Z 0). rewrite <- Zle_Qle.
      pose proof (pow2_pos He). nia. }
    rewrite Hle. apply rnd_pos_exact; lia.
Qed.

End Rounding.

(** From here on [rnd] is only computed, never unfolded by conversion. *)
Opaque rnd.

(** ** Python's float operations: when they succeed and what they return *)

Module FloatFacts.
Import Rounding Constants.

Lemma one_units_pos : 0 < one_units.
Proof. unfold one_units. apply pow2_pos. lia. Qed.

Lemma Qdiv_le_pos (x y d : Q) : (0 < d)%Q -> (x <= y)%Q -> (x / d <= y / d)%Q.
Proof.
  intros Hd H. unfold Qdiv. apply Qmult_le_compat_r; [assumption|].
  apply Qinv_le_0_compat. lra.
Qed.

Lemma inject_Z_pos (v : Z) : 0 < v -> (0 < inject_Z v)%Q.
Proof. intros H. change 0%Q with (inject_Z 0). now rewrite <- Zlt_Qlt. Qed.

Lemma mk_fin (u : Z) : Z.abs u < overflow_units -> mk u = Fin u.
Proof. intros H. unfold mk. now replace (Z.abs u <? overflow_units) with true by lia. Qed.

Lemma mk_opp (u : Z) : mk (- u) = fneg (mk u).
Proof.
  unfold mk. rewrite Z.abs_opp.
  destruct (Z.abs u <? overflow_units) eqn:E; [reflexivity|].
  cbn [fneg]. f_equal.
  assert (0 < overflow_units) by (unfold overflow_units; apply pow2_pos; lia).
  lia.
Qed.

Lemma round_opp (x : Q) : round (- x) = fneg (round x).
Proof. unfold round. now rewrite rnd_opp, mk_opp. Qed.

Lemma round_comp (x y : Q) : (x == y)%Q -> round x = round y.
Proof. intros E. unfold round. now rewrite (rnd_comp E). Qed.

(** A rounding squeezed between two finite doubles is a finite double. *)
Lemma round_between (x lo hi : Q) (L H : Z) :
  (lo <= x <= hi)%Q -> rnd lo = L -> rnd hi = H ->
  - overflow_units < L -> H < overflow_units ->
  exists u, round x = Fin u /\ L <= u <= H.
Proof.
  intros [H1 H2] EL EH HL HH.
  pose proof (rnd_mono H1). pose proof (rnd_mono H2).
  exists (rnd x). split; [|lia].
  unfold round. apply mk_fin. lia.
Qed.



Lemma max_units_lt : max_units < overflow_units.
Proof. vm_compute. reflexivity. Qed.

Lemma overflow_units_pos : 0 < overflow_units.
Proof. unfold overflow_units. apply pow2_pos. lia. Qed.

Lemma rnd_max_int : rnd (inject_Z (max_int * one_units)) = max_units.
Proof. vm_compute. reflexivity. Qed.

Lemma rnd_max_dividend :
  rnd (inject_Z (max_dividend * one_units) / inject_Z 2) = max_units.
Proof. vm_compute. reflexivity. Qed.

Lemma rnd_0 : rnd 0 = 0.
Proof. reflexivity. Qed.

Lemma rnd_half : rnd (inject_Z (1 * one_units) / inject_Z 2) = 2 ^ 1073.
Proof. vm_compute. reflexivity. Qed.

Lemma of_int_ok (n : Z) :
  0 <= n <= max_int -> exists u, of_int n = inr (Fin u) /\ 0 <= u <= max_units.
Proof.
  intros Hn. unfold of_int.
  pose proof one_units_pos. pose proof max_units_lt. pose proof overflow_units_pos.
  destruct (@round_between (inject_Z (n * one_units)) 0
              (inject_Z (max_int * one_units)) 0 max_units) as [u [-> Hu]];
    try lia; [| exact rnd_0 | exact rnd_max_int | eauto].
  change 0%Q with (inject_Z 0). rewrite <- !Zle_Qle. nia.
Qed.

Lemma int_truediv_2_ok (n : Z) :
  0 < n <= max_dividend ->
  exists u, int_truediv n 2 = inr (Fin u) /\ 2 ^ 1073 <= u <= max_units.
Proof.
  intros Hn. unfold int_truediv. cbn [Z.eqb].
  pose proof one_units_pos. pose proof max_units_lt. pose proof overflow_units_pos.
  assert (0 < 2 ^ 1073) by (apply pow2_pos; lia).
  destruct (@round_between (inject_Z (n * one_units) / inject_Z 2)
              (inject_Z (1 * one_units) / inject_Z 2)
              (inject_Z (max_dividend * one_units) / inject_Z 2)
              (2 ^ 1073) max_units) as [u [-> Hu]];
    try lia; [| exact rnd_half | exact rnd_max_dividend | eauto].
  split; (apply Qdiv_le_pos; [reflexivity | rewrite <- Zle_Qle; nia]).
Qed.

Lemma fdiv_ok (a : float) (v : Z) : v <> 0 -> exists r, fdiv a (Fin v) = inr r.
Proof.
  intros Hv. destruct a; destruct v; try contradiction; cbn [fdiv]; eauto.
Qed.

Lemma fdiv_inf_ok (a : float) (s : bool) : exists r, fdiv a (Inf s) = inr r.
Proof. destruct a; cbn [fdiv]; eauto. Qed.

(** Finite by positive finite is never a NaN. *)
Lemma fdiv_fin (u v : Z) :
  v <> 0 ->
  fdiv (Fin u) (Fin v) = inr (round (inject_Z (u * one_units) / inject_Z v)).
Proof. intros Hv. destruct v; try contradiction; reflexivity. Qed.

Lemma round_not_nan (x : Q) : round x <> NaN.
Proof. unfold round, mk. destruct (_ <? _); discriminate. Qed.

End FloatFacts.

(** ** The float model agrees with the bit-level operations *)

Module CrosscheckFacts.
Import SpecFloat Crosscheck.

(** The literals are the doubles Python shows with [float.hex]:
    0.85 is [0x1.b333333333333p-1], 0.6 is [0x1.3333333333333p-1],
    0.4 is [0x1.999999999999ap-2], 0.05 is [0x1.999999999999ap-5] and
    0.95 is [0x1.e666666666666p-1]. *)
Example literals_are_doubles :
  map to_spec [lit 85 100; lit 75 100; lit 6 10; lit 4 10; lit 5 100; lit 95 100]
  = [S754_finite false 0x1b333333333333 (-53);
     S754_finite false 0x18000000000000 (-53);
     S754_finite false 0x13333333333333 (-53);
     S754_finite false 0x1999999999999a (-54);
     S754_finite false 0x1999999999999a (-57);
     S754_finite false 0x1e666666666666 (-53)].
Proof. vm_compute. reflexivity. Qed.

(** On every sample pair, sum, difference, product, quotient, comparisons,
    absolute value and negation are those of the standard library's
    binary64. *)
Example operations_agree :
  forallb (fun ab => agree (fst ab) (snd ab)) samples = true.
Proof. vm_cast_no_check (eq_refl true). Qed.

End CrosscheckFacts.

(** ** Loops *)

Section Loops.
Context {A B : Type}.

Lemma bind_assoc {X Y W : Type} (m : result X) (f : X -> result Y)
      (g : Y -> result W) :
  (y <- (x <- m ;; f x) ;; g y) = (x <- m ;; y <- f x ;; g y).
Proof. destruct m; reflexivity. Qed.

Lemma for_loop_ext {S : Type} (l : list A) (f g : A -> S -> result S) (s : S) :
  (forall a s', f a s' = g a s') -> for_loop l f s = for_loop l g s.
Proof.
  intros E. revert s. induction l as [|a l IH]; intros s; cbn; [reflexivity|].
  rewrite E. destruct (g a s); cbn; auto.
Qed.

(** A loop that extends an accumulator computes the concatenation of what
    each iteration contributes. *)
Lemma for_loop_extend (f : A -> result (list B)) (l : list A) (acc : list B) :
  for_loop l (fun a s => b <- f a ;; ok (s ++ b)) acc
  = (bs <- mapM f l ;; ok (acc ++ concat bs)).
Proof.
  revert acc. induction l as [|a l IH]; intros acc; cbn.
  - now rewrite app_nil_r.
  - destruct (f a) as [e|b]; cbn; [reflexivity|].
    rewrite IH. destruct (mapM f l) as [e|bs]; cbn; [reflexivity|].
    now rewrite app_assoc.
Qed.

Lemma for_loop_append (f : A -> result B) (l : list A) (acc : list B) :
  for_loop l (fun a s => b <- f a ;; ok (s ++ [b])) acc
  = (bs <- mapM f l ;; ok (acc ++ bs)).
Proof.
  revert acc. induction l as [|a l IH]; intros acc; cbn.
  - now rewrite app_nil_r.
  - destruct (f a) as [e|b]; cbn; [reflexivity|].
    rewrite IH. destruct (mapM f l) as [e|bs]; cbn; [reflexivity|].
    now rewrite <- app_assoc.
Qed.

Lemma mapM_length (f : A -> result B) (l : list A) (l' : list B) :
  mapM f l = inr l' -> length l' = length l.
Proof.
  revert l'. induction l as [|a l IH]; intros l'; cbn.
  - intros [= <-]. reflexivity.
  - destruct (f a) as [e|b]; cbn; [discriminate|].
    destruct (mapM f l) as [e|bs]; cbn; [discriminate|].
    intros [= <-]. cbn. f_equal. exact (IH bs eq_refl).
Qed.

Lemma mapM_nth (f : A -> result B) (l : list A) (l' : list B) (i : nat) (a : A) :
  mapM f l = inr l' -> nth_error l i = Some a ->
  exists b, f a = inr b /\ nth_error l' i = Some b.
Proof.
  revert l' i. induction l as [|a0 l IH]; intros l' i; cbn.
  - destruct i; discriminate.
  - destruct (f a0) as [e|b0] eqn:E0; cbn; [discriminate|].
    destruct (mapM f l) as [e|bs]; cbn; [discriminate|].
    intros [= <-]. destruct i as [|i]; cbn.
    + intros [= <-]. eauto.
    + intros Hi. exact (IH bs i eq_refl Hi).
Qed.

Lemma mapM_nth_inv (f : A -> result B) (l : list A) (l' : list B) (i : nat) (b : B) :
  mapM f l = inr l' -> nth_error l' i = Some b ->
  exists a, nth_error l i = Some a /\ f a = inr b.
Proof.
  revert l' i. induction l as [|a0 l IH]; intros l' i; cbn.
  - intros [= <-]. destruct i; discriminate.
  - destruct (f a0) as [e|b0] eqn:E0; cbn; [discriminate|].
    destruct (mapM f l) as [e|bs]; cbn; [discriminate|].
    intros [= <-]. destruct i as [|i]; cbn.
    + intros [= <-]. eauto.
    + intros Hi. exact (IH bs i eq_refl Hi).
Qed.

Lemma mapM_total (f : A -> result B) (l : list A) :
  (forall a, In a l -> exists b, f a = inr b) -> exists l', mapM f l = inr l'.
Proof.
  induction l as [|a l IH]; intros H; cbn.
  - eauto.
  - destruct (H a (or_introl eq_refl)) as [b ->]. cbn.
    destruct IH as [bs ->]; [intros; apply H; now right|]. cbn. eauto.
Qed.

Lemma mapM_app (f : A -> result B) (l1 l2 : list A) :
  mapM f (l1 ++ l2)
  = (b1 <- mapM f l1 ;; b2 <- mapM f l2 ;; ok (b1 ++ b2)).
Proof.
  induction l1 as [|a l1 IH]; cbn.
  - destruct (mapM f l2); reflexivity.
  - destruct (f a) as [e|b]; cbn; [reflexivity|].
    rewrite IH. destruct (mapM f l1) as [e|b1]; cbn; [reflexivity|].
    destruct (mapM f l2); reflexivity.
Qed.

End Loops.

Lemma range_length (n : Z) : length (range n) = Z.to_nat n.
Proof. unfold range. now rewrite length_map, length_seq. Qed.

Lemma range_nth (n : Z) (i : nat) :
  (i < Z.to_nat n)%nat -> nth_error (range n) i = Some (Z.of_nat i).
Proof.
  intros Hi. unfold range.
  rewrite nth_error_map, nth_error_seq.
  apply Nat.ltb_lt in Hi. now rewrite Hi.
Qed.

Lemma range_In (n y : Z) : In y (range n) <-> 0 <= y < n.
Proof.
  unfold range. rewrite in_map_iff. split.
  - intros [i [<- Hi]]. apply in_seq in Hi. lia.
  - intros H. exists (Z.to_nat y). split; [lia|]. apply in_seq. lia.
Qed.

Lemma range_nonpos (n : Z) : n <= 0 -> range n = [].
Proof. intros H. unfold range. now replace (Z.to_nat n) with 0%nat by lia. Qed.

(** ** Structure of the rasterizer's result *)

Module IconFacts.
Import Icon Constants.



Lemma rasterize_rows (size : Z) :
  rasterize size
  = (cx <- int_truediv size 2 ;;
     cy <- int_truediv size 2 ;;
     mapM (scanline size cx cy) (range size)).
Proof.
  unfold rasterize.
  destruct (int_truediv size 2) as [e|cx]; mstep; [reflexivity|].
  erewrite for_loop_ext.
  - rewrite (for_loop_append (scanline size cx cx)). mstep.
    now destruct (mapM _ _).
  - intros y pixels. unfold scanline.
    rewrite for_loop_extend, bind_assoc. mstep.
    destruct (mapM _ (range size)) as [e|pxs]; mstep; reflexivity.
Qed.



Lemma pixel_color (w h : Z) (cx cy : float) (x y : Z) (px : list Z) :
  pixel w h cx cy x y = inr px -> is_color px.
Proof.
  unfold pixel, is_color.
  destruct (normalized x cx w) as [e|nx]; mstep; [discriminate|].
  destruct (normalized y cy h) as [e|ny]; mstep; [discriminate|].
  destruct (flt ny shield_top || fgt ny shield_bottom); [intros [= <-]; auto|].
  destruct (progress_of ny) as [e|progress]; mstep; [discriminate|].
  destruct (max_x_of progress) as [e|max_x]; mstep; [discriminate|].
  destruct (fgt (fabs nx) max_x); [intros [= <-]; auto|].
  destruct (border_ratio_of nx max_x) as [e|ratio]; mstep; [discriminate|].
  destruct (is_border_of ratio progress); intros [= <-]; auto.
Qed.

Lemma byte_of_int_channel (v : Z) (b : byte) :
  byte_of_int v = inr b -> channel b = v.
Proof.
  unfold byte_of_int, channel.
  destruct (0 <=? v) eqn:Hv; [|discriminate].
  destruct (Byte.of_N (Z.to_N v)) as [b'|] eqn:Hb; [|discriminate].
  intros [= <-]. apply Byte.to_of_N in Hb. rewrite Hb. lia.
Qed.

Lemma byte_of_int_range (v : Z) :
  0 <= v < 256 -> exists b, byte_of_int v = inr b.
Proof.
  intros Hv. unfold byte_of_int.
  replace (0 <=? v) with true by lia.
  destruct (Byte.of_N (Z.to_N v)) as [b|] eqn:Hb; [eauto|].
  apply Byte.of_N_None_iff in Hb. lia.
Qed.

Lemma channel_range (b : byte) : 0 <= channel b <= 255.
Proof.
  unfold channel. pose proof (Byte.to_N_bounded b). lia.
Qed.

Lemma bytes_color (px : list Z) :
  is_color px -> exists bs, bytes px = inr bs /\ length bs = 4%nat.
Proof.
  intros [-> | [-> | ->]]; vm_compute; eexists; split; reflexivity.
Qed.

Lemma bytes_four (r g b a : Z) (bs : list byte) :
  bytes [r; g; b; a] = inr bs ->
  exists br bg bb ba,
    bs = [br; bg; bb; ba]
    /\ channel br = r /\ channel bg = g /\ channel bb = b /\ channel ba = a.
Proof.
  unfold bytes. cbn [mapM].
  destruct (byte_of_int r) as [e|br] eqn:Er; mstep; [discriminate|].
  destruct (byte_of_int g) as [e|bg] eqn:Eg; mstep; [discriminate|].
  destruct (byte_of_int b) as [e|bb] eqn:Eb; mstep; [discriminate|].
  destruct (byte_of_int a) as [e|ba] eqn:Ea; mstep; [discriminate|].
  intros [= <-]. exists br, bg, bb, ba.
  repeat split; now apply byte_of_int_channel.
Qed.

(** In the bytes of a row, the pixel of column [i] starts at offset [4 i]. *)
Lemma bytes_concat_nth (pxs : list (list Z)) (bs : list byte) (i : nat)
      (px : list Z) :
  Forall is_color pxs ->
  bytes (concat pxs) = inr bs ->
  nth_error pxs i = Some px ->
  exists bp rest, bytes px = inr bp /\ skipn (4 * i) bs = bp ++ rest.
Proof.
  revert bs i. induction pxs as [|p pxs IH]; intros bs i Hall Hb Hi.
  - destruct i; discriminate.
  - inversion Hall as [|? ? Hp Hrest]; subst.
    cbn [concat] in Hb. unfold bytes in Hb. rewrite mapM_app in Hb.
    destruct (bytes_color Hp) as [bp [Ep Lp]]. unfold bytes in Ep.
    rewrite Ep in Hb. mstep in Hb.
    destruct (mapM byte_of_int (concat pxs)) as [e|bq] eqn:Eq; mstep in Hb;
      [discriminate|].
    injection Hb as <-.
    destruct i as [|i].
    + injection Hi as <-. exists bp, bq. split; [exact Ep|reflexivity].
    + cbn [nth_error] in Hi.
      destruct (IH bq i Hrest Eq Hi) as [bp' [rest [E1 E2]]].
      exists bp', rest. split; [exact E1|].
      replace (4 * S i)%nat with (length bp + 4 * i)%nat by lia.
      now rewrite skipn_app, skipn_all2, Nat.add_comm, Nat.add_sub by lia.
Qed.

Lemma bytes_concat_length (pxs : list (list Z)) (bs : list byte) :
  Forall is_color pxs ->
  bytes (concat pxs) = inr bs -> length bs = (4 * length pxs)%nat.
Proof.
  intros Hall Hb. unfold bytes in Hb. apply mapM_length in Hb. rewrite Hb.
  clear Hb. induction Hall as [|p pxs Hp _ IH]; [reflexivity|].
  cbn [concat length]. rewrite length_app, IH.
  destruct Hp as [-> | [-> | ->]]; cbn; lia.
Qed.

Lemma bytes_concat_total (pxs : list (list Z)) :
  Forall is_color pxs -> exists bs, bytes (concat pxs) = inr bs.
Proof.
  intros Hall. apply mapM_total. intros v Hv.
  apply in_concat in Hv as [p [Hp Hv]].
  rewrite Forall_forall in Hall. specialize (Hall p Hp).
  apply byte_of_int_range.
  destruct Hall as [-> | [-> | ->]]; cbn in Hv;
    repeat (destruct Hv as [<- | Hv]; [lia|]); contradiction.
Qed.

Lemma scanline_pixels (size : Z) (cx cy : float) (y : Z) (row : list byte) :
  scanline size cx cy y = inr row ->
  exists pxs,
    mapM (fun x => pixel size size cx cy x y) (range size) = inr pxs
    /\ Forall is_color pxs /\ bytes (concat pxs) = inr row.
Proof.
  unfold scanline.
  destruct (mapM _ (range size)) as [e|pxs] eqn:E; mstep; [discriminate|].
  intros Hb. exists pxs. repeat split; [|exact Hb].
  apply Forall_forall. intros px Hin.
  apply In_nth_error in Hin as [i Hi].
  destruct (mapM_nth_inv _ _ _ E Hi) as [x [_ Hx]].
  eapply pixel_color, Hx.
Qed.

Lemma rasterize_inv (size : Z) (img : list (list byte)) :
  rasterize size = inr img ->
  exists cx,
    int_truediv size 2 = inr cx
    /\ mapM (scanline size cx cx) (range size) = inr img.
Proof.
  rewrite rasterize_rows.
  destruct (int_truediv size 2) as [e|cx]; mstep; [discriminate|].
  intros H. now exists cx.
Qed.

Lemma is_color_four (px : list Z) :
  is_color px -> exists r g b a, px = [r; g; b; a].
Proof. intros [-> | [-> | ->]]; repeat eexists. Qed.

(** Reading a pixel of the image gives what the loop body computed there. *)
Lemma rasterize_pixel (size : Z) (img : list (list byte)) (x y : Z) :
  rasterize size = inr img -> 0 <= x < size -> 0 <= y < size ->
  exists cx r g b a,
    int_truediv size 2 = inr cx
    /\ pixel size size cx cx x y = inr [r; g; b; a]
    /\ pixel_at img x y = Some (r, g, b, a).
Proof.
  intros Hr Hx Hy.
  destruct (rasterize_inv _ Hr) as [cx [Hcx Hrows]].
  assert (Hny : nth_error (range size) (Z.to_nat y) = Some y).
  { rewrite range_nth by lia. f_equal. lia. }
  destruct (mapM_nth _ _ _ Hrows Hny) as [row [Hrow Himg]].
  destruct (scanline_pixels _ _ _ _ Hrow) as [pxs [Hpxs [Hall Hb]]].
  assert (Hnx : nth_error (range size) (Z.to_nat x) = Some x).
  { rewrite range_nth by lia. f_equal. lia. }
  destruct (mapM_nth _ _ _ Hpxs Hnx) as [px [Hpx Hpxn]].
  destruct (is_color_four (pixel_color _ _ _ _ _ _ Hpx)) as [r [g [b [a ->]]]].
  destruct (bytes_concat_nth _ Hall Hb Hpxn) as [bp [rest [Hbp Hskip]]].
  apply bytes_four in Hbp as [br [bg [bb [ba [-> [<- [<- [<- <-]]]]]]]].
  exists cx, (channel br), (channel bg), (channel bb), (channel ba).
  repeat split; [exact Hcx | exact Hpx |].
  unfold pixel_at.
  replace (0 <=? x) with true by lia. replace (0 <=? y) with true by lia.
  cbn [andb]. rewrite Himg, Hskip. reflexivity.
Qed.

(** The image has [size] rows of [4 * size] bytes. *)
Lemma rasterize_shape (size : Z) (img : list (list byte)) :
  rasterize size = inr img ->
  length img = Z.to_nat size
  /\ Forall (fun row => length row = (4 * Z.to_nat size)%nat) img.
Proof.
  intros Hr.
  destruct (rasterize_inv _ Hr) as [cx [Hcx Hrows]].
  split.
  - rewrite (mapM_length _ _ Hrows). apply range_length.
  - apply Forall_forall. intros row Hin.
    apply In_nth_error in Hin as [i Hi].
    destruct (mapM_nth_inv _ _ _ Hrows Hi) as [y [_ Hy]].
    destruct (scanline_pixels _ _ _ _ Hy) as [pxs [Hpxs [Hall Hb]]].
    rewrite (bytes_concat_length Hall Hb), (mapM_length _ _ Hpxs).
    now rewrite range_length.
Qed.

End IconFacts.

(** ** The constants of the shield and totality of the loop body *)

Module IconTotal.
Import Icon IconFacts FloatFacts Rounding Constants.



Lemma lit_085 : lit 85 100 = Fin c085.
Proof. vm_compute. reflexivity. Qed.
Lemma lit_075 : lit 75 100 = Fin c075.
Proof. vm_compute. reflexivity. Qed.
Lemma lit_06 : lit 6 10 = Fin c06.
Proof. vm_compute. reflexivity. Qed.
Lemma lit_04 : lit 4 10 = Fin c04.
Proof. vm_compute. reflexivity. Qed.

Lemma shield_top_val : shield_top = Fin (- c085).
Proof. unfold shield_top. now rewrite lit_085. Qed.
Lemma shield_bottom_val : shield_bottom = Fin c085.
Proof. exact lit_085. Qed.
Lemma shield_width_top_val : shield_width_top = Fin c075.
Proof. exact lit_075. Qed.

(** [shield_bottom - shield_top] is the double 1.7, twice the double 0.85. *)
Lemma shield_span_val : fsub shield_bottom shield_top = Fin (2 * c085).
Proof. vm_compute. reflexivity. Qed.

Lemma c085_pos : 0 < c085.
Proof. vm_compute. reflexivity. Qed.
Lemma c04_pos : 0 < c04.
Proof. vm_compute. reflexivity. Qed.

Lemma of_int_1 : of_int 1 = inr (Fin one_units).
Proof. vm_compute. reflexivity. Qed.

Lemma progress_of_ok (ny : float) : exists p, progress_of ny = inr p.
Proof.
  unfold progress_of. rewrite shield_span_val.
  apply fdiv_ok. pose proof c085_pos. lia.
Qed.

Lemma max_x_of_ok (progress : float) : exists m, max_x_of progress = inr m.
Proof.
  unfold max_x_of. destruct (flt progress (lit 6 10)); [eauto|].
  rewrite lit_04.
  destruct (@fdiv_ok (fsub progress (lit 6 10)) c04) as [t ->];
    [pose proof c04_pos; lia|].
  mstep. rewrite of_int_1. mstep. eauto.
Qed.

Lemma border_ratio_of_ok (nx max_x : float) :
  exists r, border_ratio_of nx max_x = inr r.
Proof.
  unfold border_ratio_of, fgt.
  destruct max_x as [u| t |]; cbn [flt].
  - destruct (0 <? u) eqn:E; [|eauto]. apply fdiv_ok. lia.
  - destruct (negb t); [|eauto]. apply fdiv_inf_ok.
  - eauto.
Qed.

(** Once both coordinates are normalized the loop body cannot raise. *)
Lemma pixel_ok (w h : Z) (cx cy : float) (x y : Z) (nx ny : float) :
  normalized x cx w = inr nx -> normalized y cy h = inr ny ->
  exists px, pixel w h cx cy x y = inr px.
Proof.
  intros Hx Hy. unfold pixel. rewrite Hx, Hy. mstep.
  destruct (flt ny shield_top || fgt ny shield_bottom); [eauto|].
  destruct (progress_of_ok ny) as [p ->]. mstep.
  destruct (max_x_of_ok p) as [m ->]. mstep.
  destruct (fgt (fabs nx) m); [eauto|].
  destruct (border_ratio_of_ok nx m) as [r ->]. mstep.
  destruct (is_border_of r p); eauto.
Qed.

Lemma normalized_ok (x w : Z) (cx : float) :
  0 <= x <= max_int -> 0 < w <= max_dividend ->
  exists nx, normalized x cx w = inr nx.
Proof.
  intros Hx Hw. unfold normalized.
  destruct (of_int_ok Hx) as [u [-> _]]. mstep.
  destruct (int_truediv_2_ok Hw) as [v [-> Hv]]. mstep.
  apply fdiv_ok. assert (0 < 2 ^ 1073) by (apply pow2_pos; lia). lia.
Qed.

Lemma max_int_dividend : max_int + 1 <= max_dividend.
Proof. vm_compute. discriminate. Qed.

(** The rasterizer returns for every size a float can hold. *)
Lemma rasterize_ok (size : Z) :
  0 < size <= max_int + 1 -> exists img, rasterize size = inr img.
Proof.
  intros Hs. pose proof max_int_dividend.
  rewrite rasterize_rows.
  destruct (@int_truediv_2_ok size ltac:(lia)) as [c [-> _]]. mstep.
  apply mapM_total. intros y Hy. apply range_In in Hy.
  unfold scanline.
  destruct (@mapM_total _ _ (fun x => pixel size size (Fin c) (Fin c) x y)
              (range size)) as [pxs Hpxs].
  { intros x Hx. apply range_In in Hx.
    destruct (@normalized_ok x size (Fin c) ltac:(lia) ltac:(lia)) as [nx Hnx].
    destruct (@normalized_ok y size (Fin c) ltac:(lia) ltac:(lia)) as [ny Hny].
    eapply pixel_ok; eassumption. }
  rewrite Hpxs. mstep. apply bytes_concat_total.
  apply Forall_forall. intros px Hin.
  apply In_nth_error in Hin as [i Hi].
  destruct (mapM_nth_inv _ _ _ Hpxs Hi) as [x [_ Hx]].
  eapply pixel_color, Hx.
Qed.

End IconTotal.

(** ** Properties of the rasterizer *)

Module RasterizerSpec.
Import Icon IconFacts IconTotal FloatFacts Rounding Constants.

(** C10: every pixel of [rasterize(size)] is transparent (0,0,0,0), opaque
    navy (30,58,95,255) or opaque accent blue (30,136,229,255); so alpha is
    0 or 255 and nothing in between. *)
Theorem pixel_three_values (size : Z) (img : list (list byte)) (x y : Z) :
  0 < size -> rasterize size = inr img ->
  0 <= x < size -> 0 <= y < size ->
  pixel_at img x y = Some (0, 0, 0, 0)
  \/ pixel_at img x y = Some (30, 58, 95, 255)
  \/ pixel_at img x y = Some (30, 136, 229, 255).
Proof.
  intros _ Hr Hx Hy.
  destruct (rasterize_pixel Hr Hx Hy) as [cx [r [g [b [a [_ [Hpx ->]]]]]]].
  destruct (pixel_color _ _ _ _ _ _ Hpx) as [E | [E | E]];
    injection E as -> -> -> ->; auto.
Qed.

Lemma pixel_three_values_witness :
  0 < 2 /\ rasterize 2 = inr img2 /\ 0 <= 1 < 2
  /\ (pixel_at img2 1 1 = Some (0, 0, 0, 0)
      \/ pixel_at img2 1 1 = Some (30, 58, 95, 255)
      \/ pixel_at img2 1 1 = Some (30, 136, 229, 255)).
Proof.
  assert (H : rasterize 2 = inr img2) by (vm_compute; reflexivity).
  split; [lia|]. split; [exact H|]. split; [lia|].
  apply (@pixel_three_values 2 img2 1 1); [lia | exact H | lia | lia].
Defined.

(** C8, as stated, fails: a size whose half is no float makes the
    rasterizer raise instead of returning an image. *)
Lemma rasterize_huge_raises :
  0 < 2 ^ 1025
  /\ rasterize (2 ^ 1025) = inl OverflowError
  /\ ~ (exists img, rasterize (2 ^ 1025) = inr img /\ length img = Z.to_nat (2 ^ 1025)).
Proof.
  assert (H : rasterize (2 ^ 1025) = inl OverflowError) by (vm_compute; reflexivity).
  split; [vm_compute; reflexivity|]. split; [exact H|].
  intros [img [Himg _]]. rewrite H in Himg. discriminate.
Qed.

(** C8 (amended): for every size from 1 to [2^1024 - 2^970], so that every
    coordinate below [size] converts to a float, [rasterize(size)] returns
    an image of [size] rows of [size] pixels (four bytes each), and every
    channel of every pixel is between 0 and 255. *)
Theorem rasterize_dimensions (size : Z) :
  0 < size <= 2 ^ 1024 - 2 ^ 970 ->
  exists img,
    rasterize size = inr img
    /\ length img = Z.to_nat size
    /\ Forall (fun row => length row = (4 * Z.to_nat size)%nat) img
    /\ forall x y, 0 <= x < size -> 0 <= y < size ->
         exists r g b a,
           pixel_at img x y = Some (r, g, b, a)
           /\ 0 <= r <= 255 /\ 0 <= g <= 255 /\ 0 <= b <= 255 /\ 0 <= a <= 255.
Proof.
  intros Hs.
  destruct (@rasterize_ok size) as [img Himg].
  { unfold max_int. lia. }
  exists img. split; [exact Himg|].
  destruct (rasterize_shape _ Himg) as [Hl Hrows].
  repeat split; [exact Hl | exact Hrows |].
  intros x y Hx Hy.
  destruct (rasterize_pixel Himg Hx Hy) as [cx [r [g [b [a [_ [Hpx ->]]]]]]].
  exists r, g, b, a. split; [reflexivity|].
  destruct (pixel_color _ _ _ _ _ _ Hpx) as [E | [E | E]];
    injection E as -> -> -> ->; lia.
Qed.

Lemma rasterize_dimensions_witness :
  0 < 2 <= 2 ^ 1024 - 2 ^ 970
  /\ exists img,
    rasterize 2 = inr img
    /\ length img = Z.to_nat 2
    /\ Forall (fun row => length row = (4 * Z.to_nat 2)%nat) img
    /\ forall x y, 0 <= x < 2 -> 0 <= y < 2 ->
         exists r g b a,
           pixel_at img x y = Some (r, g, b, a)
           /\ 0 <= r <= 255 /\ 0 <= g <= 255 /\ 0 <= b <= 255 /\ 0 <= a <= 255.
Proof.
  assert (H : 0 < 2 <= 2 ^ 1024 - 2 ^ 970) by (vm_compute; split; [reflexivity | discriminate]).
  split; [exact H | exact (rasterize_dimensions H)].
Defined.

(** C4, as stated, fails: size 0 is not rejected, the rasterizer returns
    the image with no rows. *)
Lemma rasterize_zero_returns :
  0 <= 0 /\ rasterize 0 = inr [] /\ ~ (exists e, rasterize 0 = inl e).
Proof.
  assert (H : rasterize 0 = inr []) by (vm_compute; reflexivity).
  split; [lia|]. split; [exact H|].
  intros [e He]. rewrite H in He. discriminate.
Qed.

Lemma rnd_min_dividend :
  rnd (inject_Z (- max_dividend * one_units) / inject_Z 2) = - max_units.
Proof. vm_compute. reflexivity. Qed.

Lemma rnd_below_min_dividend :
  rnd (inject_Z ((- max_dividend - 1) * one_units) / inject_Z 2) = - overflow_units.
Proof. vm_compute. reflexivity. Qed.

(** C4 (amended): no size is rejected as an invalid dimension.  For every
    [size <= 0] both loops are empty: the rasterizer returns the image with
    no rows as long as [size / 2] is a float, that is from
    [-(2^1025 - 2^971) + 1] on, and raises [OverflowError] below. *)
Theorem rasterize_nonpositive (size : Z) :
  size <= 0 ->
  rasterize size
  = if 2 ^ 971 - 2 ^ 1025 <? size then inr [] else inl OverflowError.
Proof.
  intros Hs. rewrite rasterize_rows, (range_nonpos Hs).
  pose proof one_units_pos. pose proof max_units_lt. pose proof overflow_units_pos.
  assert (E : 2 ^ 971 - 2 ^ 1025 = - max_dividend - 1) by (vm_compute; reflexivity).
  rewrite E. clear E.
  unfold int_truediv. cbn [Z.eqb].
  destruct (- max_dividend - 1 <? size) eqn:Hlt.
  - destruct (@round_between (inject_Z (size * one_units) / inject_Z 2)
                (inject_Z (- max_dividend * one_units) / inject_Z 2)
                (inject_Z (0 * one_units) / inject_Z 2)
                (- max_units) 0) as [u [-> Hu]];
      try lia; [| exact rnd_min_dividend | reflexivity | reflexivity].
    split; (apply Qdiv_le_pos; [reflexivity | rewrite <- Zle_Qle; nia]).
  - assert (Hle : (inject_Z (size * one_units) / inject_Z 2
                   <= inject_Z ((- max_dividend - 1) * one_units) / inject_Z 2)%Q).
    { apply Qdiv_le_pos; [reflexivity | rewrite <- Zle_Qle; nia]. }
    apply rnd_mono in Hle. rewrite rnd_below_min_dividend in Hle.
    unfold round, mk.
    replace (Z.abs _ <? overflow_units) with false by lia.
    reflexivity.
Qed.

Lemma rasterize_nonpositive_witness :
  -3 <= 0
  /\ rasterize (-3) = if 2 ^ 971 - 2 ^ 1025 <? -3 then inr [] else inl OverflowError.
Proof.
  split; [lia | apply (@rasterize_nonpositive (-3)); lia].
Defined.

(** *** The loop body against the specification's formulas *)

Lemma fsub_fneg (a b : float) : fsub a (fneg b) = fadd a b.
Proof.
  destruct a as [u|s|], b as [v|t|]; cbn [fsub fneg fadd]; try reflexivity.
  - f_equal. f_equal. lia.
  - now rewrite negb_involutive.
  - destruct s, t; reflexivity.
Qed.

Lemma fmul_comm (a b : float) : fmul a b = fmul b a.
Proof.
  destruct a as [u|s|], b as [v|t|]; cbn [fmul]; try reflexivity.
  - now rewrite Z.mul_comm.
  - now rewrite xorb_comm.
  - now rewrite xorb_comm.
  - now rewrite xorb_comm.
Qed.

Lemma lit_neg_085 : lit (-85) 100 = shield_top.
Proof. vm_compute. reflexivity. Qed.

Lemma lit_17 : lit 17 10 = fsub shield_bottom shield_top.
Proof. vm_compute. reflexivity. Qed.

Lemma lit_1 : lit 1 1 = Fin one_units.
Proof. vm_compute. reflexivity. Qed.

Lemma lit_0 : lit 0 1 = Fin 0.
Proof. vm_compute. reflexivity. Qed.

Lemma coordinate_normalized (x size : Z) (cx nx : float) :
  int_truediv size 2 = inr cx -> normalized x cx size = inr nx ->
  ShieldSpec.coordinate x size = inr nx.
Proof.
  intros Hc. unfold normalized, ShieldSpec.coordinate. rewrite Hc. mstep.
  destruct (of_int x); mstep; auto.
Qed.

Lemma half_width_max_x (progress : float) :
  ShieldSpec.half_width progress = max_x_of progress.
Proof.
  unfold ShieldSpec.half_width, max_x_of.
  destruct (flt progress (lit 6 10)); [reflexivity|].
  destruct (fdiv _ (lit 4 10)) as [e|taper]; mstep; [reflexivity|].
  rewrite of_int_1, lit_1. mstep. now rewrite (fmul_comm taper).
Qed.

(** The guarded quotient and the specification's differ only when [max_x]
    is a NaN, where neither exceeds 0.85. *)
Lemma ratio_border (nx max_x r : float) :
  border_ratio_of nx max_x = inr r ->
  exists r',
    ShieldSpec.ratio nx max_x = inr r'
    /\ fgt r' (lit 85 100) = fgt r (lit 85 100).
Proof.
  unfold border_ratio_of, ShieldSpec.ratio, fgt. rewrite lit_0.
  destruct max_x as [u|t|]; cbn [flt fle].
  - destruct (Z.ltb_spec 0 u); destruct (Z.leb_spec u 0); try lia;
      intros H'; exists r; auto.
  - destruct t; cbn [negb]; intros H'; exists r; auto.
  - intros [= <-]. exists NaN. split; [now destruct nx|].
    rewrite lit_085. reflexivity.
Qed.

(** C1, as stated, fails: the claim's formulas do not give the pixels of the
    code at the thresholds.  In the 480-pixel icon, column 183 of row 412 has
    [|nx| = 0.2375 = max_x] exactly, so the formulas make it accent blue,
    read over the rationals and also read in doubles in the order written;
    the code, which rounds the taper before it multiplies by 0.85, gets a
    half-width just below [|nx|] and leaves the pixel transparent.  In the
    400-pixel icon, column 200 of row 47 has [progress = 0.05] exactly, navy
    by the formulas; the code's rounded [progress] is below 0.05 and the
    pixel is accent blue. *)
Lemma claimed_formulas_differ :
  (exists img,
     rasterize 480 = inr img
     /\ pixel_at img 183 412 = Some (0, 0, 0, 0)
     /\ ShieldSpec.exact_pixel 480 183 412 = (30, 136, 229, 255)
     /\ ShieldSpec.written_pixel 480 183 412 = inr (30, 136, 229, 255))
  /\ (exists img,
        rasterize 400 = inr img
        /\ pixel_at img 200 47 = Some (30, 136, 229, 255)
        /\ ShieldSpec.exact_pixel 400 200 47 = (30, 58, 95, 255)).
Proof.
  split.
  - destruct (@rasterize_ok 480) as [img Himg].
    { split; [lia | vm_compute; discriminate]. }
    exists img. split; [exact Himg|].
    split; [|split; vm_compute; reflexivity].
    destruct (@rasterize_pixel 480 img 183 412 Himg ltac:(lia) ltac:(lia))
      as [cx [r [g [b [a [Hcx [Hpx ->]]]]]]].
    assert (Hc : int_truediv 480 2 = inr (Fin (240 * one_units)))
      by (vm_compute; reflexivity).
    assert (Ecx : cx = Fin (240 * one_units)) by congruence. subst cx.
    assert (E : pixel 480 480 (Fin (240 * one_units)) (Fin (240 * one_units))
                  183 412
                = inr [0; 0; 0; 0]) by (vm_compute; reflexivity).
    rewrite E in Hpx. now injection Hpx as <- <- <- <-.
  - destruct (@rasterize_ok 400) as [img Himg].
    { split; [lia | vm_compute; discriminate]. }
    exists img. split; [exact Himg|].
    split; [|vm_compute; reflexivity].
    destruct (@rasterize_pixel 400 img 200 47 Himg ltac:(lia) ltac:(lia))
      as [cx [r [g [b [a [Hcx [Hpx ->]]]]]]].
    assert (Hc : int_truediv 400 2 = inr (Fin (200 * one_units)))
      by (vm_compute; reflexivity).
    assert (Ecx : cx = Fin (200 * one_units)) by congruence. subst cx.
    assert (E : pixel 400 400 (Fin (200 * one_units)) (Fin (200 * one_units))
                  200 47
                = inr [30; 136; 229; 255]) by (vm_compute; reflexivity).
    rewrite E in Hpx. now injection Hpx as <- <- <- <-.
Qed.

(** C1 (amended): the pixel at column [x] of row [y] of [rasterize(size)] is
    the one the formulas give when every literal is the nearest double,
    every operation is rounded to the nearest double, and the taper
    [(progress - 0.6) / 0.4] is computed before it is multiplied by 0.85:
    transparent outside [-0.85 <= ny <= 0.85] and beyond the half-width,
    accent blue on the border band, navy otherwise. *)
Theorem pixel_matches_spec (size : Z) (img : list (list byte)) (x y : Z) :
  0 < size -> rasterize size = inr img ->
  0 <= x < size -> 0 <= y < size ->
  exists p,
    pixel_at img x y = Some p /\ ShieldSpec.spec_pixel size x y = inr p.
Proof.
  intros _ Hr Hx Hy.
  destruct (rasterize_pixel Hr Hx Hy) as [cx [r [g [b [a [Hcx [Hpx ->]]]]]]].
  exists (r, g, b, a). split; [reflexivity|].
  revert Hpx. unfold pixel, ShieldSpec.spec_pixel.
  destruct (normalized x cx size) as [e|nx] eqn:Enx; mstep; [discriminate|].
  destruct (normalized y cx size) as [e|ny] eqn:Eny; mstep; [discriminate|].
  rewrite (coordinate_normalized x size Hcx Enx), (coordinate_normalized y size Hcx Eny).
  mstep. rewrite lit_neg_085, lit_17. unfold progress_of.
  unfold shield_bottom, shield_top. rewrite !fsub_fneg.
  destruct (flt ny (fneg (lit 85 100)) || fgt ny (lit 85 100));
    [intros [= <- <- <- <-]; reflexivity|].
  destruct (fdiv (fadd ny (lit 85 100)) _) as [e|progress]; mstep; [discriminate|].
  rewrite half_width_max_x.
  destruct (max_x_of progress) as [e|max_x]; mstep; [discriminate|].
  destruct (fgt (fabs nx) max_x); [intros [= <- <- <- <-]; reflexivity|].
  destruct (border_ratio_of nx max_x) as [e|ratio] eqn:Er; mstep; [discriminate|].
  destruct (ratio_border nx max_x Er) as [r' [-> Hr']]. mstep.
  unfold is_border_of. rewrite Hr'.
  destruct (fgt ratio (lit 85 100) || flt progress (lit 5 100)
            || fgt progress (lit 95 100));
    intros [= <- <- <- <-]; reflexivity.
Qed.

Lemma pixel_matches_spec_witness :
  0 < 2 /\ rasterize 2 = inr img2 /\ 0 <= 1 < 2
  /\ exists p,
      pixel_at img2 1 1 = Some p /\ ShieldSpec.spec_pixel 2 1 1 = inr p.
Proof.
  assert (H : rasterize 2 = inr img2) by (vm_compute; reflexivity).
  split; [lia|]. split; [exact H|]. split; [lia|].
  apply (@pixel_matches_spec 2 img2 1 1); [lia | exact H | lia | lia].
Defined.

(** *** Mirror symmetry *)

(** C3, as stated, fails: in the 72-pixel icon, column 8 of row 36 is
    transparent while its mirror column 72-1-8 = 63 is on the border
    ([nx = 27/36 = 0.75] is not beyond the half-width 0.75, while
    [|nx| = 28/36] at column 8 is). *)
Lemma mirror_symmetry_fails :
  exists img,
    rasterize 72 = inr img
    /\ pixel_at img 8 36 = Some (0, 0, 0, 0)
    /\ pixel_at img (72 - 1 - 8) 36 = Some (30, 136, 229, 255)
    /\ pixel_at img 8 36 <> pixel_at img (72 - 1 - 8) 36.
Proof.
  destruct (@rasterize_ok 72) as [img Himg].
  { split; [lia | vm_compute; discriminate]. }
  exists img. split; [exact Himg|].
  assert (Hc : int_truediv 72 2 = inr (Fin (36 * one_units)))
    by (vm_compute; reflexivity).
  assert (H8 : pixel_at img 8 36 = Some (0, 0, 0, 0)).
  { destruct (@rasterize_pixel 72 img 8 36 Himg ltac:(lia) ltac:(lia))
      as [cx [r [g [b [a [Hcx [Hpx ->]]]]]]].
    assert (Ecx : cx = Fin (36 * one_units)) by congruence. subst cx.
    assert (E : pixel 72 72 (Fin (36 * one_units)) (Fin (36 * one_units)) 8 36
                = inr [0; 0; 0; 0]) by (vm_compute; reflexivity).
    rewrite E in Hpx. now injection Hpx as <- <- <- <-. }
  assert (H63 : pixel_at img (72 - 1 - 8) 36 = Some (30, 136, 229, 255)).
  { destruct (@rasterize_pixel 72 img (72 - 1 - 8) 36 Himg ltac:(lia) ltac:(lia))
      as [cx [r [g [b [a [Hcx [Hpx ->]]]]]]].
    assert (Ecx : cx = Fin (36 * one_units)) by congruence. subst cx.
    assert (E : pixel 72 72 (Fin (36 * one_units)) (Fin (36 * one_units))
                  (72 - 1 - 8) 36
                = inr [30; 136; 229; 255]) by (vm_compute; reflexivity).
    rewrite E in Hpx. now injection Hpx as <- <- <- <-. }
  split; [exact H8|]. split; [exact H63|].
  rewrite H8, H63. discriminate.
Qed.

(** Ints below [2^53] and their halves are doubles. *)
Lemma of_int_exact (n : Z) :
  Z.abs n < 2 ^ 53 -> of_int n = inr (Fin (n * one_units)).
Proof.
  intros Hn. unfold of_int, round, one_units.
  rewrite rnd_exact by lia.
  rewrite mk_fin; [reflexivity|].
  unfold overflow_units.
  change (2 ^ 2098) with (2 ^ 1024 * 2 ^ 1074).
  assert (0 < 2 ^ 1074) by (apply pow2_pos; lia).
  assert (2 ^ 53 < 2 ^ 1024) by (apply Z.pow_lt_mono_r; lia).
  rewrite Z.abs_mul, (Z.abs_eq (2 ^ 1074)) by lia. nia.
Qed.

Lemma int_truediv_2_exact (n : Z) :
  Z.abs n < 2 ^ 53 -> int_truediv n 2 = inr (Fin (n * 2 ^ 1073)).
Proof.
  intros Hn. unfold int_truediv, round, one_units. cbn [Z.eqb].
  assert (E : (inject_Z (n * 2 ^ 1074) / inject_Z 2 == inject_Z (n * 2 ^ 1073))%Q).
  { change (2 ^ 1074) with (2 ^ 1073 * 2).
    rewrite Z.mul_assoc, inject_Z_mult. apply Qdiv_mult_l. discriminate. }
  rewrite (rnd_comp E), rnd_exact by lia.
  rewrite mk_fin; [reflexivity|].
  unfold overflow_units.
  change (2 ^ 2098) with (2 ^ 1025 * 2 ^ 1073).
  assert (0 < 2 ^ 1073) by (apply pow2_pos; lia).
  assert (2 ^ 53 < 2 ^ 1025) by (apply Z.pow_lt_mono_r; lia).
  rewrite Z.abs_mul, (Z.abs_eq (2 ^ 1073)) by lia. nia.
Qed.

Lemma fdiv_fneg (a : float) (v : Z) (r : float) :
  fdiv a (Fin v) = inr r -> fdiv (fneg a) (Fin v) = inr (fneg r).
Proof.
  destruct v as [|v|v]; [destruct a; discriminate| |];
    destruct a as [u|s|]; cbn [fdiv fneg]; unfold ok; intros [= <-]; f_equal;
    try (now destruct s);
    rewrite <- round_opp; apply round_comp;
    rewrite Z.mul_opp_l, inject_Z_opp; unfold Qdiv; ring.
Qed.

Lemma fabs_fneg (a : float) : fabs (fneg a) = fabs a.
Proof. destruct a; cbn [fabs fneg]; [now rewrite Z.abs_opp | reflexivity..]. Qed.

(** Columns [x] and [size - x] are at opposite normalized abscissas. *)
Lemma normalized_mirror (size x : Z) (nx : float) :
  0 < size < 2 ^ 53 -> 0 <= x <= size ->
  normalized x (Fin (size * 2 ^ 1073)) size = inr nx ->
  normalized (size - x) (Fin (size * 2 ^ 1073)) size = inr (fneg nx).
Proof.
  intros Hs Hx. unfold normalized.
  rewrite !of_int_exact, int_truediv_2_exact by lia. mstep.
  intros H. apply fdiv_fneg in H. rewrite <- H. f_equal.
  cbn [fsub]. rewrite <- round_opp. apply round_comp.
  rewrite <- inject_Z_opp. apply inject_Z_injective.
  unfold one_units. change (2 ^ 1074) with (2 * 2 ^ 1073). ring.
Qed.

(** The loop body looks at [nx] only through [abs(nx)]. *)
Lemma pixel_abs (w h : Z) (cx cy : float) (x x' y : Z) (nx nx' : float) :
  normalized x cx w = inr nx -> normalized x' cx w = inr nx' ->
  fabs nx = fabs nx' ->
  pixel w h cx cy x y = pixel w h cx cy x' y.
Proof.
  intros H H' E. unfold pixel, border_ratio_of. rewrite H, H'. mstep.
  now rewrite E.
Qed.

(** C3 (amended): the shield is symmetric about the vertical line
    [x = size / 2]: for every size below [2^53] and every row, column [x]
    and column [size - x] hold the same pixel, for [1 <= x <= size - 1]
    (column 0 has no mirror column). *)
Theorem mirror_about_centre (size : Z) (img : list (list byte)) (x y : Z) :
  0 < size < 2 ^ 53 -> rasterize size = inr img ->
  1 <= x <= size - 1 -> 0 <= y < size ->
  pixel_at img x y = pixel_at img (size - x) y.
Proof.
  intros Hs Hr Hx Hy.
  destruct (@rasterize_pixel size img x y Hr ltac:(lia) Hy)
    as [cx [r [g [b [a [Hcx [Hpx ->]]]]]]].
  destruct (@rasterize_pixel size img (size - x) y Hr ltac:(lia) Hy)
    as [cx' [r' [g' [b' [a' [Hcx' [Hpx' ->]]]]]]].
  assert (cx' = cx) by congruence. subst cx'.
  rewrite int_truediv_2_exact in Hcx by lia.
  assert (cx = Fin (size * 2 ^ 1073)) by congruence. subst cx.
  destruct (normalized x (Fin (size * 2 ^ 1073)) size) as [e|nx] eqn:En.
  { unfold pixel in Hpx. rewrite En in Hpx. discriminate. }
  pose proof (@normalized_mirror size x nx Hs ltac:(lia) En) as En'.
  rewrite (@pixel_abs size size _ (Fin (size * 2 ^ 1073)) (size - x) x y _ _
             En' En (fabs_fneg nx)) in Hpx'.
  rewrite Hpx in Hpx'. now injection Hpx' as <- <- <- <-.
Qed.

Lemma mirror_about_centre_witness :
  0 < 3 < 2 ^ 53 /\ rasterize 3 = inr img3 /\ 1 <= 1 <= 3 - 1 /\ 0 <= 2 < 3
  /\ pixel_at img3 1 2 = pixel_at img3 (3 - 1) 2.
Proof.
  assert (H : rasterize 3 = inr img3) by (vm_compute; reflexivity).
  split; [lia|]. split; [exact H|]. split; [lia|]. split; [lia|].
  apply (@mirror_about_centre 3 img3 1 2); [lia | exact H | lia | lia].
Defined.

(** *** The half-width never vanishes *)

Lemma of_int_fin (n : Z) (f : float) : of_int n = inr f -> exists u, f = Fin u.
Proof.
  unfold of_int. pose proof (round_not_nan (inject_Z (n * one_units))) as Hn.
  destruct (round _) as [u|s|]; [intros [= <-]; eauto | discriminate | contradiction].
Qed.

Lemma int_truediv_fin (a b : Z) (f : float) :
  int_truediv a b = inr f -> exists u, f = Fin u.
Proof.
  unfold int_truediv. destruct (b =? 0); [discriminate|].
  pose proof (round_not_nan (inject_Z (a * one_units) / inject_Z b)) as Hn.
  destruct (round _) as [u|s|]; [intros [= <-]; eauto | discriminate | contradiction].
Qed.

Lemma normalized_not_nan (x w : Z) (c : Z) (nx : float) :
  normalized x (Fin c) w = inr nx -> nx <> NaN.
Proof.
  unfold normalized.
  destruct (of_int x) as [e|fx] eqn:Ex; mstep; [discriminate|].
  destruct (of_int_fin _ Ex) as [u ->].
  destruct (int_truediv w 2) as [e|half] eqn:Eh; mstep; [discriminate|].
  destruct (int_truediv_fin _ _ Eh) as [v ->].
  cbn [fsub].
  pose proof (round_not_nan (inject_Z (u - c))) as Hn.
  destruct (round (inject_Z (u - c))) as [a|s|]; [| |contradiction].
  - destruct (Z.eq_dec v 0) as [->|Hv]; [discriminate|].
    rewrite fdiv_fin by assumption. intros [= <-]. apply round_not_nan.
  - destruct v; cbn [fdiv]; [discriminate | intros [= <-]; discriminate..].
Qed.



Lemma rnd_span : rnd (inject_Z (2 * c085)) = 2 * c085.
Proof. vm_compute. reflexivity. Qed.
Lemma rnd_span_quot :
  rnd (inject_Z (2 * c085 * one_units) / inject_Z (2 * c085)) = one_units.
Proof. vm_compute. reflexivity. Qed.
Lemma rnd_zero_quot (d : Z) : rnd (inject_Z (0 * one_units) / inject_Z d) = 0.
Proof.
  assert (E : (inject_Z (0 * one_units) / inject_Z d == 0)%Q).
  { rewrite Z.mul_0_l. unfold Qdiv. change (inject_Z 0) with 0%Q. ring. }
  now rewrite (rnd_comp E).
Qed.
Lemma rnd_one_minus_06 : rnd (inject_Z (one_units - c06)) = c04.
Proof. vm_compute. reflexivity. Qed.
Lemma rnd_04_quot : rnd (inject_Z (c04 * one_units) / inject_Z c04) = one_units.
Proof. vm_compute. reflexivity. Qed.
Lemma rnd_085_prod :
  rnd (inject_Z (one_units * c085) / inject_Z one_units) = c085.
Proof. vm_compute. reflexivity. Qed.
Lemma rnd_zero_prod : rnd (inject_Z (0 * c085) / inject_Z one_units) = 0.
Proof. vm_compute. reflexivity. Qed.
Lemma rnd_one_minus_085 : rnd (inject_Z (one_units - c085)) = c015.
Proof. vm_compute. reflexivity. Qed.
Lemma rnd_one : rnd (inject_Z (one_units - 0)) = one_units.
Proof. vm_compute. reflexivity. Qed.
Lemma rnd_075_prod :
  rnd (inject_Z (c075 * one_units) / inject_Z one_units) = c075.
Proof. vm_compute. reflexivity. Qed.

Lemma c06_bounds : 0 < c06 < one_units.
Proof. vm_compute. split; reflexivity. Qed.
Lemma c075_bounds : 0 < c075 < one_units.
Proof. vm_compute. split; reflexivity. Qed.
Lemma c04_lt_one : c04 < one_units.
Proof. vm_compute. reflexivity. Qed.
Lemma c085_lt_one : c085 < one_units.
Proof. vm_compute. reflexivity. Qed.
Lemma one_lt_overflow : one_units < overflow_units.
Proof. vm_compute. reflexivity. Qed.
Lemma min_half_width_pos : 0 < min_half_width <= c075.
Proof. vm_compute. split; [reflexivity | discriminate]. Qed.

(** The smallest half-width is the double just above 0.1125. *)
Lemma min_half_width_val : 1125 * one_units <= 10000 * min_half_width.
Proof. vm_compute. discriminate. Qed.

Lemma two_lt_overflow : 2 * one_units < overflow_units.
Proof. vm_compute. reflexivity. Qed.

Ltac quot_le :=
  apply Qdiv_le_pos; [apply inject_Z_pos; lia | rewrite <- Zle_Qle; nia].

Lemma progress_bounds (q : Z) :
  - c085 <= q <= c085 ->
  exists p, progress_of (Fin q) = inr (Fin p) /\ 0 <= p <= one_units.
Proof.
  intros Hq. unfold progress_of.
  rewrite shield_span_val, shield_top_val. cbn [fsub].
  pose proof c085_pos. pose proof c085_lt_one. pose proof two_lt_overflow.
  pose proof one_units_pos.
  assert (R1 : exists a, round (inject_Z (q - - c085)) = Fin a
                         /\ 0 <= a <= 2 * c085).
  { apply round_between with (lo := inject_Z 0) (hi := inject_Z (2 * c085)).
    - rewrite <- !Zle_Qle. lia.
    - reflexivity.
    - exact rnd_span.
    - lia.
    - lia. }
  destruct R1 as [a [-> Ha]].
  rewrite fdiv_fin by lia.
  assert (R2 : exists p,
             round (inject_Z (a * one_units) / inject_Z (2 * c085)) = Fin p
             /\ 0 <= p <= one_units).
  { apply round_between
      with (lo := (inject_Z (0 * one_units) / inject_Z (2 * c085))%Q)
           (hi := (inject_Z (2 * c085 * one_units) / inject_Z (2 * c085))%Q).
    - split; quot_le.
    - apply rnd_zero_quot.
    - exact rnd_span_quot.
    - lia.
    - lia. }
  destruct R2 as [p [-> Hp]]. eauto.
Qed.

Lemma max_x_bounds (p : Z) (max_x : float) :
  0 <= p <= one_units -> max_x_of (Fin p) = inr max_x ->
  exists w, max_x = Fin w /\ min_half_width <= w <= c075.
Proof.
  intros Hp. unfold max_x_of.
  pose proof c085_pos. pose proof c085_lt_one. pose proof two_lt_overflow.
  pose proof one_units_pos. pose proof c06_bounds. pose proof c04_pos.
  pose proof c075_bounds. pose proof min_half_width_pos.
  rewrite lit_06, lit_04, lit_085, shield_width_top_val. cbn [flt fsub].
  destruct (Z.ltb_spec p c06) as [Hlt|Hge].
  { intros [= <-]. exists c075. split; [reflexivity | lia]. }
  pose proof c04_lt_one.
  assert (R1 : exists t0, round (inject_Z (p - c06)) = Fin t0 /\ 0 <= t0 <= c04).
  { apply round_between
      with (lo := inject_Z 0) (hi := inject_Z (one_units - c06)).
    - rewrite <- !Zle_Qle. lia.
    - reflexivity.
    - exact rnd_one_minus_06.
    - lia.
    - lia. }
  destruct R1 as [t0 [-> Ht0]].
  rewrite fdiv_fin by lia. mstep. rewrite of_int_1. mstep.
  assert (R2 : exists t,
             round (inject_Z (t0 * one_units) / inject_Z c04) = Fin t
             /\ 0 <= t <= one_units).
  { apply round_between
      with (lo := (inject_Z (0 * one_units) / inject_Z c04)%Q)
           (hi := (inject_Z (c04 * one_units) / inject_Z c04)%Q).
    - split; quot_le.
    - apply rnd_zero_quot.
    - exact rnd_04_quot.
    - lia.
    - lia. }
  destruct R2 as [t [-> Ht]]. cbn [fmul].
  assert (R3 : exists m,
             round (inject_Z (t * c085) / inject_Z one_units) = Fin m
             /\ 0 <= m <= c085).
  { apply round_between
      with (lo := (inject_Z (0 * c085) / inject_Z one_units)%Q)
           (hi := (inject_Z (one_units * c085) / inject_Z one_units)%Q).
    - split; quot_le.
    - exact rnd_zero_prod.
    - exact rnd_085_prod.
    - lia.
    - lia. }
  destruct R3 as [m [-> Hm]]. cbn [fsub].
  assert (R4 : exists s, round (inject_Z (one_units - m)) = Fin s
                         /\ c015 <= s <= one_units).
  { apply round_between
      with (lo := inject_Z (one_units - c085)) (hi := inject_Z (one_units - 0)).
    - rewrite <- !Zle_Qle. lia.
    - exact rnd_one_minus_085.
    - exact rnd_one.
    - unfold c015. lia.
    - lia. }
  destruct R4 as [s [-> Hs]]. cbn [fmul].
  assert (Hc015 : 0 < c015) by (unfold c015; lia).
  assert (R5 : exists w,
             round (inject_Z (c075 * s) / inject_Z one_units) = Fin w
             /\ min_half_width <= w <= c075).
  { apply round_between
      with (lo := (inject_Z (c075 * c015) / inject_Z one_units)%Q)
           (hi := (inject_Z (c075 * one_units) / inject_Z one_units)%Q).
    - split; quot_le.
    - reflexivity.
    - exact rnd_075_prod.
    - lia.
    - lia. }
  destruct R5 as [w [-> Hw]].
  intros [= <-]. eauto.
Qed.

(** C9: on every pixel that reaches the border-ratio computation (both
    transparency tests of the loop body failed), [max_x] is a finite double
    of value at least 0.1125, hence positive: the guard [max_x > 0] holds,
    the quotient [abs(nx) / max_x] is computed and does not raise, and the
    fallback [border_ratio = 0] is not taken. *)
Theorem max_x_positive (size x y : Z) (cx nx ny progress max_x : float) :
  0 < size ->
  int_truediv size 2 = inr cx ->
  normalized x cx size = inr nx ->
  normalized y cx size = inr ny ->
  flt ny shield_top || fgt ny shield_bottom = false ->
  progress_of ny = inr progress ->
  max_x_of progress = inr max_x ->
  fgt (fabs nx) max_x = false ->
  (exists w, max_x = Fin w
             /\ (1125 # 10000 <= inject_Z w / inject_Z one_units)%Q)
  /\ fgt max_x (Fin 0) = true
  /\ border_ratio_of nx max_x = fdiv (fabs nx) max_x
  /\ exists r, fdiv (fabs nx) max_x = inr r.
Proof.
  intros _ Hcx _ Hny Hin Hp Hm _.
  destruct (int_truediv_fin _ _ Hcx) as [c ->].
  pose proof (normalized_not_nan _ _ _ Hny) as Hnan.
  rewrite shield_top_val, shield_bottom_val in Hin.
  apply orb_false_elim in Hin as [Hlo Hhi]. unfold fgt in Hhi.
  destruct ny as [q|s|];
    [| exfalso; destruct s; cbn [flt negb] in Hlo, Hhi;
       [discriminate Hlo | discriminate Hhi]
     | exfalso; now apply Hnan].
  cbn [flt] in Hlo, Hhi.
  destruct (@progress_bounds q ltac:(lia)) as [p [Ep Hpb]].
  rewrite Ep in Hp. injection Hp as <-.
  destruct (max_x_bounds Hpb Hm) as [w [-> Hw]].
  pose proof min_half_width_pos. pose proof min_half_width_val.
  pose proof one_units_pos.
  assert (Hpos : fgt (Fin w) (Fin 0) = true).
  { unfold fgt. cbn [flt]. lia. }
  split; [|split; [exact Hpos|split]].
  - exists w. split; [reflexivity|].
    apply Qle_shift_div_l; [now apply inject_Z_pos|].
    unfold Qle. cbn [Qnum Qden inject_Z Qmult]. lia.
  - unfold border_ratio_of. now rewrite Hpos.
  - apply fdiv_ok. lia.
Qed.

(** [rasterize(4)], used to exercise the tapered part of the shield. *)
Lemma max_x_positive_witness :
  exists nx ny progress max_x,
    0 < 4
    /\ int_truediv 4 2 = inr (Fin (2 * one_units))
    /\ normalized 2 (Fin (2 * one_units)) 4 = inr nx
    /\ normalized 3 (Fin (2 * one_units)) 4 = inr ny
    /\ flt ny shield_top || fgt ny shield_bottom = false
    /\ progress_of ny = inr progress
    /\ max_x_of progress = inr max_x
    /\ flt progress (lit 6 10) = false
    /\ fgt (fabs nx) max_x = false
    /\ fgt max_x (Fin 0) = true
    /\ border_ratio_of nx max_x = fdiv (fabs nx) max_x.
Proof.
  pose (nx := Fin 0).
  pose (ny := Fin (2 ^ 1073)).
  pose (progress := match progress_of ny with inr p => p | inl _ => NaN end).
  pose (max_x := match max_x_of progress with inr m => m | inl _ => NaN end).
  assert (H1 : int_truediv 4 2 = inr (Fin (2 * one_units))) by (vm_compute; reflexivity).
  assert (H2 : normalized 2 (Fin (2 * one_units)) 4 = inr nx) by (vm_compute; reflexivity).
  assert (H3 : normalized 3 (Fin (2 * one_units)) 4 = inr ny) by (vm_compute; reflexivity).
  assert (H4 : flt ny shield_top || fgt ny shield_bottom = false) by (vm_compute; reflexivity).
  assert (H5 : progress_of ny = inr progress) by (vm_compute; reflexivity).
  assert (H6 : max_x_of progress = inr max_x) by (vm_compute; reflexivity).
  assert (H7 : fgt (fabs nx) max_x = false) by (vm_compute; reflexivity).
  assert (H8 : flt progress (lit 6 10) = false) by (vm_compute; reflexivity).
  exists nx, ny, progress, max_x.
  pose proof (@max_x_positive 4 2 3 _ nx ny progress max_x
                ltac:(lia) H1 H2 H3 H4 H5 H6 H7) as [_ [G1 [G2 _]]].
  split; [reflexivity|].
  exact (conj H1 (conj H2 (conj H3 (conj H4 (conj H5 (conj H6
           (conj H8 (conj H7 (conj G1 G2))))))))).
Defined.

End RasterizerSpec.

(** ** The encoder's building blocks *)

Module PngFacts.
Import Png PngSpec.

Lemma byte_val_byte_of (z : Z) : byte_val (byte_of z) = z mod 256.
Proof.
  unfold byte_val, byte_of.
  change 255 with (Z.ones 8). rewrite Z.land_ones by lia.
  change (2 ^ 8) with 256.
  pose proof (Z.mod_pos_bound z 256 ltac:(lia)) as Hb.
  destruct (Byte.of_N (Z.to_N (z mod 256))) as [b|] eqn:E.
  - apply Byte.to_of_N in E. rewrite E. lia.
  - apply Byte.of_N_None_iff in E. lia.
Qed.

Lemma byte_val_range (b : byte) : 0 <= byte_val b < 256.
Proof. unfold byte_val. pose proof (Byte.to_N_bounded b). lia. Qed.

Lemma byte_of_mod (z : Z) : byte_of (z mod 256) = byte_of z.
Proof.
  unfold byte_of. change 255 with (Z.ones 8). rewrite !Z.land_ones by lia.
  now rewrite Z.mod_mod by lia.
Qed.

(** [struct.pack('>I', n)] is the big-endian representation when [n] fits. *)
Lemma pack_I_be32 (n : Z) :
  pack_I n = if (0 <=? n) && (n <? 2 ^ 32) then inr (be32 n) else inl StructError.
Proof.
  unfold pack_I, be32. destruct ((0 <=? n) && (n <? 2 ^ 32)); [|reflexivity].
  rewrite !Z.shiftr_div_pow2, !byte_of_mod by lia. reflexivity.
Qed.

Lemma be32_length (n : Z) : length (be32 n) = 4%nat.
Proof. reflexivity. Qed.

Lemma be_value_be32 (n : Z) : 0 <= n < 2 ^ 32 -> be_value (be32 n) = n.
Proof.
  intros Hn. unfold be_value, be32. cbn [fold_left].
  rewrite !byte_val_byte_of, !Z.mod_mod by lia.
  change (2 ^ 24) with (256 * 256 * 256). change (2 ^ 16) with (256 * 256).
  change (2 ^ 8) with 256. change (2 ^ 32) with 4294967296 in Hn.
  rewrite <- !Z.div_div by lia.
  Z.to_euclidean_division_equations. lia.
Qed.

Lemma lxor_below (a b n : Z) :
  0 < n -> 0 <= a < 2 ^ n -> 0 <= b < 2 ^ n -> 0 <= Z.lxor a b < 2 ^ n.
Proof.
  intros Hn Ha Hb.
  assert (H0 : 0 <= Z.lxor a b) by (apply Z.lxor_nonneg; lia).
  split; [exact H0|].
  destruct (Z.eq_dec (Z.lxor a b) 0) as [->|Hx]; [apply Z.pow_pos_nonneg; lia|].
  apply Z.log2_lt_pow2; [lia|].
  pose proof (Z.log2_lxor a b ltac:(lia) ltac:(lia)) as Hl.
  assert (La : Z.log2 a < n).
  { destruct (Z.eq_dec a 0) as [->|]; [cbn; lia | apply Z.log2_lt_pow2; lia]. }
  assert (Lb : Z.log2 b < n).
  { destruct (Z.eq_dec b 0) as [->|]; [cbn; lia | apply Z.log2_lt_pow2; lia]. }
  lia.
Qed.

Lemma crc_shift_range (c : Z) : 0 <= c < 2 ^ 32 -> 0 <= crc_shift c < 2 ^ 32.
Proof.
  intros Hc. unfold crc_shift.
  assert (Hs : 0 <= Z.shiftr c 1 < 2 ^ 32).
  { rewrite Z.shiftr_div_pow2 by lia. change (2 ^ 1) with 2.
    change (2 ^ 32) with 4294967296 in *. split; [apply Z.div_pos; lia|].
    apply Z.div_lt_upper_bound; lia. }
  destruct (Z.testbit c 0); [|exact Hs].
  apply lxor_below; [lia | exact Hs | vm_compute; split; [discriminate | reflexivity]].
Qed.

Lemma crc_update_range (c : Z) (b : byte) :
  0 <= c < 2 ^ 32 -> 0 <= crc_update c b < 2 ^ 32.
Proof.
  intros Hc. unfold crc_update.
  assert (H0 : 0 <= Z.lxor c (byte_val b) < 2 ^ 32).
  { apply lxor_below; [lia | exact Hc |].
    pose proof (byte_val_range b). change (2 ^ 32) with 4294967296. lia. }
  generalize dependent (Z.lxor c (byte_val b)). intros x Hx.
  cbn [Nat.iter]. repeat apply crc_shift_range. exact Hx.
Qed.

(** The CRC is a 32-bit number: the mask [& 0xFFFFFFFF] changes nothing. *)
Lemma crc32_range (data : list byte) : 0 <= crc32 data < 2 ^ 32.
Proof.
  unfold crc32.
  apply lxor_below; [lia | | vm_compute; split; [discriminate | reflexivity]].
  assert (H : 0 <= 0xFFFFFFFF < 2 ^ 32) by (vm_compute; split; [discriminate | reflexivity]).
  generalize dependent 0xFFFFFFFF. induction data as [|b data IH]; intros c Hc.
  - exact Hc.
  - cbn [fold_left]. apply IH, crc_update_range, Hc.
Qed.

Lemma crc32_mask (data : list byte) : Z.land (crc32 data) 0xFFFFFFFF = crc32 data.
Proof.
  change 0xFFFFFFFF with (Z.ones 32). rewrite Z.land_ones by lia.
  apply Z.mod_small, crc32_range.
Qed.

(** [make_chunk] frames the data as a chunk, or raises when the length of
    the data does not fit in 32 bits. *)
Lemma make_chunk_chunk (tag data : list byte) :
  make_chunk tag data
  = if Z.of_nat (length data) <? 2 ^ 32 then inr (chunk tag data)
    else inl StructError.
Proof.
  unfold make_chunk, chunk. rewrite !pack_I_be32, crc32_mask.
  pose proof (crc32_range (tag ++ data)) as Hc.
  rewrite (proj2 (Z.leb_le 0 (Z.of_nat (length data)))) by lia.
  rewrite (proj2 (Z.leb_le 0 (crc32 (tag ++ data)))) by lia.
  rewrite (proj2 (Z.ltb_lt (crc32 (tag ++ data)) (2 ^ 32))) by lia.
  cbn [andb]. destruct (Z.of_nat (length data) <? 2 ^ 32); [|reflexivity].
  mstep. unfold ok. now rewrite <- app_assoc.
Qed.

Lemma pack_ihdr_data (width height : Z) :
  pack_ihdr width height
  = if (0 <=? width) && (width <? 2 ^ 32) && ((0 <=? height) && (height <? 2 ^ 32))
    then inr (ihdr_data width height) else inl StructError.
Proof.
  unfold pack_ihdr, ihdr_data. rewrite !pack_I_be32.
  destruct ((0 <=? width) && (width <? 2 ^ 32)); [|reflexivity].
  destruct ((0 <=? height) && (height <? 2 ^ 32)); reflexivity.
Qed.

Lemma ihdr_data_length (width height : Z) : length (ihdr_data width height) = 13%nat.
Proof. reflexivity. Qed.

(** The loop building [raw] concatenates the filtered rows in order. *)
Lemma scanlines_flat_map (pixels : list (list byte)) :
  scanlines pixels = flat_map (fun row => Byte.x00 :: row) pixels.
Proof.
  unfold scanlines.
  enough (H : forall acc,
             fold_left (fun raw row => raw ++ Byte.x00 :: row) pixels acc
             = acc ++ flat_map (fun row => Byte.x00 :: row) pixels)
    by apply (H []).
  induction pixels as [|row pixels IH]; intros acc; simpl.
  - now rewrite app_nil_r.
  - rewrite IH, <- app_assoc. reflexivity.
Qed.

Lemma scanlines_length (width height : Z) (img : list (list byte)) :
  0 <= width -> 0 <= height -> image width height img ->
  Z.of_nat (length (scanlines img)) = height * (1 + width * 4).
Proof.
  intros Hw Hh [Hlen Hrows]. rewrite scanlines_flat_map.
  replace height with (Z.of_nat (length img)) by lia. clear Hlen Hh.
  induction Hrows as [|row img Hrow _ IH]; [reflexivity|].
  simpl flat_map. simpl length.
  rewrite length_app, !Nat2Z.inj_succ, Nat2Z.inj_add, IH, Hrow.
  lia.
Qed.

Lemma unfilter_scanlines (width height : Z) (img : list (list byte)) :
  image width height img ->
  unfilter (Z.to_nat height) (4 * Z.to_nat width) (scanlines img) = img.
Proof.
  intros [Hlen Hrows]. rewrite scanlines_flat_map, <- Hlen. clear Hlen.
  induction Hrows as [|row img Hrow _ IH]; [reflexivity|].
  simpl length. simpl flat_map. cbn [unfilter].
  f_equal.
  - cbn [app skipn]. rewrite firstn_app, Hrow, Nat.sub_diag, firstn_O, app_nil_r.
    now rewrite <- Hrow, firstn_all.
  - etransitivity; [|exact IH]. f_equal.
    rewrite <- Hrow. cbn [plus skipn].
    now rewrite skipn_app, skipn_all, Nat.sub_diag.
Qed.

Lemma firstn_exact {A : Type} (a r : list A) (n : nat) :
  length a = n -> firstn n (a ++ r) = a.
Proof.
  intros <-. now rewrite firstn_app, Nat.sub_diag, firstn_O, firstn_all, app_nil_r.
Qed.

Lemma skipn_exact {A : Type} (a r : list A) (n : nat) :
  length a = n -> skipn n (a ++ r) = r.
Proof.
  intros <-. now rewrite skipn_app, Nat.sub_diag, skipn_all.
Qed.

Lemma read_chunks_step (fuel : nat) (tag data rest : list byte) :
  length tag = 4%nat -> Z.of_nat (length data) < 2 ^ 32 ->
  read_chunks (S fuel) (chunk tag data ++ rest)
  = option_map (cons (tag, data)) (read_chunks fuel rest).
Proof.
  intros Htag Hlen.
  pose proof (crc32_range (tag ++ data)) as Hcrc.
  set (bs := chunk tag data ++ rest).
  assert (Hbs : bs = be32 (Z.of_nat (length data))
                     ++ tag ++ data ++ be32 (crc32 (tag ++ data)) ++ rest).
  { unfold bs, chunk. now rewrite <- !app_assoc. }
  assert (H4 : firstn 4 bs = be32 (Z.of_nat (length data))).
  { rewrite Hbs. now apply firstn_exact. }
  assert (S4 : skipn 4 bs = tag ++ data ++ be32 (crc32 (tag ++ data)) ++ rest).
  { rewrite Hbs. now apply skipn_exact. }
  assert (S8 : skipn 8 bs = data ++ be32 (crc32 (tag ++ data)) ++ rest).
  { change 8%nat with (4 + 4)%nat. rewrite <- skipn_skipn, S4.
    now apply skipn_exact. }
  assert (Hl : Z.to_nat (be_value (firstn 4 bs)) = length data).
  { rewrite H4, be_value_be32 by lia. lia. }
  assert (Sd : skipn (8 + length data) bs = be32 (crc32 (tag ++ data)) ++ rest).
  { rewrite Nat.add_comm, <- skipn_skipn, S8. now apply skipn_exact. }
  assert (S12 : skipn (12 + length data) bs = rest).
  { replace (12 + length data)%nat with (4 + (8 + length data))%nat by lia.
    rewrite <- skipn_skipn, Sd. now apply skipn_exact. }
  assert (Hlen_bs : length bs = (12 + length data + length rest)%nat).
  { rewrite Hbs, !length_app, !be32_length, Htag. lia. }
  cbn [read_chunks].
  destruct bs as [|b0 bs'] eqn:Ebs; [cbn in Hlen_bs; lia|].
  rewrite <- Ebs in *. rewrite Hl.
  replace (length bs <? 12 + length data)%nat with false
    by (symmetry; apply Nat.ltb_ge; lia).
  rewrite S4, S8, Sd, S12.
  rewrite (@firstn_exact _ tag _ 4 Htag).
  rewrite (@firstn_exact _ data _ (length data) eq_refl).
  rewrite (@firstn_exact _ (be32 (crc32 (tag ++ data))) _ 4 eq_refl).
  rewrite be_value_be32 by lia.
  now rewrite Z.eqb_refl.
Qed.

Lemma read_png_three (t1 d1 t2 d2 t3 d3 : list byte) :
  length t1 = 4%nat -> length t2 = 4%nat -> length t3 = 4%nat ->
  Z.of_nat (length d1) < 2 ^ 32 -> Z.of_nat (length d2) < 2 ^ 32 ->
  Z.of_nat (length d3) < 2 ^ 32 ->
  read_png (signature ++ chunk t1 d1 ++ chunk t2 d2 ++ chunk t3 d3)
  = Some [(t1, d1); (t2, d2); (t3, d3)].
Proof.
  intros. unfold read_png.
  rewrite (@firstn_exact _ signature _ 8 eq_refl).
  rewrite (@skipn_exact _ signature _ 8 eq_refl).
  destruct (list_eq_dec Byte.byte_eq_dec signature signature) as [_|N];
    [|contradiction].
  set (file := signature ++ _).
  assert (Hf : exists f, length file = S (S (S f))).
  { unfold file, chunk. rewrite !length_app. cbn [length signature be32].
    eexists. rewrite !Nat.add_succ_l. reflexivity. }
  destruct Hf as [f ->].
  rewrite read_chunks_step by assumption.
  rewrite read_chunks_step by assumption.
  rewrite <- (app_nil_r (chunk t3 d3)).
  rewrite read_chunks_step by assumption.
  reflexivity.
Qed.

End PngFacts.

(** ** The stored stream inflates back and stays within zlib's bound *)

Module StoredFacts.
Import Png PngSpec PngFacts Stored.

Lemma inflate_block (fuel : nat) (final : bool) (data rest : list byte) :
  Z.of_nat (length data) <= 65535 ->
  inflate_stored (S fuel) (stored_block final data ++ rest)
  = if final then Some (data, rest)
    else match inflate_stored fuel rest with
         | Some (more, r) => Some (data ++ more, r)
         | None => None
         end.
Proof.
  intros Hlen. unfold stored_block. cbn [app inflate_stored].
  rewrite !byte_val_byte_of.
  set (n := Z.of_nat (length data)).
  assert (Hn : 0 <= n <= 65535) by lia.
  assert (E1 : n mod 256 + 256 * ((n / 256) mod 256) = n)
    by (Z.to_euclidean_division_equations; lia).
  assert (E2 : (65535 - n) mod 256 + 256 * (((65535 - n) / 256) mod 256) = 65535 - n)
    by (Z.to_euclidean_division_equations; lia).
  rewrite E1, E2.
  replace (n + (65535 - n) =? 65535) with true by (symmetry; apply Z.eqb_eq; lia).
  replace (Z.to_nat n) with (length data) by lia.
  replace (length data <=? length (data ++ rest))%nat with true
    by (symmetry; apply Nat.leb_le; rewrite length_app; lia).
  cbn [andb].
  rewrite (@firstn_exact _ data rest (length data) eq_refl).
  rewrite (@skipn_exact _ data rest (length data) eq_refl).
  destruct final; reflexivity.
Qed.

Lemma inflate_deflate_stored (fuel fuel' : nat) (data trailer : list byte) :
  (length data <= fuel)%nat -> (length data < fuel')%nat ->
  inflate_stored fuel' (deflate_stored fuel data ++ trailer) = Some (data, trailer).
Proof.
  revert fuel' data. induction fuel as [|fuel IH]; intros fuel' data Hf Hf'.
  - destruct fuel' as [|fuel']; [lia|]. cbn [deflate_stored].
    now rewrite inflate_block by lia.
  - destruct fuel' as [|fuel']; [lia|]. cbn [deflate_stored].
    destruct (Z.leb_spec (Z.of_nat (length data)) 65535) as [Hs|Hl].
    + now rewrite inflate_block by lia.
    + rewrite <- app_assoc, inflate_block
        by (rewrite length_firstn; unfold block_max; lia).
      rewrite IH by (rewrite length_skipn; unfold block_max; lia).
      now rewrite firstn_skipn.
Qed.

Lemma deflate_stored_longer (fuel : nat) (data : list byte) :
  (length data + 5 <= length (deflate_stored fuel data))%nat.
Proof.
  revert data. induction fuel as [|fuel IH]; intros data; cbn [deflate_stored].
  - unfold stored_block. rewrite length_app. cbn [length]. lia.
  - destruct (Z.leb_spec (Z.of_nat (length data)) 65535) as [Hs|Hl].
    + unfold stored_block. rewrite length_app. cbn [length]. lia.
    + rewrite length_app. unfold stored_block. rewrite length_app. cbn [length].
      rewrite length_firstn.
      specialize (IH (skipn block_max data)). rewrite length_skipn in IH.
      unfold block_max in *. lia.
Qed.

Lemma deflate_stored_length (fuel : nat) (data : list byte) :
  (length data <= fuel)%nat ->
  Z.of_nat (length (deflate_stored fuel data))
  <= Z.of_nat (length data) + 5 * (Z.of_nat (length data) / 65535) + 5.
Proof.
  revert data. induction fuel as [|fuel IH]; intros data Hf.
  - cbn [deflate_stored]. unfold stored_block. rewrite length_app. cbn [length].
    Z.to_euclidean_division_equations. lia.
  - cbn [deflate_stored].
    destruct (Z.leb_spec (Z.of_nat (length data)) 65535) as [Hs|Hl].
    + unfold stored_block. rewrite length_app. cbn [length].
      Z.to_euclidean_division_equations. lia.
    + rewrite length_app. unfold stored_block at 1. rewrite length_app. cbn [length].
      rewrite length_firstn.
      specialize (IH (skipn block_max data)). rewrite length_skipn in IH.
      unfold block_max in *.
      specialize (IH ltac:(lia)).
      replace (Z.of_nat (length data - Z.to_nat 65535))
        with (Z.of_nat (length data) - 65535) in IH by lia.
      Z.to_euclidean_division_equations. lia.
Qed.

Lemma adler32_range (data : list byte) : 0 <= adler32 data < 2 ^ 32.
Proof.
  unfold adler32.
  assert (H : forall s, 0 <= fst s < 65521 /\ 0 <= snd s < 65521 ->
              let r := fold_left adler_step data s in
              0 <= fst r < 65521 /\ 0 <= snd r < 65521).
  { induction data as [|x data IH]; intros s Hs; [exact Hs|].
    cbn [fold_left]. apply IH. unfold adler_step. cbn [fst snd].
    split; apply Z.mod_pos_bound; lia. }
  specialize (H (1, 0) ltac:(cbn [fst snd]; lia)). cbn zeta in H.
  change (2 ^ 32) with 4294967296. lia.
Qed.

(** Inflating what was stored gives the data back. *)
Lemma zlib_load_store (raw : list byte) : zlib_load (zlib_store raw) = Some raw.
Proof.
  unfold zlib_store, zlib_load. cbn [app].
  replace ((byte_val Byte.x78 =? 120)
           && ((byte_val Byte.x78 * 256 + byte_val Byte.x01) mod 31 =? 0))
    with true by reflexivity.
  rewrite inflate_deflate_stored.
  - rewrite be32_length, be_value_be32 by apply adler32_range.
    now rewrite Z.eqb_refl.
  - lia.
  - rewrite length_app. pose proof (deflate_stored_longer (length raw) raw). lia.
Qed.

(** What is stored stays within zlib's bound. *)
Lemma zlib_store_bound (raw : list byte) :
  Z.of_nat (length (zlib_store raw)) <= compressBound (Z.of_nat (length raw)).
Proof.
  unfold zlib_store, compressBound.
  rewrite !length_app, be32_length. cbn [length].
  pose proof (@deflate_stored_length (length raw) raw ltac:(lia)) as H.
  rewrite !Z.shiftr_div_pow2 by lia.
  change (2 ^ 12) with 4096. change (2 ^ 14) with 16384.
  change (2 ^ 25) with 33554432.
  Z.to_euclidean_division_equations. lia.
Qed.

End StoredFacts.

(** ** Properties of the encoder *)

Module EncoderSpec.
Import Png PngSpec PngFacts Stored StoredFacts Constants.

Section Encoder.

Variable compress : list byte -> list byte.
Variable decompress : list byte -> option (list byte).

Lemma encode_layout (size : Z) (img : list (list byte)) :
  0 < size ->
  encode compress size size img
  = if (size <? 2 ^ 32)
       && (Z.of_nat (length (compress (scanlines img))) <? 2 ^ 32)
    then inr (layout compress size img) else inl StructError.
Proof.
  intros Hs. unfold encode, layout.
  rewrite pack_ihdr_data, !make_chunk_chunk.
  rewrite (proj2 (Z.leb_le 0 size)) by lia. cbn [andb].
  destruct (size <? 2 ^ 32); [|reflexivity]. cbn [andb]. mstep.
  rewrite make_chunk_chunk, ihdr_data_length.
  replace (Z.of_nat 13 <? 2 ^ 32) with true by reflexivity. mstep.
  destruct (_ <? 2 ^ 32); [|reflexivity]. mstep.
  change (Z.of_nat 0 <? 2 ^ 32) with true. mstep.
  unfold ok. now rewrite <- !app_assoc.
Qed.

Lemma encode_returns (size : Z) (img : list (list byte)) (file : list byte) :
  0 < size -> encode compress size size img = inr file ->
  file = layout compress size img
  /\ size < 2 ^ 32
  /\ Z.of_nat (length (compress (scanlines img))) < 2 ^ 32.
Proof.
  intros Hs. rewrite encode_layout by assumption.
  destruct (Z.ltb_spec size (2 ^ 32)) as [H1|]; [|discriminate].
  destruct (Z.ltb_spec (Z.of_nat (length (compress (scanlines img)))) (2 ^ 32))
    as [H2|]; [|discriminate].
  cbn [andb]. intros [= <-]. auto.
Qed.

Lemma read_layout (size : Z) (img : list (list byte)) :
  Z.of_nat (length (compress (scanlines img))) < 2 ^ 32 ->
  read_png (layout compress size img)
  = Some [(IHDR, ihdr_data size size);
          (IDAT, compress (scanlines img));
          (IEND, [])].
Proof.
  intros H. unfold layout.
  apply read_png_three; try reflexivity; assumption.
Qed.

(** C2: for an image of [size] by [size] pixels, what the encoder returns is
    the 8-byte signature followed by exactly the IHDR, IDAT and IEND chunks,
    each made of the big-endian length of its data, its 4-byte tag, the data
    and the big-endian CRC-32 of tag and data; the IHDR data is the 13 bytes
    width, height, 8, 6, 0, 0, 0 and the IEND data is empty.  The encoder
    returns whenever the size and the length of the compressed data fit in
    32 bits, and a reader of the format finds these three chunks, with
    matching lengths and CRCs, and nothing else. *)
Theorem encode_is_png (size : Z) (img : list (list byte)) :
  0 < size -> image size size img ->
  (size < 2 ^ 32 -> Z.of_nat (length (compress (scanlines img))) < 2 ^ 32 ->
   exists file, encode compress size size img = inr file)
  /\ forall file,
      encode compress size size img = inr file ->
      file = signature
             ++ chunk IHDR (ihdr_data size size)
             ++ chunk IDAT (compress (scanlines img))
             ++ chunk IEND []
      /\ ihdr_data size size
         = be32 size ++ be32 size
           ++ [Byte.x08; Byte.x06; Byte.x00; Byte.x00; Byte.x00]
      /\ length (ihdr_data size size) = 13%nat
      /\ be_value (be32 size) = size
      /\ read_png file
         = Some [(IHDR, ihdr_data size size);
                 (IDAT, compress (scanlines img));
                 (IEND, [])].
Proof.
  intros Hs _. split.
  - intros H1 H2. rewrite encode_layout by assumption.
    rewrite (proj2 (Z.ltb_lt _ _) H1), (proj2 (Z.ltb_lt _ _) H2). cbn [andb]. eauto.
  - intros file Hfile.
    destruct (encode_returns _ Hs Hfile) as [-> [H1 H2]].
    split; [reflexivity|]. split; [reflexivity|]. split; [reflexivity|].
    split; [apply be_value_be32; lia|].
    now apply read_layout.
Qed.

(** C5: the uncompressed IDAT payload the encoder builds is, row after row
    from the top, one filter byte 0 followed by the bytes of the row (R, G,
    B, A of each pixel from the left), and its length is
    [height * (1 + width * 4)]. *)
Theorem scanline_payload (size : Z) (img : list (list byte)) :
  0 < size -> image size size img ->
  scanlines img = flat_map (fun row => Byte.x00 :: row) img
  /\ Z.of_nat (length (scanlines img)) = size * (1 + size * 4).
Proof.
  intros Hs Himg. split.
  - apply scanlines_flat_map.
  - apply scanlines_length; [lia | lia | exact Himg].
Qed.

Hypothesis inflate_deflate : forall raw, decompress (compress raw) = Some raw.

(** C7: inflating the data of the IDAT chunk of the encoder's output gives
    [height * (1 + width * 4)] bytes, and dropping the filter byte of each
    row gives back the image. *)
Theorem idat_round_trip (size : Z) (img : list (list byte)) (file : list byte) :
  0 < size -> image size size img ->
  encode compress size size img = inr file ->
  exists data raw,
    chunk_data IDAT file = Some data
    /\ decompress data = Some raw
    /\ Z.of_nat (length raw) = size * (1 + size * 4)
    /\ unfilter (Z.to_nat size) (4 * Z.to_nat size) raw = img.
Proof.
  intros Hs Himg Hfile.
  destruct (encode_returns _ Hs Hfile) as [-> [_ Hlen]].
  exists (compress (scanlines img)), (scanlines img).
  split; [|split; [apply inflate_deflate|split]].
  - unfold chunk_data. rewrite (read_layout _ _ Hlen). cbn [find fst].
    destruct (list_eq_dec Byte.byte_eq_dec IHDR IDAT) as [E|_]; [discriminate E|].
    destruct (list_eq_dec Byte.byte_eq_dec IDAT IDAT) as [_|N]; [|contradiction].
    reflexivity.
  - apply scanlines_length; [lia | lia | exact Himg].
  - apply unfilter_scanlines, Himg.
Qed.

Hypothesis compress_bound :
  forall raw,
    Z.of_nat (length (compress raw)) <= compressBound (Z.of_nat (length raw)).

(** C6: the file made for size 72 begins with the signature and the IHDR
    chunk of a 72 by 72 RGBA image up to its CRC, continues with one IDAT
    chunk and ends with the 12 bytes of the empty IEND chunk. *)
Theorem icon_72_file :
  exists img file,
    Icon.rasterize 72 = inr img
    /\ create_png_icon compress 72 = inr file
    /\ firstn 29 file = header_72
    /\ exists data,
        file = header_72 ++ header_72_crc ++ chunk IDAT data ++ iend_chunk
        /\ chunk_data IDAT file = Some data
        /\ data = compress (scanlines img).
Proof.
  destruct (@IconTotal.rasterize_ok 72) as [img Himg].
  { split; [lia | vm_compute; discriminate]. }
  pose proof (IconFacts.rasterize_shape 72 Himg) as Hshape.
  assert (Hraw : Z.of_nat (length (scanlines img)) = 72 * (1 + 72 * 4))
    by (apply scanlines_length; [lia | lia | exact Hshape]).
  assert (Hlen : Z.of_nat (length (compress (scanlines img))) < 2 ^ 32).
  { pose proof (compress_bound (scanlines img)) as Hb. rewrite Hraw in Hb.
    assert (compressBound (72 * (1 + 72 * 4)) < 2 ^ 32) by reflexivity. lia. }
  assert (Hfile : encode compress 72 72 img = inr (layout compress 72 img)).
  { rewrite encode_layout by lia.
    now rewrite (proj2 (Z.ltb_lt _ _) Hlen). }
  exists img, (layout compress 72 img).
  split; [exact Himg|]. split; [unfold create_png_icon; now rewrite Himg|].
  assert (Hhead : signature ++ chunk IHDR (ihdr_data 72 72)
                  = header_72 ++ header_72_crc) by (vm_compute; reflexivity).
  assert (Hend : chunk IEND [] = iend_chunk) by (vm_compute; reflexivity).
  assert (Hlay : layout compress 72 img
                 = header_72 ++ header_72_crc
                   ++ chunk IDAT (compress (scanlines img)) ++ iend_chunk).
  { unfold layout. rewrite Hend, app_assoc, Hhead, <- app_assoc. reflexivity. }
  split; [rewrite Hlay; reflexivity|].
  exists (compress (scanlines img)).
  split; [exact Hlay|]. split; [|reflexivity].
  unfold chunk_data. now rewrite (read_layout _ _ Hlen).
Qed.

End Encoder.

(** *** The theorems at the stored compressor *)

Lemma image_img2 : image 2 2 img2.
Proof. split; [reflexivity | repeat constructor]. Qed.

Lemma encode_is_png_witness :
  0 < 2 /\ image 2 2 img2
  /\ (2 < 2 ^ 32 -> Z.of_nat (length (zlib_store (scanlines img2))) < 2 ^ 32 ->
      exists file, encode zlib_store 2 2 img2 = inr file)
  /\ forall file,
      encode zlib_store 2 2 img2 = inr file ->
      file = signature
             ++ chunk IHDR (ihdr_data 2 2)
             ++ chunk IDAT (zlib_store (scanlines img2))
             ++ chunk IEND []
      /\ ihdr_data 2 2
         = be32 2 ++ be32 2
           ++ [Byte.x08; Byte.x06; Byte.x00; Byte.x00; Byte.x00]
      /\ length (ihdr_data 2 2) = 13%nat
      /\ be_value (be32 2) = 2
      /\ read_png file
         = Some [(IHDR, ihdr_data 2 2);
                 (IDAT, zlib_store (scanlines img2));
                 (IEND, [])].
Proof.
  split; [lia|]. split; [exact image_img2|].
  apply (@encode_is_png zlib_store 2 img2); [lia | exact image_img2].
Defined.

Lemma scanline_payload_witness :
  0 < 2 /\ image 2 2 img2
  /\ scanlines img2 = flat_map (fun row => Byte.x00 :: row) img2
  /\ Z.of_nat (length (scanlines img2)) = 2 * (1 + 2 * 4).
Proof.
  split; [lia|]. split; [exact image_img2|].
  apply (@scanline_payload 2 img2); [lia | exact image_img2].
Defined.

Lemma idat_round_trip_witness :
  (forall raw, zlib_load (zlib_store raw) = Some raw)
  /\ 0 < 2 /\ image 2 2 img2
  /\ encode zlib_store 2 2 img2 = inr png2
  /\ exists data raw,
      chunk_data IDAT png2 = Some data
      /\ zlib_load data = Some raw
      /\ Z.of_nat (length raw) = 2 * (1 + 2 * 4)
      /\ unfilter (Z.to_nat 2) (4 * Z.to_nat 2) raw = img2.
Proof.
  assert (H : encode zlib_store 2 2 img2 = inr png2) by (vm_compute; reflexivity).
  split; [exact zlib_load_store|]. split; [lia|]. split; [exact image_img2|].
  split; [exact H|].
  apply (@idat_round_trip zlib_store zlib_load zlib_load_store 2 img2 png2);
    [lia | exact image_img2 | exact H].
Defined.

Lemma icon_72_file_witness :
  (forall raw,
     Z.of_nat (length (zlib_store raw)) <= compressBound (Z.of_nat (length raw)))
  /\ exists img file,
      Icon.rasterize 72 = inr img
      /\ create_png_icon zlib_store 72 = inr file
      /\ firstn 29 file = header_72
      /\ exists data,
          file = header_72 ++ header_72_crc ++ chunk IDAT data ++ iend_chunk
          /\ chunk_data IDAT file = Some data
          /\ data = zlib_store (scanlines img).
Proof.
  split; [exact zlib_store_bound|].
  exact (@icon_72_file zlib_store zlib_store_bound).
Defined.

End EncoderSpec.

(** * Further properties of the code *)

(** ** The loop body in units: facts *)

Module ShapeFacts.
Import Icon IconFacts IconTotal FloatFacts Rounding Constants RasterizerSpec Shape.

Lemma round_fin_between (x lo hi : Q) (L H : Z) :
  (lo <= x <= hi)%Q -> rnd lo = L -> rnd hi = H ->
  - overflow_units < L -> H < overflow_units ->
  round x = Fin (rnd x) /\ L <= rnd x <= H.
Proof.
  intros [H1 H2] EL EH HL HH.
  pose proof (rnd_mono H1). pose proof (rnd_mono H2).
  split; [|lia]. unfold round. apply mk_fin. lia.
Qed.

Lemma rnd_one_units : rnd (inject_Z one_units) = one_units.
Proof. vm_compute. reflexivity. Qed.

Lemma rnd_neg_one_units : rnd (inject_Z (- one_units)) = - one_units.
Proof. vm_compute. reflexivity. Qed.

Lemma coord_bounds (size x : Z) :
  0 < size -> 0 <= x <= size -> - one_units <= coord size x <= one_units.
Proof.
  intros Hs Hx. unfold coord. pose proof one_units_pos.
  assert (Hlo : (inject_Z (- one_units)
                 <= inject_Z ((2 * x - size) * one_units) / inject_Z size)%Q).
  { apply Qle_shift_div_l; [now apply inject_Z_pos|].
    rewrite <- inject_Z_mult, <- Zle_Qle. nia. }
  assert (Hhi : (inject_Z ((2 * x - size) * one_units) / inject_Z size
                 <= inject_Z one_units)%Q).
  { apply Qle_shift_div_r; [now apply inject_Z_pos|].
    rewrite <- inject_Z_mult, <- Zle_Qle. nia. }
  apply rnd_mono in Hlo, Hhi.
  rewrite rnd_neg_one_units in Hlo. rewrite rnd_one_units in Hhi. lia.
Qed.

(** With an exact centre the normalized coordinate is one rounding of
    [(2 x - size) / size]. *)
Lemma normalized_coord (size x : Z) :
  0 < size < 2 ^ 53 -> 0 <= x <= size ->
  normalized x (Fin (size * 2 ^ 1073)) size = inr (Fin (coord size x)).
Proof.
  intros Hs Hx. unfold normalized.
  rewrite of_int_exact, int_truediv_2_exact by lia. mstep.
  pose proof one_units_pos. pose proof one_lt_overflow.
  assert (Hh : 0 < 2 ^ 1073) by (apply pow2_pos; lia).
  assert (E1 : fsub (Fin (x * one_units)) (Fin (size * 2 ^ 1073))
               = Fin ((2 * x - size) * 2 ^ 1073)).
  { cbn [fsub]. unfold round.
    replace (x * one_units - size * 2 ^ 1073) with ((2 * x - size) * 2 ^ 1073)
      by (unfold one_units; change (2 ^ 1074) with (2 * 2 ^ 1073); ring).
    rewrite rnd_exact by lia. apply mk_fin.
    assert (2 ^ 53 * 2 ^ 1073 < overflow_units) by (vm_compute; reflexivity).
    rewrite Z.abs_mul, (Z.abs_eq (2 ^ 1073)) by lia. nia. }
  rewrite E1, fdiv_fin by lia. f_equal.
  assert (E2 : (inject_Z ((2 * x - size) * 2 ^ 1073 * one_units)
                / inject_Z (size * 2 ^ 1073)
                == inject_Z ((2 * x - size) * one_units) / inject_Z size)%Q).
  { generalize dependent (2 ^ 1073). intros h Hh _.
    rewrite !inject_Z_mult. field.
    split; intros E; change 0%Q with (inject_Z 0) in E;
      apply (proj1 (inject_Z_injective _ _)) in E; lia. }
  rewrite (round_comp E2). unfold round. apply mk_fin.
  pose proof (@coord_bounds size x ltac:(lia) Hx) as Hb. fold (coord size x). lia.
Qed.

Lemma lit_005 : lit 5 100 = Fin c005.
Proof. vm_compute. reflexivity. Qed.
Lemma lit_095 : lit 95 100 = Fin c095.
Proof. vm_compute. reflexivity. Qed.

Lemma min_half_width_eq :
  rnd (inject_Z (c075 * c015) / inject_Z one_units) = min_half_width.
Proof. unfold min_half_width. reflexivity. Qed.

Lemma progress_units_ok (q : Z) :
  - c085 <= q <= c085 ->
  progress_of (Fin q) = inr (Fin (progress_units q))
  /\ 0 <= progress_units q <= one_units.
Proof.
  intros Hq. unfold progress_of, progress_units.
  rewrite shield_span_val, shield_top_val. cbn [fsub].
  pose proof c085_pos. pose proof c085_lt_one. pose proof two_lt_overflow.
  pose proof one_units_pos.
  destruct (@round_fin_between (inject_Z (q - - c085)) (inject_Z 0)
              (inject_Z (2 * c085)) 0 (2 * c085)) as [-> Ha];
    [rewrite <- !Zle_Qle; lia | reflexivity | exact rnd_span | lia | lia |].
  rewrite fdiv_fin by lia.
  destruct (@round_fin_between
              (inject_Z (rnd (inject_Z (q - - c085)) * one_units) / inject_Z (2 * c085))
              (inject_Z (0 * one_units) / inject_Z (2 * c085))
              (inject_Z (2 * c085 * one_units) / inject_Z (2 * c085))
              0 one_units) as [-> Hp];
    [split; quot_le | apply rnd_zero_quot | exact rnd_span_quot | lia | lia |].
  split; [reflexivity | exact Hp].
Qed.

Lemma progress_units_mono (q q' : Z) :
  q <= q' -> progress_units q <= progress_units q'.
Proof.
  intros H. unfold progress_units. pose proof c085_pos. pose proof one_units_pos.
  assert (M1 : rnd (inject_Z (q - - c085)) <= rnd (inject_Z (q' - - c085))).
  { apply rnd_mono. rewrite <- Zle_Qle. lia. }
  apply rnd_mono. quot_le.
Qed.

Lemma taper_width_antitone (p p' : Z) :
  p <= p' -> taper_width p' <= taper_width p.
Proof.
  intros H. unfold taper_width. cbv zeta.
  pose proof c085_pos. pose proof one_units_pos. pose proof c04_pos.
  pose proof c075_bounds.
  assert (M1 : rnd (inject_Z (p - c06)) <= rnd (inject_Z (p' - c06))).
  { apply rnd_mono. rewrite <- Zle_Qle. lia. }
  set (t0 := rnd (inject_Z (p - c06))) in *.
  set (t0' := rnd (inject_Z (p' - c06))) in *.
  assert (M2 : rnd (inject_Z (t0 * one_units) / inject_Z c04)
               <= rnd (inject_Z (t0' * one_units) / inject_Z c04)).
  { apply rnd_mono. quot_le. }
  set (t := rnd (inject_Z (t0 * one_units) / inject_Z c04)) in *.
  set (t' := rnd (inject_Z (t0' * one_units) / inject_Z c04)) in *.
  assert (M3 : rnd (inject_Z (t * c085) / inject_Z one_units)
               <= rnd (inject_Z (t' * c085) / inject_Z one_units)).
  { apply rnd_mono. quot_le. }
  set (m := rnd (inject_Z (t * c085) / inject_Z one_units)) in *.
  set (m' := rnd (inject_Z (t' * c085) / inject_Z one_units)) in *.
  assert (M4 : rnd (inject_Z (one_units - m')) <= rnd (inject_Z (one_units - m))).
  { apply rnd_mono. rewrite <- Zle_Qle. lia. }
  apply rnd_mono. quot_le.
Qed.

Lemma max_x_units_ok (p : Z) :
  0 <= p <= one_units ->
  max_x_of (Fin p) = inr (Fin (max_x_units p))
  /\ min_half_width <= max_x_units p <= c075.
Proof.
  intros Hp. unfold max_x_of, max_x_units, taper_width. cbv zeta.
  pose proof c085_pos. pose proof c085_lt_one. pose proof two_lt_overflow.
  pose proof one_units_pos. pose proof c06_bounds. pose proof c04_pos.
  pose proof c075_bounds. pose proof min_half_width_pos. pose proof c04_lt_one.
  rewrite lit_06, lit_04, lit_085, shield_width_top_val. cbn [flt fsub].
  destruct (Z.ltb_spec p c06) as [Hlt|Hge].
  { split; [reflexivity | lia]. }
  destruct (@round_fin_between (inject_Z (p - c06)) (inject_Z 0)
              (inject_Z (one_units - c06)) 0 c04) as [-> Ht0];
    [rewrite <- !Zle_Qle; lia | reflexivity | exact rnd_one_minus_06 | lia | lia |].
  set (t0 := rnd (inject_Z (p - c06))) in *.
  rewrite fdiv_fin by lia. mstep. rewrite of_int_1. mstep.
  destruct (@round_fin_between (inject_Z (t0 * one_units) / inject_Z c04)
              (inject_Z (0 * one_units) / inject_Z c04)
              (inject_Z (c04 * one_units) / inject_Z c04) 0 one_units) as [-> Ht];
    [split; quot_le | apply rnd_zero_quot | exact rnd_04_quot | lia | lia |].
  set (t := rnd (inject_Z (t0 * one_units) / inject_Z c04)) in *.
  cbn [fmul].
  destruct (@round_fin_between (inject_Z (t * c085) / inject_Z one_units)
              (inject_Z (0 * c085) / inject_Z one_units)
              (inject_Z (one_units * c085) / inject_Z one_units) 0 c085) as [-> Hm];
    [split; quot_le | exact rnd_zero_prod | exact rnd_085_prod | lia | lia |].
  set (m := rnd (inject_Z (t * c085) / inject_Z one_units)) in *.
  cbn [fsub].
  destruct (@round_fin_between (inject_Z (one_units - m))
              (inject_Z (one_units - c085)) (inject_Z (one_units - 0))
              c015 one_units) as [-> Hs];
    [rewrite <- !Zle_Qle; lia | exact rnd_one_minus_085 | exact rnd_one
     | unfold c015; lia | lia |].
  set (s := rnd (inject_Z (one_units - m))) in *.
  cbn [fmul].
  assert (Hc015 : 0 < c015) by (unfold c015; lia).
  destruct (@round_fin_between (inject_Z (c075 * s) / inject_Z one_units)
              (inject_Z (c075 * c015) / inject_Z one_units)
              (inject_Z (c075 * one_units) / inject_Z one_units)
              min_half_width c075) as [-> Hw];
    [split; quot_le | exact min_half_width_eq | exact rnd_075_prod | lia | lia |].
  split; [reflexivity | exact Hw].
Qed.

(** Lines 25-29: the half-width never grows with [progress]. *)
Lemma max_x_units_antitone (p p' : Z) :
  0 <= p -> p <= p' -> p' <= one_units -> max_x_units p' <= max_x_units p.
Proof.
  intros H0 H H1.
  destruct (@max_x_units_ok p' ltac:(lia)) as [_ Hb].
  unfold max_x_units in *.
  destruct (Z.ltb_spec p c06), (Z.ltb_spec p' c06); try lia.
  now apply taper_width_antitone.
Qed.

Lemma ratio_units_ok (a w : Z) :
  0 <= a <= w -> 0 < w ->
  fdiv (Fin a) (Fin w) = inr (Fin (ratio_units a w))
  /\ 0 <= ratio_units a w <= one_units.
Proof.
  intros Ha Hw. unfold ratio_units.
  pose proof one_units_pos. pose proof one_lt_overflow.
  rewrite fdiv_fin by lia.
  assert (E : (inject_Z (w * one_units) / inject_Z w == inject_Z one_units)%Q).
  { rewrite inject_Z_mult. field. intros E. change 0%Q with (inject_Z 0) in E.
    apply (proj1 (inject_Z_injective _ _)) in E. lia. }
  destruct (@round_fin_between (inject_Z (a * one_units) / inject_Z w)
              (inject_Z (0 * one_units) / inject_Z w)
              (inject_Z (w * one_units) / inject_Z w) 0 one_units) as [-> Hr];
    [split; quot_le | apply rnd_zero_quot
     | rewrite (rnd_comp E); exact rnd_one_units | lia | lia |].
  split; [reflexivity | exact Hr].
Qed.

(** The loop body, once both coordinates are finite doubles. *)
Lemma pixel_shade (w h : Z) (cx cy : float) (x y a q : Z) :
  normalized x cx w = inr (Fin a) -> normalized y cy h = inr (Fin q) ->
  pixel w h cx cy x y = inr (shade (Z.abs a) q).
Proof.
  intros Hx Hy. unfold pixel, shade. rewrite Hx, Hy. mstep.
  rewrite shield_top_val, shield_bottom_val. unfold fgt. cbn [flt].
  destruct (Z.ltb_spec q (- c085)) as [|Hlo]; [reflexivity|].
  destruct (Z.ltb_spec c085 q) as [|Hhi]; [reflexivity|].
  cbn [orb]. cbv zeta.
  destruct (@progress_units_ok q ltac:(lia)) as [-> Hp]. mstep.
  destruct (max_x_units_ok Hp) as [-> Hw]. mstep.
  pose proof min_half_width_pos.
  cbn [fabs flt].
  destruct (Z.ltb_spec (max_x_units (progress_units q)) (Z.abs a)) as [|Hin];
    [reflexivity|].
  unfold border_ratio_of, fgt. cbn [flt fabs].
  rewrite (proj2 (Z.ltb_lt 0 (max_x_units (progress_units q)))) by lia.
  destruct (@ratio_units_ok (Z.abs a) (max_x_units (progress_units q))
              ltac:(lia) ltac:(lia)) as [-> Hr]. mstep.
  unfold is_border_of, fgt. rewrite lit_085, lit_005, lit_095. cbn [flt].
  destruct ((c085 <? ratio_units (Z.abs a) (max_x_units (progress_units q)))
            || (progress_units q <? c005) || (c095 <? progress_units q));
    reflexivity.
Qed.

(** Reading a pixel of the image gives the shade of its coordinates. *)
Lemma pixel_at_shade (size : Z) (img : list (list byte)) (x y : Z) :
  0 < size < 2 ^ 53 -> rasterize size = inr img ->
  0 <= x < size -> 0 <= y < size ->
  exists r g b a,
    pixel_at img x y = Some (r, g, b, a)
    /\ shade (Z.abs (coord size x)) (coord size y) = [r; g; b; a].
Proof.
  intros Hs Hr Hx Hy.
  destruct (rasterize_pixel Hr Hx Hy) as [cx [r [g [b [a [Hcx [Hpx Hat]]]]]]].
  rewrite int_truediv_2_exact in Hcx by lia.
  assert (cx = Fin (size * 2 ^ 1073)) by congruence. subst cx.
  rewrite (@pixel_shade size size _ _ x y (coord size x) (coord size y)) in Hpx
    by (apply normalized_coord; lia).
  exists r, g, b, a. split; [exact Hat | congruence].
Qed.

Lemma pixel_at_shade_iff (size : Z) (img : list (list byte)) (x y : Z) :
  0 < size < 2 ^ 53 -> rasterize size = inr img ->
  0 <= x < size -> 0 <= y < size ->
  forall r g b a,
    pixel_at img x y = Some (r, g, b, a)
    <-> shade (Z.abs (coord size x)) (coord size y) = [r; g; b; a].
Proof.
  intros Hs Hr Hx Hy r g b a.
  destruct (pixel_at_shade Hs Hr Hx Hy) as [r' [g' [b' [a' [-> ->]]]]].
  split; intros [= -> -> -> ->]; reflexivity.
Qed.

Lemma coord_mono (size x x' : Z) :
  0 < size -> x <= x' -> coord size x <= coord size x'.
Proof.
  intros Hs H. unfold coord. pose proof one_units_pos.
  apply rnd_mono. quot_le.
Qed.

Lemma coord_abs (size x : Z) :
  0 < size ->
  Z.abs (coord size x)
  = rnd (inject_Z (Z.abs (2 * x - size) * one_units) / inject_Z size).
Proof.
  intros Hs. unfold coord. pose proof one_units_pos.
  pose proof rnd_0 as R0.
  destruct (Z_le_gt_dec 0 (2 * x - size)) as [Hp|Hn].
  - rewrite (Z.abs_eq (2 * x - size)) by lia.
    apply Z.abs_eq. rewrite <- R0. apply rnd_mono.
    apply Qle_shift_div_l; [now apply inject_Z_pos|].
    rewrite Qmult_0_l. change 0%Q with (inject_Z 0). rewrite <- Zle_Qle. nia.
  - rewrite (Z.abs_neq (2 * x - size)) by lia.
    assert (E : (inject_Z (- (2 * x - size) * one_units) / inject_Z size
                 == - (inject_Z ((2 * x - size) * one_units) / inject_Z size))%Q).
    { rewrite Z.mul_opp_l, inject_Z_opp. unfold Qdiv. ring. }
    rewrite (rnd_comp E), rnd_opp.
    apply Z.abs_neq. rewrite <- R0. apply rnd_mono.
    apply Qle_shift_div_r; [now apply inject_Z_pos|].
    rewrite Qmult_0_l. change 0%Q with (inject_Z 0). rewrite <- Zle_Qle. nia.
Qed.

Lemma coord_abs_mono (size x x' : Z) :
  0 < size -> Z.abs (2 * x' - size) <= Z.abs (2 * x - size) ->
  Z.abs (coord size x') <= Z.abs (coord size x).
Proof.
  intros Hs H. rewrite !coord_abs by assumption. pose proof one_units_pos.
  apply rnd_mono. quot_le.
Qed.

Lemma coord_first (size : Z) : 0 < size -> coord size 0 = - one_units.
Proof.
  intros Hs. unfold coord.
  assert (E : (inject_Z ((2 * 0 - size) * one_units) / inject_Z size
               == inject_Z (- one_units))%Q).
  { replace ((2 * 0 - size) * one_units) with (size * - one_units) by ring.
    rewrite inject_Z_mult. field. intros E. change 0%Q with (inject_Z 0) in E.
    apply (proj1 (inject_Z_injective _ _)) in E. lia. }
  rewrite (rnd_comp E). exact rnd_neg_one_units.
Qed.

Lemma rnd_below_one : rnd (inject_Z below_one) = below_one.
Proof. vm_compute. reflexivity. Qed.

Lemma rnd_neg_below_one : rnd (inject_Z (- below_one)) = - below_one.
Proof. vm_compute. reflexivity. Qed.

Lemma below_one_lt : 0 < below_one < one_units.
Proof. vm_compute. split; reflexivity. Qed.

Lemma one_units_split : one_units = 2 ^ 52 * 2 ^ 1022.
Proof. reflexivity. Qed.

(** Indices from 1 to [size - 1] stay one step of the grid away from -1
    and 1. *)
Lemma coord_inner (size x : Z) :
  0 < size < 2 ^ 53 -> 1 <= x <= size - 1 ->
  - below_one <= coord size x <= below_one.
Proof.
  intros Hs Hx. unfold coord.
  assert (Hh : 0 < 2 ^ 1022) by (apply pow2_pos; lia).
  assert (Hlo : (inject_Z (- below_one)
                 <= inject_Z ((2 * x - size) * one_units) / inject_Z size)%Q).
  { apply Qle_shift_div_l; [apply inject_Z_pos; lia|].
    rewrite <- inject_Z_mult, <- Zle_Qle.
    unfold below_one. rewrite one_units_split.
    change (2 ^ 52) with 4503599627370496.
    change (2 ^ 53) with 9007199254740992 in Hs.
    generalize dependent (2 ^ 1022). intros h Hh. nia. }
  assert (Hhi : (inject_Z ((2 * x - size) * one_units) / inject_Z size
                 <= inject_Z below_one)%Q).
  { apply Qle_shift_div_r; [apply inject_Z_pos; lia|].
    rewrite <- inject_Z_mult, <- Zle_Qle.
    unfold below_one. rewrite one_units_split.
    change (2 ^ 52) with 4503599627370496.
    change (2 ^ 53) with 9007199254740992 in Hs.
    generalize dependent (2 ^ 1022). intros h Hh. nia. }
  apply rnd_mono in Hlo, Hhi.
  rewrite rnd_neg_below_one in Hlo. rewrite rnd_below_one in Hhi. lia.
Qed.

Lemma ratio_units_mono (a a' w w' : Z) :
  0 <= a <= a' -> 0 < w' <= w -> ratio_units a w <= ratio_units a' w'.
Proof.
  intros Ha Hw. unfold ratio_units. pose proof one_units_pos.
  apply rnd_mono.
  apply Qle_shift_div_r; [apply inject_Z_pos; lia|].
  unfold Qdiv. rewrite <- Qmult_assoc, (Qmult_comm (/ _)), Qmult_assoc.
  apply Qle_shift_div_l; [apply inject_Z_pos; lia|].
  rewrite <- !inject_Z_mult, <- Zle_Qle.
  assert (a * w' <= a' * w) by nia.
  replace (a * one_units * w') with (one_units * (a * w')) by ring.
  replace (a' * one_units * w) with (one_units * (a' * w)) by ring.
  apply Z.mul_le_mono_nonneg_l; lia.
Qed.

(** *** When a shade is transparent, opaque, navy *)

Lemma shade_opaque_iff (a q : Z) :
  shade a q <> [0; 0; 0; 0]
  <-> - c085 <= q <= c085 /\ a <= max_x_units (progress_units q).
Proof.
  unfold shade. cbv zeta.
  destruct (Z.ltb_spec q (- c085)); cbn [orb];
    [split; [intros N; now contradict N | lia]|].
  destruct (Z.ltb_spec c085 q); cbn [orb];
    [split; [intros N; now contradict N | lia]|].
  destruct (Z.ltb_spec (max_x_units (progress_units q)) a);
    [split; [intros N; now contradict N | lia]|].
  split; [lia|]. intros _.
  destruct (_ || _ || _); discriminate.
Qed.

Lemma shade_navy_iff (a q : Z) :
  shade a q = [30; 58; 95; 255]
  <-> - c085 <= q <= c085
      /\ a <= max_x_units (progress_units q)
      /\ ratio_units a (max_x_units (progress_units q)) <= c085
      /\ c005 <= progress_units q <= c095.
Proof.
  unfold shade. cbv zeta.
  destruct (Z.ltb_spec q (- c085)); cbn [orb]; [split; [discriminate | lia]|].
  destruct (Z.ltb_spec c085 q); cbn [orb]; [split; [discriminate | lia]|].
  destruct (Z.ltb_spec (max_x_units (progress_units q)) a);
    [split; [discriminate | lia]|].
  destruct (Z.ltb_spec c085 (ratio_units a (max_x_units (progress_units q))));
    cbn [orb]; [split; [discriminate | lia]|].
  destruct (Z.ltb_spec (progress_units q) c005);
    cbn [orb]; [split; [discriminate | lia]|].
  destruct (Z.ltb_spec c095 (progress_units q));
    cbn [orb]; [split; [discriminate | lia]|].
  split; [lia | reflexivity].
Qed.

Lemma shade_beyond (a q : Z) : c075 < a -> shade a q = [0; 0; 0; 0].
Proof.
  intros Ha. unfold shade. cbv zeta.
  destruct (Z.ltb_spec q (- c085)); cbn [orb]; [reflexivity|].
  destruct (Z.ltb_spec c085 q); cbn [orb]; [reflexivity|].
  destruct (@progress_units_ok q ltac:(lia)) as [_ Hp].
  destruct (max_x_units_ok Hp) as [_ Hw].
  now rewrite (proj2 (Z.ltb_lt _ _)) by lia.
Qed.

Lemma shade_outside (a q : Z) : q < - c085 \/ c085 < q -> shade a q = [0; 0; 0; 0].
Proof.
  intros Hq. unfold shade.
  destruct (Z.ltb_spec q (- c085)); cbn [orb]; [reflexivity|].
  destruct (Z.ltb_spec c085 q); cbn [orb]; [reflexivity | lia].
Qed.

Lemma Qdiv_cross (a b c d : Z) :
  0 < b -> 0 < d -> a * d <= c * b ->
  (inject_Z a / inject_Z b <= inject_Z c / inject_Z d)%Q.
Proof.
  intros Hb Hd H.
  apply Qle_shift_div_r; [now apply inject_Z_pos|].
  unfold Qdiv. rewrite <- Qmult_assoc, (Qmult_comm (/ _)), Qmult_assoc.
  apply Qle_shift_div_l; [now apply inject_Z_pos|].
  now rewrite <- !inject_Z_mult, <- Zle_Qle.
Qed.

Lemma coord_last (size : Z) : 14 <= size -> coord_12_14 <= coord size (size - 1).
Proof.
  intros Hs. unfold coord, coord_12_14. pose proof one_units_pos.
  apply rnd_mono, Qdiv_cross; [lia | lia | nia].
Qed.

Lemma coord_12_14_gt : c085 < coord_12_14.
Proof. vm_compute. reflexivity. Qed.

Lemma c075_lt_c085 : c075 < c085.
Proof. vm_compute. reflexivity. Qed.

Lemma coord_third (size x : Z) :
  0 < size -> 3 * Z.abs (2 * x - size) <= size -> Z.abs (coord size x) <= third.
Proof.
  intros Hs H. rewrite coord_abs by assumption. unfold third.
  pose proof one_units_pos.
  apply rnd_mono, Qdiv_cross; [lia | lia | nia].
Qed.

(** The shade at one third of the half-size, the corner of the core. *)
Lemma third_facts :
  0 <= third < c085
  /\ c005 <= progress_units (- third)
  /\ progress_units third <= c095
  /\ third <= max_x_units (progress_units third)
  /\ ratio_units third (max_x_units (progress_units third)) <= c085.
Proof. vm_compute. repeat split; discriminate. Qed.

Lemma above_gt : c075 < above_075 /\ c085 < above_085.
Proof. vm_compute. split; reflexivity. Qed.

Lemma coord_beyond_075 (size x : Z) :
  0 < size <= 2 ^ 49 -> 3 * size < 4 * Z.abs (2 * x - size) ->
  c075 < Z.abs (coord size x).
Proof.
  intros Hs H. rewrite coord_abs by lia. pose proof one_units_pos.
  destruct above_gt as [G _].
  enough (above_075 <= rnd (inject_Z (Z.abs (2 * x - size) * one_units)
                            / inject_Z size)) by lia.
  unfold above_075. apply rnd_mono, Qdiv_cross; [lia | lia |].
  change (2 ^ 49) with 562949953421312 in *.
  set (k := Z.abs (2 * x - size)) in *. nia.
Qed.

Lemma coord_beyond_085 (size y : Z) :
  0 < size <= 2 ^ 49 -> 17 * size < 20 * Z.abs (2 * y - size) ->
  c085 < Z.abs (coord size y).
Proof.
  intros Hs H. rewrite coord_abs by lia. pose proof one_units_pos.
  destruct above_gt as [_ G].
  enough (above_085 <= rnd (inject_Z (Z.abs (2 * y - size) * one_units)
                            / inject_Z size)) by lia.
  unfold above_085. apply rnd_mono, Qdiv_cross; [lia | lia |].
  change (2 ^ 49) with 562949953421312 in *.
  set (k := Z.abs (2 * y - size)) in *. nia.
Qed.

Lemma progress_ends :
  progress_units (- c085) = 0 /\ progress_units c085 = one_units.
Proof. vm_compute. split; reflexivity. Qed.

End ShapeFacts.

(** ** The shape of the shield *)

Module ShapeSpec.
Import Icon IconFacts IconTotal FloatFacts Rounding Constants RasterizerSpec.
Import Shape ShapeFacts.

(** X1: lines 13-14.  For every size below [2^53] and every index [x] of a
    column or row, the normalized coordinate [(x - size/2) / (size/2)] is a
    finite double in [[-1, 1)]: it is -1 exactly at index 0 and never
    reaches 1. *)
Theorem normalized_range (size x : Z) (cx nx : float) :
  0 < size < 2 ^ 53 -> 0 <= x < size ->
  int_truediv size 2 = inr cx -> normalized x cx size = inr nx ->
  exists u, nx = Fin u /\ - one_units <= u < one_units
            /\ (u = - one_units <-> x = 0).
Proof.
  intros Hs Hx Hcx Hn.
  rewrite int_truediv_2_exact in Hcx by lia.
  assert (cx = Fin (size * 2 ^ 1073)) by congruence. subst cx.
  rewrite normalized_coord in Hn by lia. injection Hn as <-.
  exists (coord size x). split; [reflexivity|].
  pose proof below_one_lt.
  destruct (Z.eq_dec x 0) as [->|Hx0].
  - rewrite coord_first by lia. lia.
  - pose proof (@coord_inner size x Hs ltac:(lia)). lia.
Qed.

Lemma rasterize_2 : rasterize 2 = inr img2.
Proof. vm_compute. reflexivity. Qed.

Lemma rasterize_4 : rasterize 4 = inr img4.
Proof. vm_compute. reflexivity. Qed.

Lemma normalized_range_witness :
  exists u, Fin 0 = Fin u /\ - one_units <= u < one_units
            /\ (u = - one_units <-> 1 = 0).
Proof.
  apply (@normalized_range 2 1 (Fin one_units) (Fin 0));
    [lia | lia | vm_compute; reflexivity | vm_compute; reflexivity].
Defined.

(** X2: the first row and the first column of every icon are fully
    transparent; from size 14 on, so are the last row and the last
    column. *)
Theorem transparent_frame (size : Z) (img : list (list byte)) (x y : Z) :
  0 < size < 2 ^ 53 -> rasterize size = inr img ->
  0 <= x < size -> 0 <= y < size ->
  x = 0 \/ y = 0 \/ (14 <= size /\ (x = size - 1 \/ y = size - 1)) ->
  pixel_at img x y = Some (0, 0, 0, 0).
Proof.
  intros Hs Hr Hx Hy Hedge.
  apply (pixel_at_shade_iff Hs Hr Hx Hy).
  pose proof c085_lt_one. pose proof c075_lt_c085. pose proof coord_12_14_gt.
  pose proof c085_pos.
  destruct Hedge as [-> | [-> | [H14 [-> | ->]]]].
  - apply shade_beyond. rewrite coord_first by lia. lia.
  - apply shade_outside. rewrite coord_first by lia. lia.
  - apply shade_beyond. pose proof (coord_last H14). lia.
  - apply shade_outside. pose proof (coord_last H14). lia.
Qed.

Lemma transparent_frame_witness :
  pixel_at img2 0 1 = Some (0, 0, 0, 0).
Proof.
  apply (@transparent_frame 2 img2 0 1);
    [lia | exact rasterize_2 | lia | lia | now left].
Defined.

(** X3: the middle of the icon is solid navy: every pixel whose column and
    row are within a third of the half-size of the centre
    ([3 |2x - size| <= size], and likewise for [y]) is (30,58,95,255). *)
Theorem navy_core (size : Z) (img : list (list byte)) (x y : Z) :
  0 < size < 2 ^ 53 -> rasterize size = inr img ->
  0 <= x < size -> 0 <= y < size ->
  3 * Z.abs (2 * x - size) <= size -> 3 * Z.abs (2 * y - size) <= size ->
  pixel_at img x y = Some (30, 58, 95, 255).
Proof.
  intros Hs Hr Hx Hy Cx Cy.
  apply (pixel_at_shade_iff Hs Hr Hx Hy), shade_navy_iff.
  pose proof (@coord_third size x ltac:(lia) Cx) as Ha.
  pose proof (@coord_third size y ltac:(lia) Cy) as Hq.
  destruct third_facts as [T0 [T1 [T2 [T3 T4]]]].
  set (a := Z.abs (coord size x)) in *.
  set (q := coord size y) in *.
  assert (Hq' : - third <= q <= third) by lia.
  assert (Hp1 : progress_units (- third) <= progress_units q)
    by (apply progress_units_mono; lia).
  assert (Hp2 : progress_units q <= progress_units third)
    by (apply progress_units_mono; lia).
  destruct (@progress_units_ok q ltac:(lia)) as [_ Hp].
  destruct (@progress_units_ok third ltac:(lia)) as [_ Hpt].
  pose proof (@max_x_units_antitone (progress_units q) (progress_units third)
                ltac:(lia) Hp2 ltac:(lia)) as Hw.
  assert (Ha0 : 0 <= a) by (unfold a; lia).
  destruct (max_x_units_ok Hpt) as [_ Hwt]. pose proof min_half_width_pos.
  split; [lia|]. split; [lia|]. split; [|lia].
  etransitivity; [|exact T4].
  apply ratio_units_mono; lia.
Qed.

Lemma navy_core_witness :
  pixel_at img2 1 1 = Some (30, 58, 95, 255).
Proof.
  apply (@navy_core 2 img2 1 1);
    [lia | exact rasterize_2 | lia | lia | cbn; lia | cbn; lia].
Defined.

(** X4: in every row the shield is an interval of columns centred on
    [x = size/2], and so is its navy part: a pixel no farther from the
    centre column than an opaque pixel of the same row is opaque, and one no
    farther than a navy pixel is navy. *)
Theorem row_nested (size : Z) (img : list (list byte)) (x x' y : Z) :
  0 < size < 2 ^ 53 -> rasterize size = inr img ->
  0 <= x < size -> 0 <= x' < size -> 0 <= y < size ->
  Z.abs (2 * x' - size) <= Z.abs (2 * x - size) ->
  (pixel_at img x y <> Some (0, 0, 0, 0) -> pixel_at img x' y <> Some (0, 0, 0, 0))
  /\ (pixel_at img x y = Some (30, 58, 95, 255)
      -> pixel_at img x' y = Some (30, 58, 95, 255)).
Proof.
  intros Hs Hr Hx Hx' Hy Hc.
  pose proof (@coord_abs_mono size x x' ltac:(lia) Hc) as Ha.
  pose proof (pixel_at_shade_iff Hs Hr Hx Hy) as P.
  pose proof (pixel_at_shade_iff Hs Hr Hx' Hy) as P'.
  set (a := Z.abs (coord size x)) in *.
  set (a' := Z.abs (coord size x')) in *.
  set (q := coord size y) in *.
  assert (Ha0 : 0 <= a') by (unfold a'; lia).
  split.
  - intros Hop N. apply P' in N.
    assert (Hs0 : shade a q <> [0; 0; 0; 0]) by (intros E; now apply Hop, P).
    apply shade_opaque_iff in Hs0.
    revert N. apply shade_opaque_iff. lia.
  - intros Hnavy. apply P in Hnavy. apply P'.
    apply shade_navy_iff in Hnavy as [Hq [Hin [Hrat Hp]]].
    apply shade_navy_iff.
    destruct (@progress_units_ok q Hq) as [_ Hpb].
    destruct (max_x_units_ok Hpb) as [_ Hw].
    pose proof min_half_width_pos.
    split; [lia|]. split; [lia|]. split; [|lia].
    etransitivity; [|exact Hrat].
    apply ratio_units_mono; lia.
Qed.

Lemma row_nested_witness :
  pixel_at img4 3 2 = Some (30, 58, 95, 255)
  /\ (pixel_at img4 3 2 <> Some (0, 0, 0, 0) -> pixel_at img4 2 2 <> Some (0, 0, 0, 0))
  /\ (pixel_at img4 3 2 = Some (30, 58, 95, 255)
      -> pixel_at img4 2 2 = Some (30, 58, 95, 255)).
Proof.
  split; [reflexivity|].
  apply (@row_nested 4 img4 3 2 2);
    [lia | exact rasterize_4 | lia | lia | lia | cbn; lia].
Defined.

(** X5: the shield never widens downwards.  If row [y0] meets the shield
    (it has an opaque pixel) and column [x] is opaque in a row [y'] below
    it, then column [x] is opaque in every row from [y0] to [y']; the same
    holds with navy in place of opaque.  In particular every column of the
    shield is an interval of rows. *)
Theorem rows_never_widen (size : Z) (img : list (list byte)) (x x0 y0 y y' : Z) :
  0 < size < 2 ^ 53 -> rasterize size = inr img ->
  0 <= x < size -> 0 <= x0 < size ->
  0 <= y0 -> y0 <= y -> y <= y' -> y' < size ->
  (pixel_at img x0 y0 <> Some (0, 0, 0, 0)
   -> pixel_at img x y' <> Some (0, 0, 0, 0)
   -> pixel_at img x y <> Some (0, 0, 0, 0))
  /\ (pixel_at img x0 y0 = Some (30, 58, 95, 255)
      -> pixel_at img x y' = Some (30, 58, 95, 255)
      -> pixel_at img x y = Some (30, 58, 95, 255)).
Proof.
  intros Hs Hr Hx Hx0 H0 H1 H2 H3.
  pose proof (@pixel_at_shade_iff size img x0 y0 Hs Hr Hx0 ltac:(lia)) as P0.
  pose proof (@pixel_at_shade_iff size img x y' Hs Hr Hx ltac:(lia)) as P'.
  pose proof (@pixel_at_shade_iff size img x y Hs Hr Hx ltac:(lia)) as P.
  pose proof (@coord_mono size y0 y ltac:(lia) H1) as Q1.
  pose proof (@coord_mono size y y' ltac:(lia) H2) as Q2.
  set (a := Z.abs (coord size x)) in *.
  set (a0 := Z.abs (coord size x0)) in *.
  set (q0 := coord size y0) in *.
  set (q := coord size y) in *.
  set (q' := coord size y') in *.
  assert (Ha0 : 0 <= a) by (unfold a; lia).
  assert (Hmono : - c085 <= q0 -> q' <= c085 ->
                  - c085 <= q <= c085
                  /\ progress_units q0 <= progress_units q <= progress_units q'
                  /\ 0 < max_x_units (progress_units q')
                     <= max_x_units (progress_units q)).
  { intros L U.
    destruct (@progress_units_ok q ltac:(lia)) as [_ Hp].
    destruct (@progress_units_ok q' ltac:(lia)) as [_ Hp'].
    destruct (max_x_units_ok Hp') as [_ Hw'].
    pose proof min_half_width_pos.
    pose proof (progress_units_mono Q1). pose proof (progress_units_mono Q2).
    pose proof (@max_x_units_antitone (progress_units q) (progress_units q')
                  ltac:(lia) ltac:(lia) ltac:(lia)).
    lia. }
  split.
  - intros Hop0 Hop' N. apply P in N.
    assert (S0 : shade a0 q0 <> [0; 0; 0; 0]) by (intros E; now apply Hop0, P0).
    assert (S' : shade a q' <> [0; 0; 0; 0]) by (intros E; now apply Hop', P').
    apply shade_opaque_iff in S0 as [Hq0 _].
    apply shade_opaque_iff in S' as [Hq' Hin].
    revert N. apply shade_opaque_iff.
    destruct Hmono as [? [? ?]]; lia.
  - intros N0 N'. apply P0 in N0. apply P' in N'. apply P.
    apply shade_navy_iff in N0 as [Hq0 [_ [_ Hp0]]].
    apply shade_navy_iff in N' as [Hq' [Hin [Hrat Hp']]].
    apply shade_navy_iff.
    destruct Hmono as [? [? ?]]; try lia.
    split; [lia|]. split; [lia|]. split; [|lia].
    etransitivity; [|exact Hrat].
    apply ratio_units_mono; lia.
Qed.

Lemma rows_never_widen_witness :
  pixel_at img4 3 1 = Some (30, 58, 95, 255)
  /\ pixel_at img4 2 3 = Some (30, 58, 95, 255)
  /\ (pixel_at img4 3 1 <> Some (0, 0, 0, 0)
      -> pixel_at img4 2 3 <> Some (0, 0, 0, 0)
      -> pixel_at img4 2 2 <> Some (0, 0, 0, 0))
  /\ (pixel_at img4 3 1 = Some (30, 58, 95, 255)
      -> pixel_at img4 2 3 = Some (30, 58, 95, 255)
      -> pixel_at img4 2 2 = Some (30, 58, 95, 255)).
Proof.
  split; [reflexivity|]. split; [reflexivity|].
  apply (@rows_never_widen 4 img4 2 3 1 2 3);
    [lia | exact rasterize_4 | lia | lia | lia | lia | lia | lia].
Defined.

(** X6: lines 25-29.  For [progress] in [[0, 1]] the half-width [max_x] is
    a positive finite double, at most 0.75, equal to 0.75 while
    [progress < 0.6], and it never grows when [progress] grows, every
    rounding of the computation included. *)
Theorem max_x_never_grows (p p' : Z) :
  0 <= p -> p <= p' -> p' <= one_units ->
  exists w w',
    max_x_of (Fin p) = inr (Fin w) /\ max_x_of (Fin p') = inr (Fin w')
    /\ 0 < w' /\ w' <= w /\ w <= c075
    /\ (p < c06 -> w = c075).
Proof.
  intros H0 H H1.
  destruct (@max_x_units_ok p ltac:(lia)) as [E Hw].
  destruct (@max_x_units_ok p' ltac:(lia)) as [E' Hw'].
  pose proof (max_x_units_antitone H0 H H1).
  pose proof min_half_width_pos.
  exists (max_x_units p), (max_x_units p').
  split; [exact E|]. split; [exact E'|].
  split; [lia|]. split; [lia|]. split; [lia|].
  intros Hlt. unfold max_x_units. now rewrite (proj2 (Z.ltb_lt _ _) Hlt).
Qed.

Lemma max_x_never_grows_witness :
  exists w w',
    max_x_of (Fin 0) = inr (Fin w) /\ max_x_of (Fin one_units) = inr (Fin w')
    /\ 0 < w' /\ w' <= w /\ w <= c075
    /\ (0 < c06 -> w = c075).
Proof.
  apply (@max_x_never_grows 0 one_units);
    [lia | exact (Z.lt_le_incl _ _ one_units_pos) | lia].
Defined.

(** X7: for sizes up to [2^49] every opaque pixel lies in the box
    [|2x - size| / size <= 3/4], [|2y - size| / size <= 17/20]: no rounding
    of the float computation lets a pixel that is outside [|nx| <= 0.75],
    [|ny| <= 0.85] in exact arithmetic into the shield. *)
Theorem shield_bounding_box (size : Z) (img : list (list byte)) (x y : Z) :
  0 < size <= 2 ^ 49 -> rasterize size = inr img ->
  0 <= x < size -> 0 <= y < size ->
  pixel_at img x y <> Some (0, 0, 0, 0) ->
  4 * Z.abs (2 * x - size) <= 3 * size
  /\ 20 * Z.abs (2 * y - size) <= 17 * size.
Proof.
  intros Hs Hr Hx Hy Hop.
  assert (Hs53 : 0 < size < 2 ^ 53).
  { assert (2 ^ 49 < 2 ^ 53) by reflexivity. lia. }
  pose proof (pixel_at_shade_iff Hs53 Hr Hx Hy) as P.
  assert (S0 : shade (Z.abs (coord size x)) (coord size y) <> [0; 0; 0; 0])
    by (intros E; now apply Hop, P).
  apply shade_opaque_iff in S0 as [Hq Ha].
  destruct (@progress_units_ok (coord size y) Hq) as [_ Hp].
  destruct (max_x_units_ok Hp) as [_ Hw].
  split.
  - destruct (Z_le_gt_dec (4 * Z.abs (2 * x - size)) (3 * size)) as [|Hgt];
      [assumption|].
    pose proof (@coord_beyond_075 size x Hs ltac:(lia)). lia.
  - destruct (Z_le_gt_dec (20 * Z.abs (2 * y - size)) (17 * size)) as [|Hgt];
      [assumption|].
    pose proof (@coord_beyond_085 size y Hs ltac:(lia)). lia.
Qed.

Lemma shield_bounding_box_witness :
  4 * Z.abs (2 * 1 - 2) <= 3 * 2 /\ 20 * Z.abs (2 * 1 - 2) <= 17 * 2.
Proof.
  apply (@shield_bounding_box 2 img2 1 1);
    [split; [lia | discriminate] | exact rasterize_2 | lia | lia | discriminate].
Defined.

(** X8: line 24.  For [ny] between [shield_top] and [shield_bottom],
    [progress] is a finite double in [[0, 1]] that grows with [ny]; it is
    exactly 0.0 at [shield_top] and exactly 1.0 at [shield_bottom]. *)
Theorem progress_unit_interval (q q' : Z) :
  fle shield_top (Fin q) = true -> fle (Fin q) (Fin q') = true ->
  fle (Fin q') shield_bottom = true ->
  exists p p',
    progress_of (Fin q) = inr (Fin p) /\ progress_of (Fin q') = inr (Fin p')
    /\ 0 <= p /\ p <= p' /\ p' <= one_units
    /\ progress_of shield_top = inr (Fin 0)
    /\ progress_of shield_bottom = inr (Fin one_units).
Proof.
  rewrite shield_top_val, shield_bottom_val. cbn [fle].
  intros H1 H2 H3. apply Z.leb_le in H1, H2, H3.
  pose proof c085_pos.
  destruct (@progress_units_ok q ltac:(lia)) as [E Hp].
  destruct (@progress_units_ok q' ltac:(lia)) as [E' Hp'].
  destruct (@progress_units_ok (- c085) ltac:(lia)) as [Et _].
  destruct (@progress_units_ok c085 ltac:(lia)) as [Eb _].
  destruct progress_ends as [P0 P1]. rewrite P0 in Et. rewrite P1 in Eb.
  pose proof (progress_units_mono H2).
  exists (progress_units q), (progress_units q').
  exact (conj E (conj E' (conj (proj1 Hp) (conj H0 (conj (proj2 Hp')
           (conj Et Eb)))))).
Qed.

Lemma progress_unit_interval_witness :
  exists p p',
    progress_of (Fin 0) = inr (Fin p) /\ progress_of (Fin 0) = inr (Fin p')
    /\ 0 <= p /\ p <= p' /\ p' <= one_units
    /\ progress_of shield_top = inr (Fin 0)
    /\ progress_of shield_bottom = inr (Fin one_units).
Proof.
  apply (@progress_unit_interval 0 0); vm_compute; reflexivity.
Defined.

End ShapeSpec.

(** ** The whole function *)

Module WholeFunction.
Import Icon IconFacts IconTotal Constants.
Import Png PngSpec PngFacts Stored StoredFacts PngReader.

Lemma chunk_length (tag data : list byte) :
  length (chunk tag data) = (length tag + length data + 8)%nat.
Proof. unfold chunk. rewrite !length_app, !be32_length. lia. Qed.

(** X9: [make_chunk] raises [struct.error] exactly when the data is [2^32]
    bytes or longer, the length not fitting ['>I']; the CRC never makes it
    raise.  Otherwise it returns length, type, data and CRC, eight bytes
    more than type and data together, and the first four bytes read back as
    the length of the data. *)
Theorem make_chunk_frame (chunk_type data : list byte) :
  make_chunk chunk_type data
  = (if Z.of_nat (length data) <? 2 ^ 32
     then inr (be32 (Z.of_nat (length data)) ++ chunk_type ++ data
               ++ be32 (crc32 (chunk_type ++ data)))
     else inl StructError)
  /\ (forall out, make_chunk chunk_type data = inr out ->
        length out = (length chunk_type + length data + 8)%nat
        /\ be_value (firstn 4 out) = Z.of_nat (length data)).
Proof.
  rewrite make_chunk_chunk. split; [reflexivity|].
  destruct (Z.ltb_spec (Z.of_nat (length data)) (2 ^ 32)) as [Hlt|]; [|discriminate].
  intros out [= <-]. split; [apply chunk_length|].
  unfold chunk. rewrite (@firstn_exact _ (be32 _) _ 4 eq_refl).
  apply be_value_be32. lia.
Qed.

Lemma layout_length (compress : list byte -> list byte) (size : Z)
      (img : list (list byte)) :
  Z.of_nat (length (layout compress size img))
  = 57 + Z.of_nat (length (compress (scanlines img))).
Proof.
  unfold layout. rewrite !length_app, !chunk_length, ihdr_data_length.
  cbn [length signature IHDR IDAT IEND]. lia.
Qed.

Lemma bytes_eqb_refl (a : list byte) : bytes_eqb a a = true.
Proof. unfold bytes_eqb. destruct (list_eq_dec _ a a); congruence. Qed.

Lemma decode_layout (compress : list byte -> list byte)
      (decompress : list byte -> option (list byte))
      (size : Z) (img : list (list byte)) :
  (forall raw, decompress (compress raw) = Some raw) ->
  0 <= size < 2 ^ 32 -> image size size img ->
  Z.of_nat (length (compress (scanlines img))) < 2 ^ 32 ->
  decode decompress (layout compress size img) = Some (size, size, img).
Proof.
  intros Hinv Hs Himg Hlen. unfold decode.
  rewrite (@EncoderSpec.read_layout compress size img Hlen).
  rewrite !bytes_eqb_refl. cbn [andb].
  assert (E4 : firstn 4 (ihdr_data size size) = be32 size) by reflexivity.
  assert (E44 : firstn 4 (skipn 4 (ihdr_data size size)) = be32 size) by reflexivity.
  rewrite E4, E44, be_value_be32 by lia.
  rewrite Hinv, (@scanlines_length size size img) by (lia || assumption).
  rewrite Z.eqb_refl. now rewrite (unfilter_scanlines Himg).
Qed.

(** Both loops are empty when [size <= 0]; only [size / 2] is computed. *)
Lemma rasterize_empty (size : Z) :
  size <= 0 ->
  rasterize size
  = if 2 ^ 971 - 2 ^ 1025 <? size then inr [] else inl OverflowError.
Proof.
  intros Hs. rewrite rasterize_rows, (range_nonpos Hs).
  pose proof FloatFacts.one_units_pos. pose proof FloatFacts.max_units_lt.
  pose proof FloatFacts.overflow_units_pos.
  assert (E : 2 ^ 971 - 2 ^ 1025 = - max_dividend - 1) by (vm_compute; reflexivity).
  rewrite E. clear E.
  unfold int_truediv. cbn [Z.eqb].
  destruct (- max_dividend - 1 <? size) eqn:Hlt.
  - destruct (@FloatFacts.round_between (inject_Z (size * one_units) / inject_Z 2)
                (inject_Z (- max_dividend * one_units) / inject_Z 2)
                (inject_Z (0 * one_units) / inject_Z 2)
                (- max_units) 0) as [u [-> Hu]];
      try lia; [| exact RasterizerSpec.rnd_min_dividend | reflexivity | reflexivity].
    split; (apply FloatFacts.Qdiv_le_pos; [reflexivity | rewrite <- Zle_Qle; nia]).
  - assert (Hle : (inject_Z (size * one_units) / inject_Z 2
                   <= inject_Z ((- max_dividend - 1) * one_units) / inject_Z 2)%Q).
    { apply FloatFacts.Qdiv_le_pos; [reflexivity | rewrite <- Zle_Qle; nia]. }
    apply Rounding.rnd_mono in Hle.
    rewrite RasterizerSpec.rnd_below_min_dividend in Hle.
    unfold round, mk.
    replace (Z.abs _ <? overflow_units) with false by lia.
    reflexivity.
Qed.

Section Compressor.

Variable compress : list byte -> list byte.
Variable decompress : list byte -> option (list byte).

Hypothesis inflate_deflate : forall raw, decompress (compress raw) = Some raw.
Hypothesis compress_bound :
  forall raw,
    Z.of_nat (length (compress raw)) <= compressBound (Z.of_nat (length raw)).

Lemma compressBound_ge (n : Z) : 0 <= n -> n <= compressBound n.
Proof.
  intros Hn. unfold compressBound.
  pose proof (Z.shiftr_nonneg n 12). pose proof (Z.shiftr_nonneg n 14).
  pose proof (Z.shiftr_nonneg n 25). lia.
Qed.

(** The whole function returns whenever zlib's bound on the compressed
    scanlines fits the length field of a chunk. *)
Lemma create_png_icon_layout (size : Z) :
  0 < size -> compressBound (size * (1 + size * 4)) < 2 ^ 32 ->
  exists img,
    rasterize size = inr img
    /\ image size size img
    /\ size < 2 ^ 32
    /\ Z.of_nat (length (compress (scanlines img))) < 2 ^ 32
    /\ create_png_icon compress size = inr (layout compress size img).
Proof.
  intros Hs Hb.
  pose proof (@compressBound_ge (size * (1 + size * 4)) ltac:(nia)) as Hge.
  assert (Hs32 : size < 2 ^ 32) by nia.
  destruct (@rasterize_ok size) as [img Himg].
  { split; [lia|]. assert (2 ^ 32 <= max_int + 1) by (vm_compute; discriminate). lia. }
  pose proof (rasterize_shape _ Himg) as Hshape.
  assert (Hraw : Z.of_nat (length (scanlines img)) = size * (1 + size * 4))
    by (apply scanlines_length; [lia | lia | exact Hshape]).
  assert (Hlen : Z.of_nat (length (compress (scanlines img))) < 2 ^ 32).
  { pose proof (compress_bound (scanlines img)) as H. rewrite Hraw in H. lia. }
  exists img.
  split; [exact Himg|]. split; [exact Hshape|]. split; [exact Hs32|].
  split; [exact Hlen|].
  unfold create_png_icon. rewrite Himg. mstep.
  rewrite EncoderSpec.encode_layout by lia.
  now rewrite (proj2 (Z.ltb_lt _ _) Hs32), (proj2 (Z.ltb_lt _ _) Hlen).
Qed.

(** X10: the whole function, for a compressor that inflates back to its
    input and stays within zlib's bound.  For every positive size whose
    scanlines have a bound below [2^32], [create_png_icon] raises nothing;
    the file has 57 bytes besides the compressed data; and reading the file
    back (header, IDAT inflated, filter bytes dropped) gives [size], [size]
    and exactly the image the loops rasterized. *)
Theorem create_png_icon_decodes (size : Z) :
  0 < size -> compressBound (size * (1 + size * 4)) < 2 ^ 32 ->
  exists img file,
    rasterize size = inr img
    /\ create_png_icon compress size = inr file
    /\ Z.of_nat (length file) = 57 + Z.of_nat (length (compress (scanlines img)))
    /\ decode decompress file = Some (size, size, img).
Proof.
  intros Hs Hb.
  destruct (create_png_icon_layout Hs Hb) as [img [Himg [Hshape [Hs32 [Hlen Hfile]]]]].
  exists img, (layout compress size img).
  split; [exact Himg|]. split; [exact Hfile|].
  split; [apply layout_length|].
  apply decode_layout; [exact inflate_deflate | lia | exact Hshape | exact Hlen].
Qed.

(** X11: no size is rejected before the work starts.  For size 0 the
    function returns a file whose header declares an image of 0 by 0 pixels
    and whose IDAT is the compression of no bytes.  For a negative size the
    loops do nothing and packing the header raises [struct.error]; below
    [-(2^1025 - 2^971)] it is [size / 2] that raises [OverflowError]. *)
Theorem create_png_icon_nonpositive (size : Z) :
  size <= 0 ->
  create_png_icon compress size
  = if size =? 0 then inr (layout compress 0 [])
    else if 2 ^ 971 - 2 ^ 1025 <? size then inl StructError
         else inl OverflowError.
Proof.
  intros Hs. unfold create_png_icon.
  rewrite rasterize_empty by assumption.
  destruct (Z.eqb_spec size 0) as [->|Hn].
  - assert (E : (2 ^ 971 - 2 ^ 1025 <? 0) = true) by (vm_compute; reflexivity).
    rewrite E. mstep. unfold encode.
    rewrite pack_ihdr_data.
    change ((0 <=? 0) && (0 <? 2 ^ 32) && ((0 <=? 0) && (0 <? 2 ^ 32))) with true.
    mstep. rewrite !make_chunk_chunk, ihdr_data_length.
    change (Z.of_nat 13 <? 2 ^ 32) with true. mstep.
    pose proof (compress_bound (scanlines [])) as Hb.
    change (compressBound (Z.of_nat (length (scanlines [])))) with 13 in Hb.
    rewrite (proj2 (Z.ltb_lt (Z.of_nat (length (compress (scanlines [])))) (2 ^ 32)))
      by (change (2 ^ 32) with 4294967296; lia).
    mstep. change (Z.of_nat (length []) <? 2 ^ 32) with true. mstep.
    unfold ok, layout. now rewrite <- !app_assoc.
  - destruct (2 ^ 971 - 2 ^ 1025 <? size); [|reflexivity].
    mstep. unfold encode. rewrite pack_ihdr_data.
    now rewrite (proj2 (Z.leb_gt 0 size)) by lia.
Qed.

End Compressor.

Lemma create_png_icon_decodes_witness :
  exists img file,
    rasterize 2 = inr img
    /\ create_png_icon zlib_store 2 = inr file
    /\ Z.of_nat (length file) = 57 + Z.of_nat (length (zlib_store (scanlines img)))
    /\ decode zlib_load file = Some (2, 2, img).
Proof.
  apply (@create_png_icon_decodes zlib_store zlib_load zlib_load_store
           zlib_store_bound 2); [lia | reflexivity].
Defined.

Lemma create_png_icon_nonpositive_witness :
  create_png_icon zlib_store (-3)
  = if -3 =? 0 then inr (layout zlib_store 0 [])
    else if 2 ^ 971 - 2 ^ 1025 <? -3 then inl StructError
         else inl OverflowError.
Proof.
  apply (@create_png_icon_nonpositive zlib_store zlib_store_bound (-3)). lia.
Defined.

End WholeFunction.

(** ** The script: facts *)

Module ScriptFacts.
Import Stdlib.Strings.String Stdlib.Numbers.DecimalString.
Import Icon Png PngSpec Script WholeFunction.

Lemma append_inj_l (s t1 t2 : string) :
  (s ++ t1)%string = (s ++ t2)%string -> t1 = t2.
Proof. induction s as [|c s IH]; cbn; [auto | intros [= H]; auto]. Qed.

Lemma length_append (s t : string) :
  String.length (s ++ t) = (String.length s + String.length t)%nat.
Proof. induction s as [|c s IH]; cbn; [reflexivity | now rewrite IH]. Qed.

Lemma append_inj_r (s1 s2 t : string) :
  (s1 ++ t)%string = (s2 ++ t)%string -> s1 = s2.
Proof.
  revert s2. induction s1 as [|c s1 IH]; intros [|c2 s2] H; cbn in H.
  - reflexivity.
  - apply (f_equal String.length) in H. cbn in H. rewrite length_append in H. lia.
  - apply (f_equal String.length) in H. cbn in H. rewrite length_append in H. lia.
  - injection H as -> H. f_equal. now apply IH.
Qed.

Lemma append_assoc (s t u : string) :
  ((s ++ t) ++ u)%string = (s ++ t ++ u)%string.
Proof. induction s as [|c s IH]; cbn; [reflexivity | now rewrite IH]. Qed.

Lemma append_nil_r (s : string) : (s ++ "")%string = s.
Proof. induction s as [|c s IH]; cbn; [reflexivity | now rewrite IH]. Qed.

Lemma substring_0_0 (s : string) : substring 0 0 s = EmptyString.
Proof. now destruct s. Qed.

Lemma lines_text_app (a b : list string) :
  lines_text (a ++ b) = (lines_text a ++ lines_text b)%string.
Proof.
  induction a as [|x a IH]; cbn [app lines_text]; [reflexivity|].
  now rewrite IH, !append_assoc.
Qed.

Lemma to_int_proper (n : Z) :
  Z.to_int n <> Decimal.Pos Decimal.Nil /\ Z.to_int n <> Decimal.Neg Decimal.Nil.
Proof.
  destruct n as [|p|p]; cbn; split; try discriminate;
    intros [= E]; now apply DecimalPos.Unsigned.to_uint_nonnil in E.
Qed.

(** Different numbers are written differently. *)
Lemma str_inj (a b : Z) : str a = str b -> a = b.
Proof.
  unfold str. intros E.
  destruct (to_int_proper a) as [A1 A2]. destruct (to_int_proper b) as [B1 B2].
  apply (f_equal NilZero.int_of_string) in E.
  rewrite !NilZero.isi in E by assumption.
  injection E as E. now apply DecimalZ.to_int_inj.
Qed.

Lemma icon_path_inj (a b : Z) : icon_path a = icon_path b -> a = b.
Proof.
  unfold icon_path. intros E.
  apply append_inj_l, append_inj_l, append_inj_r in E. now apply str_inj.
Qed.

Lemma read_file_app (path : string) (l fs : list (string * list byte)) :
  read_file path (l ++ fs)
  = match read_file path l with
    | Some data => Some data
    | None => read_file path fs
    end.
Proof.
  induction l as [|[p d] l IH]; cbn [app read_file]; [reflexivity|].
  destruct (String.eqb p path); [reflexivity | exact IH].
Qed.

Section Run.

Variable compress : list byte -> list byte.
Variable env : environment.

Hypothesis compress_bound :
  forall raw,
    Z.of_nat (List.length (compress raw))
    <= compressBound (Z.of_nat (List.length raw)).

Lemma icon_layout (size : Z) :
  fits size ->
  exists img,
    rasterize size = inr img
    /\ create_png_icon compress size = inr (icon compress size)
    /\ icon compress size = layout compress size img.
Proof.
  intros [Hs Hb].
  destruct (@create_png_icon_layout compress compress_bound size Hs Hb)
    as [img [Himg [_ [_ [_ Hfile]]]]].
  exists img. unfold icon. rewrite Hfile. auto.
Qed.

(** The computation of a size that fits raises nothing: what is left is to
    open, write and close. *)
Lemma create_png_icon_file_fits (size : Z) (path : string) (w : world) :
  fits size ->
  create_png_icon_file compress env size path w
  = (open_wb env path ;;; write_close env path (icon compress size)) w.
Proof.
  intros Hf. destruct (icon_layout Hf) as [img [_ [E _]]].
  unfold create_png_icon_file. now rewrite E.
Qed.

Lemma written_cons (size : Z) (l : list Z) :
  written compress (size :: l)
  = (written compress l ++ written compress [size])%list.
Proof.
  unfold written. cbn [flat_map]. rewrite app_nil_r.
  change ([(icon_path size, []); (icon_path size, icon compress size)]
          ++ flat_map (fun s => [(icon_path s, []); (icon_path s, icon compress s)]) l)%list
    with ([(icon_path size, [])]
          ++ [(icon_path size, icon compress size)]
          ++ flat_map (fun s => [(icon_path s, []); (icon_path s, icon compress s)]) l)%list.
  rewrite !rev_app_distr. cbn [rev app]. now rewrite <- app_assoc.
Qed.

Lemma written_one (size : Z) :
  written compress [size]
  = [(icon_path size, icon compress size); (icon_path size, [])].
Proof. reflexivity. Qed.

Lemma after_nil (w : world) : after compress [] w = w.
Proof.
  unfold after. cbn [written map lines_text flat_map rev app].
  rewrite append_nil_r. now destruct w.
Qed.

Lemma after_cons (size : Z) (l : list Z) (w : world) :
  after compress (size :: l) w = after compress l (after compress [size] w).
Proof.
  unfold after. cbn [files stdout map]. rewrite written_cons, <- app_assoc.
  f_equal. cbn [lines_text]. now rewrite append_nil_r, !append_assoc.
Qed.

Lemma after_app (a b : list Z) (w : world) :
  after compress (a ++ b) w = after compress b (after compress a w).
Proof.
  revert w. induction a as [|s a IH]; intros w; cbn [app].
  - now rewrite after_nil.
  - now rewrite (after_cons s (a ++ b) w), IH, (after_cons s a w).
Qed.

(** One iteration of the loop for a size that fits, followed by [k]. *)
Lemma iteration (size : Z) (k : action) (w : world) :
  fits size ->
  (create_png_icon_file compress env size (icon_path size) ;;;
   print env (created size) ;;; k) w
  = if opens env w (icon_path size) then
      let w1 := write_file (icon_path size) [] w in
      match write_stops env w1 (icon_path size) (icon compress size) with
      | Some n =>
          (Some OSError,
           write_file (icon_path size) (firstn n (icon compress size)) w1)
      | None =>
          let w2 := write_file (icon_path size) (icon compress size) w1 in
          match print_stops env w2 (created size) with
          | Some j =>
              (Some OSError,
               World (written compress [size] ++ files w)
                     (stdout w ++ substring 0 j (created size ++ newline)))
          | None => k (after compress [size] w)
          end
      end
    else (Some OSError, w).
Proof.
  intros Hf. unfold seq at 1. rewrite create_png_icon_file_fits by assumption.
  unfold seq at 1, open_wb at 1.
  destruct (opens env w (icon_path size)); [|reflexivity].
  cbv zeta. unfold write_close at 1.
  destruct (write_stops env _ _ _) as [n|]; [reflexivity|].
  unfold seq at 1, print at 1.
  destruct (print_stops env _ _) as [j|]; [reflexivity|].
  unfold after. cbn [files stdout write_file map lines_text].
  now rewrite append_nil_r, written_one.
Qed.

(** A loop that completes leaves the world [after]. *)
Lemma generate_after (l : list Z) (w w' : world) :
  Forall fits l ->
  generate compress env l w = (None, w') -> w' = after compress l w.
Proof.
  intros Hf. revert w.
  induction Hf as [|size l Hsize _ IH]; intros w; cbn [generate].
  - unfold skip. intros [= <-]. now rewrite after_nil.
  - rewrite iteration by assumption. cbv zeta.
    destruct (opens env w (icon_path size)); [|discriminate].
    destruct (write_stops env _ _ _); [discriminate|].
    destruct (print_stops env _ _); [discriminate|].
    intros H. rewrite (after_cons size l w). now apply IH.
Qed.

(** A loop that raises does so in one iteration, with [OSError], the
    iterations before it being complete. *)
Lemma generate_stops (l : list Z) (w w' : world) (e : failure) :
  Forall fits l ->
  generate compress env l w = (Some e, w') ->
  e = OSError
  /\ exists done size rest,
      l = (done ++ size :: rest)%list
      /\ stopped_at compress size (after compress done w) w'.
Proof.
  intros Hf. revert w.
  induction Hf as [|size l Hsize _ IH]; intros w; cbn [generate].
  - discriminate.
  - rewrite iteration by assumption. cbv zeta.
    destruct (opens env w (icon_path size)).
    + destruct (write_stops env _ _ _) as [n|].
      * intros [= <- <-]. split; [reflexivity|].
        exists [], size, l. split; [reflexivity|].
        rewrite after_nil. right. left. now exists n.
      * destruct (print_stops env _ _) as [j|].
        -- intros [= <- <-]. split; [reflexivity|].
           exists [], size, l. split; [reflexivity|].
           rewrite after_nil. right. right. now exists j.
        -- intros H. destruct (IH _ H) as [-> [done [s [rest [-> Hst]]]]].
           split; [reflexivity|].
           exists (size :: done), s, rest. split; [reflexivity|].
           now rewrite (after_cons size done w).
    + intros [= <- <-]. split; [reflexivity|].
      exists [], size, l. split; [reflexivity|].
      rewrite after_nil. now left.
Qed.

(** A loop whose operations all succeed completes. *)
Lemma generate_runs (l : list Z) (w : world) :
  Forall fits l -> reliable env (map icon_path l) (map created l) ->
  generate compress env l w = (None, after compress l w).
Proof.
  intros Hf. revert w.
  induction Hf as [|size l Hsize _ IH]; intros w [Ho [Hw Hp]]; cbn [generate].
  - unfold skip. now rewrite after_nil.
  - rewrite iteration by assumption. cbv zeta.
    rewrite Ho, Hw, Hp by (now left).
    rewrite (after_cons size l w). apply IH.
    split; [|split]; intros; [apply Ho | apply Hw | apply Hp]; now right.
Qed.

(** A loop that meets a file it cannot open stops there. *)
Lemma generate_locked (done rest : list Z) (size : Z) (w : world) :
  Forall fits (done ++ size :: rest) ->
  reliable env (map icon_path done) (map created done) ->
  (forall v, opens env v (icon_path size) = false) ->
  generate compress env (done ++ size :: rest) w
  = (Some OSError, after compress done w).
Proof.
  revert w. induction done as [|s done IH]; intros w Hf Hr Hl; cbn [app generate].
  - inversion Hf; subst. rewrite iteration by assumption.
    now rewrite Hl, after_nil.
  - inversion Hf; subst. destruct Hr as [Ho [Hw Hp]].
    rewrite iteration by assumption. cbv zeta.
    rewrite Ho, Hw, Hp by (now left).
    rewrite (after_cons s done w). apply IH; [assumption| |assumption].
    split; [|split]; intros; [apply Ho | apply Hw | apply Hp]; now right.
Qed.

(** *** Reading the files of a world *)

Lemma read_written_one (size : Z) (path : string) :
  read_file path (written compress [size])
  = if String.eqb (icon_path size) path then Some (icon compress size) else None.
Proof.
  rewrite written_one. cbn [read_file].
  now destruct (String.eqb (icon_path size) path).
Qed.

Lemma read_written_in (l : list Z) (size : Z) :
  In size l ->
  read_file (icon_path size) (written compress l) = Some (icon compress size).
Proof.
  induction l as [|s l IH]; [contradiction|].
  intros Hin. rewrite written_cons, read_file_app.
  destruct (in_dec Z.eq_dec size l) as [Hl|Hl].
  - now rewrite (IH Hl).
  - destruct Hin as [->|Hin]; [|contradiction].
    destruct (read_file (icon_path size) (written compress l)) as [d|] eqn:E.
    + exfalso. apply Hl. clear IH Hl.
      induction l as [|t l IHl]; [discriminate|].
      rewrite written_cons, read_file_app in E.
      destruct (read_file (icon_path size) (written compress l)) as [d'|] eqn:E'.
      * right. now apply IHl.
      * rewrite read_written_one in E.
        destruct (String.eqb_spec (icon_path t) (icon_path size)) as [Ep|];
          [|discriminate].
        left. now apply icon_path_inj.
    + rewrite read_written_one. now rewrite String.eqb_refl.
Qed.

Lemma read_written_other (l : list Z) (path : string) :
  (forall size, In size l -> path <> icon_path size) ->
  read_file path (written compress l) = None.
Proof.
  induction l as [|s l IH]; intros H; [reflexivity|].
  rewrite written_cons, read_file_app, IH by (intros; apply H; now right).
  rewrite read_written_one.
  destruct (String.eqb_spec (icon_path s) path) as [E|]; [|reflexivity].
  exfalso. apply (H s); [now left | now symmetry].
Qed.

Lemma read_after_in (l : list Z) (size : Z) (w : world) :
  In size l ->
  read_file (icon_path size) (files (after compress l w))
  = Some (icon compress size).
Proof.
  intros Hin. unfold after. cbn [files].
  now rewrite read_file_app, read_written_in.
Qed.

Lemma read_after_other (l : list Z) (path : string) (w : world) :
  (forall size, In size l -> path <> icon_path size) ->
  read_file path (files (after compress l w)) = read_file path (files w).
Proof.
  intros H. unfold after. cbn [files].
  now rewrite read_file_app, read_written_other.
Qed.

(** An iteration that stops touches no file but its own, which is left as
    it was or holds a prefix of the icon. *)
Lemma stopped_other (size : Z) (path : string) (w w' : world) :
  stopped_at compress size w w' -> path <> icon_path size ->
  read_file path (files w') = read_file path (files w).
Proof.
  intros [->|[[n ->]|[k ->]]] Hp; [reflexivity| |].
  - cbn [files write_file read_file].
    destruct (String.eqb_spec (icon_path size) path); [congruence | reflexivity].
  - cbn [files]. rewrite read_file_app, read_written_one.
    destruct (String.eqb_spec (icon_path size) path); [congruence | reflexivity].
Qed.

Lemma stopped_own (size : Z) (w w' : world) :
  stopped_at compress size w w' ->
  read_file (icon_path size) (files w') = read_file (icon_path size) (files w)
  \/ exists n,
       read_file (icon_path size) (files w')
       = Some (firstn n (icon compress size)).
Proof.
  intros [->|[[n ->]|[k ->]]]; [now left| |]; right.
  - exists n. cbn [files write_file read_file]. now rewrite String.eqb_refl.
  - exists (List.length (icon compress size)).
    cbn [files]. rewrite read_file_app, read_written_one, String.eqb_refl.
    now rewrite firstn_all.
Qed.

Lemma stopped_stdout (size : Z) (w w' : world) :
  stopped_at compress size w w' ->
  exists k,
    stdout w' = (stdout w ++ substring 0 k (created size ++ newline))%string.
Proof.
  intros [->|[[n ->]|[k ->]]].
  - exists 0%nat. now rewrite substring_0_0, append_nil_r.
  - exists 0%nat. cbn [stdout write_file]. now rewrite substring_0_0, append_nil_r.
  - now exists k.
Qed.

Lemma sizes_fit : Forall fits sizes.
Proof.
  unfold sizes, fits.
  repeat (constructor; [split; [lia | vm_compute; reflexivity]|]).
  constructor.
Qed.

(** What a run of a loop followed by a last [print] leaves when it
    completes, and when it raises. *)
Lemma then_print_ok (l : list Z) (line : string) (w w' : world) :
  Forall fits l ->
  (generate compress env l ;;; print env line) w = (None, w') ->
  w' = World (files (after compress l w))
             (stdout (after compress l w) ++ line ++ newline).
Proof.
  intros Hf. unfold seq.
  destruct (generate compress env l w) as [[e|] w1] eqn:G; [discriminate|].
  apply (generate_after _ Hf) in G. subst w1.
  unfold print. destruct (print_stops env _ _); [discriminate|].
  now intros [= <-].
Qed.

Lemma then_print_runs (l : list Z) (line : string) (w : world) :
  Forall fits l ->
  reliable env (map icon_path l) (map created l ++ [line]) ->
  exists w', (generate compress env l ;;; print env line) w = (None, w').
Proof.
  intros Hf [Ho [Hw Hp]]. unfold seq.
  rewrite generate_runs; [|assumption|].
  - unfold print. rewrite Hp by (apply in_or_app; right; now left).
    eexists. reflexivity.
  - split; [|split]; intros; [apply Ho | apply Hw | apply Hp];
      try assumption. apply in_or_app. now left.
Qed.

Lemma then_print_stops (l : list Z) (line : string) (w w' : world) (e : failure) :
  Forall fits l ->
  (generate compress env l ;;; print env line) w = (Some e, w') ->
  e = OSError
  /\ ((exists done size rest,
         l = (done ++ size :: rest)%list
         /\ stopped_at compress size (after compress done w) w')
      \/ (exists k,
            w' = World (files (after compress l w))
                       (stdout (after compress l w)
                        ++ substring 0 k (line ++ newline)))).
Proof.
  intros Hf. unfold seq.
  destruct (generate compress env l w) as [[e0|] w1] eqn:G.
  - intros [= <- <-]. destruct (generate_stops _ Hf G) as [-> H].
    split; [reflexivity | now left].
  - apply (generate_after _ Hf) in G. subst w1.
    unfold print. destruct (print_stops env _ _) as [k|]; [|discriminate].
    intros [= <- <-]. split; [reflexivity|]. right. now exists k.
Qed.

Lemma then_print_locked (done rest : list Z) (size : Z) (line : string) (w : world) :
  Forall fits (done ++ size :: rest) ->
  reliable env (map icon_path done) (map created done) ->
  (forall v, opens env v (icon_path size) = false) ->
  (generate compress env (done ++ size :: rest) ;;; print env line) w
  = (Some OSError, after compress done w).
Proof.
  intros Hf Hr Hl. unfold seq. now rewrite generate_locked.
Qed.

(** *** What a reader of the files finds *)

Lemma after_reads (l : list Z) (w : world) :
  Forall fits l ->
  (forall size, In size l ->
     exists img,
       rasterize size = inr img
       /\ read_file (icon_path size) (files (after compress l w))
          = Some (layout compress size img))
  /\ (forall path, (forall size, In size l -> path <> icon_path size) ->
        read_file path (files (after compress l w)) = read_file path (files w)).
Proof.
  intros Hf. split.
  - intros size Hin. rewrite Forall_forall in Hf.
    destruct (icon_layout (Hf size Hin)) as [img [Himg [_ E]]].
    exists img. split; [exact Himg|]. now rewrite read_after_in, E.
  - intros path Hp. now apply read_after_other.
Qed.

Lemma then_print_reads (l : list Z) (line : string) (w w' : world) :
  Forall fits l ->
  (generate compress env l ;;; print env line) w = (None, w') ->
  stdout w' = (stdout w ++ lines_text (map created l ++ [line]))%string
  /\ (forall size, In size l ->
        exists img,
          rasterize size = inr img
          /\ read_file (icon_path size) (files w')
             = Some (layout compress size img))
  /\ (forall path, (forall size, In size l -> path <> icon_path size) ->
        read_file path (files w') = read_file path (files w)).
Proof.
  intros Hf H. rewrite (then_print_ok _ _ Hf H). cbn [files stdout].
  split; [|exact (after_reads w Hf)].
  unfold after. cbn [stdout]. rewrite lines_text_app. cbn [lines_text].
  now rewrite append_nil_r, !append_assoc.
Qed.

Lemma generate_reads (l : list Z) (w w' : world) :
  Forall fits l ->
  generate compress env l w = (None, w') ->
  stdout w' = (stdout w ++ lines_text (map created l))%string
  /\ (forall size, In size l ->
        exists img,
          rasterize size = inr img
          /\ read_file (icon_path size) (files w')
             = Some (layout compress size img))
  /\ (forall path, (forall size, In size l -> path <> icon_path size) ->
        read_file path (files w') = read_file path (files w)).
Proof.
  intros Hf H. rewrite (generate_after _ Hf H).
  split; [reflexivity | exact (after_reads w Hf)].
Qed.

Lemma then_print_stops_reads (l : list Z) (line : string) (w w' : world)
      (e : failure) :
  Forall fits l -> NoDup l ->
  (generate compress env l ;;; print env line) w = (Some e, w') ->
  e = OSError
  /\ exists done rest k,
      l = (done ++ rest)%list
      /\ (forall size, In size done ->
            exists img,
              rasterize size = inr img
              /\ read_file (icon_path size) (files w')
                 = Some (layout compress size img))
      /\ (forall size, hd_error rest = Some size ->
            read_file (icon_path size) (files w')
            = read_file (icon_path size) (files w)
            \/ exists img n,
                 rasterize size = inr img
                 /\ read_file (icon_path size) (files w')
                    = Some (firstn n (layout compress size img)))
      /\ (forall path,
            (forall size, In size done \/ hd_error rest = Some size ->
                          path <> icon_path size) ->
            read_file path (files w') = read_file path (files w))
      /\ stdout w'
         = (stdout w ++ lines_text (map created done)
            ++ substring 0 k (next_line rest line ++ newline))%string.
Proof.
  intros Hf Hnd H.
  destruct (then_print_stops _ _ Hf H) as [-> [[done [s [rest [-> Hst]]]]|[k ->]]];
    (split; [reflexivity|]).
  - destruct (stopped_stdout Hst) as [k Hk].
    exists done, (s :: rest), k. split; [reflexivity|].
    apply Forall_app in Hf. destruct Hf as [Hfd Hfs].
    inversion Hfs as [|? ? Hs _]; subst.
    assert (Hnot : ~ In s done).
    { apply NoDup_remove_2 in Hnd. intros Hin. apply Hnd.
      apply in_or_app. now left. }
    assert (Hother : forall size, In size done -> icon_path size <> icon_path s).
    { intros size Hin E. apply icon_path_inj in E. now subst. }
    destruct (after_reads w Hfd) as [Hin Hout].
    split; [|split; [|split]].
    + intros size Hd. destruct (Hin size Hd) as [img [Himg E]].
      exists img. split; [exact Himg|].
      now rewrite (stopped_other Hst (Hother size Hd)).
    + intros size [= <-].
      destruct (icon_layout Hs) as [img [Himg [_ E]]].
      destruct (stopped_own Hst) as [Hsame|[n Hn]].
      * left. rewrite Hsame. apply Hout.
        intros size Hd E'. now apply (Hother size Hd).
      * right. exists img, n. split; [exact Himg|]. now rewrite Hn, E.
    + intros path Hp.
      rewrite (@stopped_other s path _ _ Hst) by (apply Hp; now right).
      apply Hout. intros size Hd. apply Hp. now left.
    + cbn [next_line]. rewrite Hk. cbn [after stdout]. now rewrite append_assoc.
  - exists l, [], k. split; [now rewrite app_nil_r|].
    destruct (after_reads w Hf) as [Hin Hout]. cbn [files stdout].
    split; [exact Hin|]. split; [discriminate|]. split.
    + intros path Hp. apply Hout. intros size Hd. apply Hp. now left.
    + cbn [next_line after stdout]. now rewrite append_assoc.
Qed.

End Run.

Lemma created_lines :
  (map created sizes ++ ["Done!"%string])%list
  = ["Created icon-72.png"; "Created icon-96.png"; "Created icon-128.png";
     "Created icon-144.png"; "Created icon-152.png"; "Created icon-192.png";
     "Created icon-384.png"; "Created icon-512.png"; "Done!"]%string.
Proof. reflexivity. Qed.

Lemma icon_paths :
  map icon_path sizes
  = ["src/PayGuardAI.Web/wwwroot/icons/icon-72.png";
     "src/PayGuardAI.Web/wwwroot/icons/icon-96.png";
     "src/PayGuardAI.Web/wwwroot/icons/icon-128.png";
     "src/PayGuardAI.Web/wwwroot/icons/icon-144.png";
     "src/PayGuardAI.Web/wwwroot/icons/icon-152.png";
     "src/PayGuardAI.Web/wwwroot/icons/icon-192.png";
     "src/PayGuardAI.Web/wwwroot/icons/icon-384.png";
     "src/PayGuardAI.Web/wwwroot/icons/icon-512.png"]%string.
Proof. reflexivity. Qed.

Lemma sizes_NoDup : NoDup sizes.
Proof.
  unfold sizes.
  repeat (constructor; [cbn [In]; intros H; repeat destruct H as [H|H]; try discriminate H; exact H|]).
  constructor.
Qed.

Lemma calm_reliable (paths lines : list string) : reliable calm paths lines.
Proof. now repeat split. Qed.

End ScriptFacts.

(** ** Properties of the script *)

Module ScriptSpec.
Import Stdlib.Strings.String.
Import Icon Png PngSpec Stored StoredFacts Script ScriptFacts.

Unset Implicit Arguments.

Section Run.

Variable compress : list byte -> list byte.
Variable env : environment.

Hypothesis compress_bound :
  forall raw,
    Z.of_nat (List.length (compress raw))
    <= compressBound (Z.of_nat (List.length raw)).

Lemma main_then_print :
  main compress env = (generate compress env sizes ;;; print env "Done!").
Proof. reflexivity. Qed.

(** X12: the loop of lines 67-69 over any list of sizes that fit, in any
    environment.  It completes when every [open], every write and close and
    every [print] of the run succeeds.  Whenever it completes, it has
    printed one line [Created icon-<size>.png] per size in order, the path
    of each size holds the PNG of the image rasterized for that size, and no
    other path is changed.  Whenever it raises, it raises [OSError]: the
    computation of an icon that fits raises nothing. *)
Theorem generate_writes (l : list Z) (w : world) :
  Forall fits l ->
  (reliable env (map icon_path l) (map created l) ->
   exists w', generate compress env l w = (None, w'))
  /\ (forall w',
        generate compress env l w = (None, w') ->
        stdout w' = (stdout w ++ lines_text (map created l))%string
        /\ (forall size, In size l ->
              exists img,
                rasterize size = inr img
                /\ read_file (icon_path size) (files w')
                   = Some (layout compress size img))
        /\ (forall path, (forall size, In size l -> path <> icon_path size) ->
              read_file path (files w') = read_file path (files w)))
  /\ (forall e w', generate compress env l w = (Some e, w') -> e = OSError).
Proof.
  intros Hf. split; [|split].
  - intros Hr. eexists.
    exact (@generate_runs compress env compress_bound l w Hf Hr).
  - intros w' H.
    exact (@generate_reads compress env compress_bound l w w' Hf H).
  - intros e w' H.
    exact (proj1 (@generate_stops compress env compress_bound l w w' e Hf H)).
Qed.

(** X13: the script as written.  It ends without raising when every
    operation on its eight files and each of its nine prints succeeds.
    Whenever it ends without raising, it has printed the eight [Created]
    lines for 72, 96, 128, 144, 152, 192, 384 and 512 and then [Done!], each
    of the eight paths holds the PNG of the image rasterized for its size,
    and no other path is changed. *)
Theorem main_completes (w : world) :
  (reliable env (map icon_path sizes) (map created sizes ++ ["Done!"%string]) ->
   exists w', main compress env w = (None, w'))
  /\ (forall w',
        main compress env w = (None, w') ->
        stdout w'
        = (stdout w
           ++ lines_text
                ["Created icon-72.png"; "Created icon-96.png";
                 "Created icon-128.png"; "Created icon-144.png";
                 "Created icon-152.png"; "Created icon-192.png";
                 "Created icon-384.png"; "Created icon-512.png"; "Done!"])%string
        /\ (forall size, In size sizes ->
              exists img,
                rasterize size = inr img
                /\ read_file (icon_path size) (files w')
                   = Some (layout compress size img))
        /\ (forall path, ~ In path (map icon_path sizes) ->
              read_file path (files w') = read_file path (files w))).
Proof.
  rewrite main_then_print. split.
  - intros Hr.
    exact (@then_print_runs compress env compress_bound sizes "Done!" w
             sizes_fit Hr).
  - intros w' H.
    destruct (@then_print_reads compress env compress_bound sizes "Done!" w w'
                sizes_fit H) as [Hout [Hin Hother]].
    split; [now rewrite <- created_lines|]. split; [exact Hin|].
    intros path Hp. apply Hother. intros size Hs ->. apply Hp. now apply in_map.
Qed.

(** X14: whatever the environment does, the script raises nothing but the
    [OSError] of an [open], of writing or closing a file, or of a [print]:
    no [OverflowError], [ZeroDivisionError], [ValueError] or [struct.error]
    comes out of the computation of its eight icons.  When it raises, the
    sizes split into those done and the rest: the files of the sizes done
    hold their PNG; the file of the first size left is as it was or holds a
    prefix of its PNG; no other path is changed; and the output is the lines
    of the sizes done followed by a prefix of the next line. *)
Theorem main_fails_only_on_io (w w' : world) (e : failure) :
  main compress env w = (Some e, w') ->
  e = OSError
  /\ exists done rest k,
      sizes = (done ++ rest)%list
      /\ (forall size, In size done ->
            exists img,
              rasterize size = inr img
              /\ read_file (icon_path size) (files w')
                 = Some (layout compress size img))
      /\ (forall size, hd_error rest = Some size ->
            read_file (icon_path size) (files w')
            = read_file (icon_path size) (files w)
            \/ exists img n,
                 rasterize size = inr img
                 /\ read_file (icon_path size) (files w')
                    = Some (firstn n (layout compress size img)))
      /\ (forall path,
            (forall size, In size done \/ hd_error rest = Some size ->
                          path <> icon_path size) ->
            read_file path (files w') = read_file path (files w))
      /\ stdout w'
         = (stdout w ++ lines_text (map created done)
            ++ substring 0 k (next_line rest "Done!" ++ newline))%string.
Proof.
  intros H. rewrite main_then_print in H.
  exact (@then_print_stops_reads compress env compress_bound sizes "Done!" w w' e
           sizes_fit sizes_NoDup H).
Qed.

End Run.

(** X15: different sizes are written to different paths: the name
    [f'{base}/icon-{size}.png'] determines [size], so no icon of the loop
    overwrites another. *)
Theorem icon_files_distinct (a b : Z) : icon_path a = icon_path b <-> a = b.
Proof. split; [apply icon_path_inj | now intros ->]. Qed.

Lemma fits_2_3 : Forall fits [2; 3].
Proof. repeat (constructor; [split; [lia | reflexivity]|]). constructor. Qed.

Lemma generate_writes_witness :
  exists w',
    generate zlib_store calm [2; 3] (World [] "") = (None, w')
    /\ stdout w' = (stdout (World [] "") ++ lines_text (map created [2; 3]))%string
    /\ (forall size, In size [2; 3] ->
          exists img,
            rasterize size = inr img
            /\ read_file (icon_path size) (files w')
               = Some (layout zlib_store size img))
    /\ (forall path, (forall size, In size [2; 3] -> path <> icon_path size) ->
          read_file path (files w') = read_file path (files (World [] ""))).
Proof.
  destruct (generate_writes zlib_store calm zlib_store_bound [2; 3] (World [] "")
              fits_2_3) as [Hruns [Hreads _]].
  destruct (Hruns (calm_reliable _ _)) as [w' Hw'].
  exists w'. split; [exact Hw' | exact (Hreads w' Hw')].
Defined.

Lemma main_completes_witness :
  exists w',
    main zlib_store calm (World [] "") = (None, w')
    /\ stdout w'
       = (stdout (World [] "")
          ++ lines_text
               ["Created icon-72.png"; "Created icon-96.png";
                "Created icon-128.png"; "Created icon-144.png";
                "Created icon-152.png"; "Created icon-192.png";
                "Created icon-384.png"; "Created icon-512.png"; "Done!"])%string
    /\ (forall size, In size sizes ->
          exists img,
            rasterize size = inr img
            /\ read_file (icon_path size) (files w')
               = Some (layout zlib_store size img))
    /\ (forall path, ~ In path (map icon_path sizes) ->
          read_file path (files w') = read_file path (files (World [] ""))).
Proof.
  destruct (main_completes zlib_store calm zlib_store_bound (World [] ""))
    as [Hruns Hreads].
  destruct (Hruns (calm_reliable _ _)) as [w' Hw'].
  exists w'. split; [exact Hw' | exact (Hreads w' Hw')].
Defined.

(** With the third file locked the script stops there, two icons written. *)
Lemma main_locked :
  main zlib_store (locked (icon_path 128)) (World [] "")
  = (Some OSError, after zlib_store [72; 96] (World [] "")).
Proof.
  rewrite main_then_print.
  apply (@then_print_locked zlib_store (locked (icon_path 128)) zlib_store_bound
           [72; 96] [144; 152; 192; 384; 512] 128 "Done!" (World [] "")).
  - exact sizes_fit.
  - split; [|split]; [|reflexivity|reflexivity].
    intros v path [<-|[<-|[]]]; reflexivity.
  - reflexivity.
Qed.

Lemma main_fails_only_on_io_witness :
  OSError = OSError
  /\ exists done rest k,
      sizes = (done ++ rest)%list
      /\ (forall size, In size done ->
            exists img,
              rasterize size = inr img
              /\ read_file (icon_path size)
                   (files (after zlib_store [72; 96] (World [] "")))
                 = Some (layout zlib_store size img))
      /\ (forall size, hd_error rest = Some size ->
            read_file (icon_path size)
              (files (after zlib_store [72; 96] (World [] "")))
            = read_file (icon_path size) (files (World [] ""))
            \/ exists img n,
                 rasterize size = inr img
                 /\ read_file (icon_path size)
                      (files (after zlib_store [72; 96] (World [] "")))
                    = Some (firstn n (layout zlib_store size img)))
      /\ (forall path,
            (forall size, In size done \/ hd_error rest = Some size ->
                          path <> icon_path size) ->
            read_file path (files (after zlib_store [72; 96] (World [] "")))
            = read_file path (files (World [] "")))
      /\ stdout (after zlib_store [72; 96] (World [] ""))
         = (stdout (World [] "") ++ lines_text (map created done)
            ++ substring 0 k (next_line rest "Done!" ++ newline))%string.
Proof.
  apply (main_fails_only_on_io zlib_store (locked (icon_path 128))
           zlib_store_bound (World [] "")
           (after zlib_store [72; 96] (World [] "")) OSError).
  exact main_locked.
Defined.

End ScriptSpec.
